(** * NetSurf fetch scheduler (content/fetch.c): shallow embedding

    The C file keeps every [struct fetch] on the heap and links the records
    through four pointer fields (the global list [fetch_list] through
    [prev]/[next], the per-host queues through [queue_prev]/[queue_next]).
    The embedding keeps that shape: a heap of records indexed by address, the
    null pointer as [None], and every dereference of an address that is not
    (or no longer) allocated reported as a fault.  The code is a sequence of
    statements over global state, so it is written in a state-and-fault monad.

    libcurl is outside the repository.  It is modelled by the little state the
    scheduler can observe: the easy handles with the options set on them, the
    set of handles added to the multi handle, and the contract stated in the
    comment of [fetch_poll]: a write callback that returns 0 makes the transfer
    end with [CURLE_WRITE_ERROR].  What the network does is an input of
    [fetch_poll].

    The client's callback is a function pointer in the C code.  Here it is a
    function from the client's own memory and the callback's arguments to a
    small program of calls back into the scheduler ([fetch_abort],
    [fetch_start]), which is how re-entrancy is expressed. *)

From stdpp Require Import base option list gmap sets strings.
From Stdlib Require Import ZArith NArith Ascii String Lia.

Local Open Scope string_scope.

(** ** Addresses, messages and the client interface *)

(** [struct fetch *] and [CURL *]: addresses; a nullable pointer is an
    [option]. *)
Abbreviation addr := nat (only parsing).
Abbreviation handle := nat (only parsing).

(** [fetch_msg] of content/fetch.h. *)
Inductive fetch_msg :=
| FETCH_TYPE
| FETCH_DATA
| FETCH_FINISHED
| FETCH_ERROR
| FETCH_REDIRECT
| FETCH_AUTH.

#[global] Instance fetch_msg_eq_dec : EqDecision fetch_msg.
Proof. solve_decision. Defined.

(** The [char *data] argument of the callback, by what it points to. *)
Inductive payload :=
| PNull                          (* 0 *)
| PMime (type : string)          (* the content type *)
| PChunk (data : string)         (* the engine's receive buffer *)
| PErrorBuffer (text : string)   (* f->error_buffer *)
| PMessage (text : string)       (* messages_get(...) *)
| PLocation (target : string)    (* f->location *)
| PRealm (realm : option string) (* f->realm, possibly 0 *).

(** [CURLcode] values used by the scheduler (curl/curl.h). *)
Definition CURLE_OK : Z := 0.
Definition CURLE_WRITE_ERROR : Z := 23.

(** [CURLMSG]: libcurl defines [CURLMSG_DONE] only; anything else reaches the
    [default: assert(0)] of [fetch_poll]. *)
Inductive CURLMSG := CURLMSG_DONE | CURLMSG_NONE.

(** Collaborators that live outside fetch.c, and the compile-time switch
    [WITH_AUTH]. [client] is the memory behind the callback's [void *p]. *)
Class World := {
  client : Type;
  url_host : string → option string;       (* utils/url.h *)
  curl_unescape : string → string;         (* libcurl *)
  messages_get : string → string;          (* utils/messages.h *)
  fetch_filetype : string → string;        (* content/fetch.h *)
  WITH_AUTH : bool;
}.

(** What a callback does before it returns: calls into the scheduler, then
    the client's memory it leaves behind. *)
Inductive prog `{World} : Type :=
| Return (c : client)
| Call_fetch_abort (f : addr) (k : prog)
| Call_fetch_start (url : string) (referer : option string)
    (callback : client → fetch_msg → nat → payload → N → prog)
    (p : nat) (only_2xx : bool) (k : addr → prog).

Definition callback_t `{World} : Type :=
  client → fetch_msg → nat → payload → N → prog.

(** ** The data model *)

(** [struct fetch]. The POST fields ([WITH_POST]) only feed options of the
    easy handle and are left out with them. *)
Record fetch `{World} := {
  curl_handle : option handle;
  callback : callback_t;
  had_headers : bool;
  in_callback : bool;
  aborting : bool;
  only_2xx : bool;
  url : string;
  referer : option string;
  error_buffer : string;
  p : nat;
  headers : option (list string);
  host : option string;
  location : option string;
  content_length : N;
  realm : option string;
  queue_prev : option addr;
  queue_next : option addr;
  prev : option addr;
  next : option addr;
}.

(** One delivered callback. [ev_fetch] is the fetch whose callback ran. *)
Record event := {
  ev_fetch : addr;
  ev_msg : fetch_msg;
  ev_p : nat;
  ev_data : payload;
  ev_size : N;
}.

(** An easy handle, by the options fetch.c sets and the two values it reads
    back with [curl_easy_getinfo]. *)
Record easy := {
  opt_url : string;
  opt_private : option addr;
  opt_errorbuffer : option addr;
  opt_writedata : option addr;
  opt_writeheader : option addr;
  opt_referer : option string;
  opt_httpheader : option (list string);
  info_http_code : Z;
  info_content_type : option string;
}.

(** libcurl: live easy handles, the handles added to [curl_multi], and those
    whose write callback returned short since they were added. *)
Record curl := {
  easies : gmap handle easy;
  multi : gset handle;
  write_failed : gset handle;
  next_handle : handle;
}.

(** The globals of fetch.c, the C heap, the engine, the client's memory and
    the log of callbacks delivered so far (oldest first). *)
Record sched `{World} := {
  heap : gmap addr fetch;
  next_addr : addr;
  fetch_list : option addr;
  fetch_active : bool;
  engine : curl;
  cl : client;
  trace : list event;
}.

(** What the engine does during one [fetch_poll]: first the work of
    [curl_multi_perform], then the messages of [curl_multi_info_read]. *)
Inductive transfer :=
| Response (h : handle) (http_code : Z) (content_type : option string)
| HeaderLine (h : handle) (line : string)
| BodyChunk (h : handle) (data : string).

Record CURLMsg := {
  msg : CURLMSG;
  easy_handle : handle;
  result : Z;
  diagnostic : string;
}.

(** ** Field updates *)

Section Updates.
Context `{World}.

Definition set_curl_handle (v : option handle) (f : fetch) : fetch :=
  {| curl_handle := v; callback := callback f; had_headers := had_headers f;
     in_callback := in_callback f; aborting := aborting f; only_2xx := only_2xx f;
     url := url f; referer := referer f; error_buffer := error_buffer f; p := p f;
     headers := headers f; host := host f; location := location f;
     content_length := content_length f; realm := realm f;
     queue_prev := queue_prev f; queue_next := queue_next f;
     prev := prev f; next := next f |}.

Definition set_had_headers (v : bool) (f : fetch) : fetch :=
  {| curl_handle := curl_handle f; callback := callback f; had_headers := v;
     in_callback := in_callback f; aborting := aborting f; only_2xx := only_2xx f;
     url := url f; referer := referer f; error_buffer := error_buffer f; p := p f;
     headers := headers f; host := host f; location := location f;
     content_length := content_length f; realm := realm f;
     queue_prev := queue_prev f; queue_next := queue_next f;
     prev := prev f; next := next f |}.

Definition set_in_callback (v : bool) (f : fetch) : fetch :=
  {| curl_handle := curl_handle f; callback := callback f; had_headers := had_headers f;
     in_callback := v; aborting := aborting f; only_2xx := only_2xx f;
     url := url f; referer := referer f; error_buffer := error_buffer f; p := p f;
     headers := headers f; host := host f; location := location f;
     content_length := content_length f; realm := realm f;
     queue_prev := queue_prev f; queue_next := queue_next f;
     prev := prev f; next := next f |}.

Definition set_aborting (v : bool) (f : fetch) : fetch :=
  {| curl_handle := curl_handle f; callback := callback f; had_headers := had_headers f;
     in_callback := in_callback f; aborting := v; only_2xx := only_2xx f;
     url := url f; referer := referer f; error_buffer := error_buffer f; p := p f;
     headers := headers f; host := host f; location := location f;
     content_length := content_length f; realm := realm f;
     queue_prev := queue_prev f; queue_next := queue_next f;
     prev := prev f; next := next f |}.

Definition set_error_buffer (v : string) (f : fetch) : fetch :=
  {| curl_handle := curl_handle f; callback := callback f; had_headers := had_headers f;
     in_callback := in_callback f; aborting := aborting f; only_2xx := only_2xx f;
     url := url f; referer := referer f; error_buffer := v; p := p f;
     headers := headers f; host := host f; location := location f;
     content_length := content_length f; realm := realm f;
     queue_prev := queue_prev f; queue_next := queue_next f;
     prev := prev f; next := next f |}.

Definition set_headers (v : option (list string)) (f : fetch) : fetch :=
  {| curl_handle := curl_handle f; callback := callback f; had_headers := had_headers f;
     in_callback := in_callback f; aborting := aborting f; only_2xx := only_2xx f;
     url := url f; referer := referer f; error_buffer := error_buffer f; p := p f;
     headers := v; host := host f; location := location f;
     content_length := content_length f; realm := realm f;
     queue_prev := queue_prev f; queue_next := queue_next f;
     prev := prev f; next := next f |}.

Definition set_location (v : option string) (f : fetch) : fetch :=
  {| curl_handle := curl_handle f; callback := callback f; had_headers := had_headers f;
     in_callback := in_callback f; aborting := aborting f; only_2xx := only_2xx f;
     url := url f; referer := referer f; error_buffer := error_buffer f; p := p f;
     headers := headers f; host := host f; location := v;
     content_length := content_length f; realm := realm f;
     queue_prev := queue_prev f; queue_next := queue_next f;
     prev := prev f; next := next f |}.

Definition set_content_length (v : N) (f : fetch) : fetch :=
  {| curl_handle := curl_handle f; callback := callback f; had_headers := had_headers f;
     in_callback := in_callback f; aborting := aborting f; only_2xx := only_2xx f;
     url := url f; referer := referer f; error_buffer := error_buffer f; p := p f;
     headers := headers f; host := host f; location := location f;
     content_length := v; realm := realm f;
     queue_prev := queue_prev f; queue_next := queue_next f;
     prev := prev f; next := next f |}.

Definition set_realm (v : option string) (f : fetch) : fetch :=
  {| curl_handle := curl_handle f; callback := callback f; had_headers := had_headers f;
     in_callback := in_callback f; aborting := aborting f; only_2xx := only_2xx f;
     url := url f; referer := referer f; error_buffer := error_buffer f; p := p f;
     headers := headers f; host := host f; location := location f;
     content_length := content_length f; realm := v;
     queue_prev := queue_prev f; queue_next := queue_next f;
     prev := prev f; next := next f |}.

Definition set_queue_prev (v : option addr) (f : fetch) : fetch :=
  {| curl_handle := curl_handle f; callback := callback f; had_headers := had_headers f;
     in_callback := in_callback f; aborting := aborting f; only_2xx := only_2xx f;
     url := url f; referer := referer f; error_buffer := error_buffer f; p := p f;
     headers := headers f; host := host f; location := location f;
     content_length := content_length f; realm := realm f;
     queue_prev := v; queue_next := queue_next f;
     prev := prev f; next := next f |}.

Definition set_queue_next (v : option addr) (f : fetch) : fetch :=
  {| curl_handle := curl_handle f; callback := callback f; had_headers := had_headers f;
     in_callback := in_callback f; aborting := aborting f; only_2xx := only_2xx f;
     url := url f; referer := referer f; error_buffer := error_buffer f; p := p f;
     headers := headers f; host := host f; location := location f;
     content_length := content_length f; realm := realm f;
     queue_prev := queue_prev f; queue_next := v;
     prev := prev f; next := next f |}.

Definition set_prev (v : option addr) (f : fetch) : fetch :=
  {| curl_handle := curl_handle f; callback := callback f; had_headers := had_headers f;
     in_callback := in_callback f; aborting := aborting f; only_2xx := only_2xx f;
     url := url f; referer := referer f; error_buffer := error_buffer f; p := p f;
     headers := headers f; host := host f; location := location f;
     content_length := content_length f; realm := realm f;
     queue_prev := queue_prev f; queue_next := queue_next f;
     prev := v; next := next f |}.

Definition set_next (v : option addr) (f : fetch) : fetch :=
  {| curl_handle := curl_handle f; callback := callback f; had_headers := had_headers f;
     in_callback := in_callback f; aborting := aborting f; only_2xx := only_2xx f;
     url := url f; referer := referer f; error_buffer := error_buffer f; p := p f;
     headers := headers f; host := host f; location := location f;
     content_length := content_length f; realm := realm f;
     queue_prev := queue_prev f; queue_next := queue_next f;
     prev := prev f; next := v |}.

Definition with_heap (v : gmap addr fetch) (s : sched) : sched :=
  {| heap := v; next_addr := next_addr s; fetch_list := fetch_list s;
     fetch_active := fetch_active s; engine := engine s; cl := cl s;
     trace := trace s |}.

Definition with_next_addr (v : addr) (s : sched) : sched :=
  {| heap := heap s; next_addr := v; fetch_list := fetch_list s;
     fetch_active := fetch_active s; engine := engine s; cl := cl s;
     trace := trace s |}.

Definition with_fetch_list (v : option addr) (s : sched) : sched :=
  {| heap := heap s; next_addr := next_addr s; fetch_list := v;
     fetch_active := fetch_active s; engine := engine s; cl := cl s;
     trace := trace s |}.

Definition with_fetch_active (v : bool) (s : sched) : sched :=
  {| heap := heap s; next_addr := next_addr s; fetch_list := fetch_list s;
     fetch_active := v; engine := engine s; cl := cl s; trace := trace s |}.

Definition with_engine (v : curl) (s : sched) : sched :=
  {| heap := heap s; next_addr := next_addr s; fetch_list := fetch_list s;
     fetch_active := fetch_active s; engine := v; cl := cl s; trace := trace s |}.

Definition with_cl (v : client) (s : sched) : sched :=
  {| heap := heap s; next_addr := next_addr s; fetch_list := fetch_list s;
     fetch_active := fetch_active s; engine := engine s; cl := v; trace := trace s |}.

Definition with_trace (v : list event) (s : sched) : sched :=
  {| heap := heap s; next_addr := next_addr s; fetch_list := fetch_list s;
     fetch_active := fetch_active s; engine := engine s; cl := cl s; trace := v |}.

End Updates.

Definition with_easies (v : gmap handle easy) (c : curl) : curl :=
  {| easies := v; multi := multi c; write_failed := write_failed c;
     next_handle := next_handle c |}.

Definition with_multi (v w : gset handle) (c : curl) : curl :=
  {| easies := easies c; multi := v; write_failed := w;
     next_handle := next_handle c |}.

Definition with_write_failed (w : gset handle) (c : curl) : curl :=
  {| easies := easies c; multi := multi c; write_failed := w;
     next_handle := next_handle c |}.

(** ** The monad of fetch.c's statements *)

(** Ways not to reach the next statement: a dereference of freed memory, an
    access outside a buffer, a failed [assert], a loop that does not end. *)
Inductive fault := UseAfterFree | OutOfBounds | AssertionFailed | Diverges.

Inductive outcome (A : Type) :=
| Ok (a : A)
| Fault (e : fault).
Arguments Ok {A} a.
Arguments Fault {A} e.

Definition M `{World} (A : Type) : Type := sched → outcome (A * sched).

#[global] Instance M_ret `{World} : MRet M := λ A a s, Ok (a, s).
#[global] Instance M_bind `{World} : MBind M := λ A B k m s,
  match m s with
  | Ok (a, s') => k a s'
  | Fault e => Fault e
  end.

Section Monad.
Context `{World}.

Definition raise {A} (e : fault) : M A := λ _, Fault e.
Definition get : M sched := λ s, Ok (s, s).
Definition modify (g : sched → sched) : M unit := λ s, Ok (tt, g s).
Definition assert (b : bool) : M unit :=
  if b then mret tt else raise AssertionFailed.

(** [*a], for reading. *)
Definition deref (a : addr) : M fetch := λ s,
  match heap s !! a with
  | Some f => Ok (f, s)
  | None => Fault UseAfterFree
  end.

(** [a->field = v]. *)
Definition store (a : addr) (g : fetch → fetch) : M unit := λ s,
  match heap s !! a with
  | Some f => Ok (tt, with_heap (<[a := g f]> (heap s)) s)
  | None => Fault UseAfterFree
  end.

(** [xcalloc(1, sizeof(struct fetch))]: a block never handed out before. *)
Definition xcalloc (zeroed : fetch) : M addr := λ s,
  let a := next_addr s in
  Ok (a, with_next_addr (S a) (with_heap (<[a := zeroed]> (heap s)) s)).

(** [xfree(f)]. *)
Definition xfree (a : addr) : M unit := λ s,
  match heap s !! a with
  | Some _ => Ok (tt, with_heap (delete a (heap s)) s)
  | None => Fault UseAfterFree
  end.

End Monad.

(** ** The C library's string functions, as far as fetch.c uses them *)

Definition tolower (c : ascii) : ascii :=
  let n := nat_of_ascii c in
  if (65 <=? n)%nat && (n <=? 90)%nat then ascii_of_nat (n + 32) else c.

Definition code (c : ascii) : Z := Z.of_nat (nat_of_ascii c).

(** Compare at most [n] characters after mapping each through [fold];
    0 means equal, as in C. *)
Fixpoint compare_upto (fold : ascii → ascii) (n : nat) (a b : string) : Z :=
  match n with
  | O => 0
  | S n' =>
      match a, b with
      | EmptyString, EmptyString => 0
      | EmptyString, String y _ => (- code (fold y))%Z
      | String x _, EmptyString => code (fold x)
      | String x a', String y b' =>
          if (code (fold x) =? code (fold y))%Z
          then compare_upto fold n' a' b'
          else (code (fold x) - code (fold y))%Z
      end
  end.

Definition strncmp (a b : string) (n : nat) : Z := compare_upto id n a b.
Definition strncasecmp (a b : string) (n : nat) : Z := compare_upto tolower n a b.
Definition strcasecmp (a b : string) : Z :=
  compare_upto tolower (S (String.length a)) a b.

Fixpoint drop_string (n : nat) (s : string) : string :=
  match n, s with
  | S n', String _ s' => drop_string n' s'
  | _, _ => s
  end.

Definition is_blank (c : ascii) : bool :=
  bool_decide (c = " "%char) || bool_decide (c = "009"%char).

Definition is_space (c : ascii) : bool :=
  is_blank c || bool_decide (c = "013"%char) || bool_decide (c = "010"%char).

Fixpoint skip_blanks (s : string) : string :=
  match s with
  | String c s' => if is_blank c then skip_blanks s' else s
  | EmptyString => s
  end.

(** The string with its trailing white space cut off; [None] when nothing
    is left, where the C loop steps below index 0. *)
Fixpoint cut_trailing (s : string) : option string :=
  match s with
  | EmptyString => None
  | String c s' =>
      match cut_trailing s' with
      | Some t => Some (String c t)
      | None => if is_space c then None else Some (String c EmptyString)
      end
  end.

Definition digit (c : ascii) : option N :=
  let n := nat_of_ascii c in
  if (48 <=? n)%nat && (n <=? 57)%nat then Some (N.of_nat (n - 48)) else None.

Fixpoint atol_from (acc : N) (s : string) : N :=
  match s with
  | String c s' =>
      match digit c with
      | Some d => atol_from (acc * 10 + d) s'
      | None => acc
      end
  | EmptyString => acc
  end.

(** [atol] of a string of digits. The value is not bounded here: what the C
    function returns for a number beyond [LONG_MAX] is outside the model. *)
Definition atol (s : string) : N := atol_from 0 s.

(** Index of the first [=] at or after [i], or the length of the string. *)
Fixpoint find_equals (i : nat) (s : string) : nat :=
  match s with
  | String c s' => if bool_decide (c = "="%char) then i else find_equals (S i) s'
  | EmptyString => i
  end.

(** ** libcurl, as far as fetch.c can observe it *)

(** The options whose value decides which fetch a callback or a message is
    for, or that fetch.c sets again when it reuses a handle. The others
    (timeouts, proxy, credentials, POST data, cookies) only reach the
    network. *)
Inductive CURLoption :=
| CURLOPT_URL (v : string)
| CURLOPT_PRIVATE (v : addr)
| CURLOPT_ERRORBUFFER (v : addr)
| CURLOPT_WRITEDATA (v : addr)
| CURLOPT_WRITEHEADER (v : addr)
| CURLOPT_REFERER (v : option string)
| CURLOPT_HTTPHEADER (v : option (list string)).

Definition fresh_easy : easy :=
  {| opt_url := ""; opt_private := None; opt_errorbuffer := None;
     opt_writedata := None; opt_writeheader := None; opt_referer := None;
     opt_httpheader := None; info_http_code := 0; info_content_type := None |}.

Definition apply_option (o : CURLoption) (e : easy) : easy :=
  {| opt_url := match o with CURLOPT_URL v => v | _ => opt_url e end;
     opt_private := match o with CURLOPT_PRIVATE v => Some v | _ => opt_private e end;
     opt_errorbuffer :=
       match o with CURLOPT_ERRORBUFFER v => Some v | _ => opt_errorbuffer e end;
     opt_writedata :=
       match o with CURLOPT_WRITEDATA v => Some v | _ => opt_writedata e end;
     opt_writeheader :=
       match o with CURLOPT_WRITEHEADER v => Some v | _ => opt_writeheader e end;
     opt_referer := match o with CURLOPT_REFERER v => v | _ => opt_referer e end;
     opt_httpheader :=
       match o with CURLOPT_HTTPHEADER v => v | _ => opt_httpheader e end;
     info_http_code := info_http_code e;
     info_content_type := info_content_type e |}.

Definition set_info (http_code : Z) (content_type : option string) (e : easy) : easy :=
  {| opt_url := opt_url e; opt_private := opt_private e;
     opt_errorbuffer := opt_errorbuffer e; opt_writedata := opt_writedata e;
     opt_writeheader := opt_writeheader e; opt_referer := opt_referer e;
     opt_httpheader := opt_httpheader e;
     info_http_code := http_code; info_content_type := content_type |}.

Section Engine.
Context `{World}.

Definition curl_easy_init : M handle := λ s,
  let c := engine s in
  let h := next_handle c in
  Ok (h, with_engine {| easies := <[h := fresh_easy]> (easies c);
                        multi := multi c; write_failed := write_failed c;
                        next_handle := S h |} s).

(** [code = curl_easy_setopt(h, o); assert(code == CURLE_OK);] *)
Definition curl_easy_setopt (h : handle) (o : CURLoption) : M unit := λ s,
  let c := engine s in
  match easies c !! h with
  | Some e => Ok (tt, with_engine (with_easies (<[h := apply_option o e]> (easies c)) c) s)
  | None => Fault AssertionFailed
  end.

(** [code = curl_easy_getinfo(h, ...); assert(code == CURLE_OK);] *)
Definition curl_easy_getinfo (h : option handle) : M easy := λ s,
  match h with
  | Some h =>
      match easies (engine s) !! h with
      | Some e => Ok (e, s)
      | None => Fault AssertionFailed
      end
  | None => Fault AssertionFailed
  end.

(** [codem = curl_multi_add_handle(curl_multi, h); assert(codem == CURLM_OK ||
    codem == CURLM_CALL_MULTI_PERFORM);] A handle enters with a new transfer. *)
Definition curl_multi_add_handle (h : handle) : M unit := λ s,
  let c := engine s in
  if bool_decide (h ∈ dom (easies c)) && negb (bool_decide (h ∈ multi c))
  then Ok (tt, with_engine (with_multi ({[h]} ∪ multi c) (write_failed c ∖ {[h]}) c) s)
  else Fault AssertionFailed.

(** [codem = curl_multi_remove_handle(curl_multi, h); assert(codem == CURLM_OK);] *)
Definition curl_multi_remove_handle (h : handle) : M unit := λ s,
  let c := engine s in
  if bool_decide (h ∈ multi c)
  then Ok (tt, with_engine (with_multi (multi c ∖ {[h]}) (write_failed c ∖ {[h]}) c) s)
  else Fault AssertionFailed.

Definition curl_easy_cleanup (h : handle) : M unit := λ s,
  let c := engine s in
  match easies c !! h with
  | Some _ => Ok (tt, with_engine (with_easies (delete h (easies c)) c) s)
  | None => Fault UseAfterFree
  end.

End Engine.

(** ** fetch.c *)

Section Fetch.
Context `{World}.

(** The block of [fetch_start] that fills the new structure (it comes zeroed
    from [xcalloc], which is where [location] and [curl_handle] get their 0). *)
Definition new_fetch (url_ : string) (referer_ : option string)
    (callback_ : callback_t) (p_ : nat) (only_2xx_ : bool) : fetch :=
  {| curl_handle := None; callback := callback_; had_headers := false;
     in_callback := false; aborting := false; only_2xx := only_2xx_;
     url := url_; referer := referer_; error_buffer := ""; p := p_;
     headers := None; host := url_host url_; location := None;
     content_length := 0; realm := None;
     queue_prev := None; queue_next := None; prev := None; next := None |}.

(** [for (host_fetch = fetch_list; host_fetch != 0 && (host_fetch->host == 0 ||
    strcasecmp(host_fetch->host, fetch->host) != 0); host_fetch =
    host_fetch->next);] The fuel bounds the number of iterations. *)
Fixpoint find_host (fuel : nat) (host_fetch : option addr) (name : string)
    : M (option addr) :=
  match host_fetch with
  | None => mret None
  | Some a =>
      match fuel with
      | O => raise Diverges
      | S fuel' =>
          hf ← deref a;
          match host hf with
          | None => find_host fuel' (next hf) name
          | Some other =>
              if (strcasecmp other name =? 0)%Z then mret (Some a)
              else find_host fuel' (next hf) name
          end
      end
  end.

(** [for (; host_fetch->queue_next; host_fetch = host_fetch->queue_next);] *)
Fixpoint queue_tail (fuel : nat) (host_fetch : addr) : M addr :=
  match fuel with
  | O => raise Diverges
  | S fuel' =>
      hf ← deref host_fetch;
      match queue_next hf with
      | Some n => queue_tail fuel' n
      | None => mret host_fetch
      end
  end.

(** The part of [fetch_start] after the host search: insert at the head of
    [fetch_list], create and configure the easy handle, add it to the multi
    handle. *)
Definition activate (fetch : addr) : M addr :=
  s ← get;
  store fetch (set_next (fetch_list s));;
  match fetch_list s with
  | Some head => store head (set_prev (Some fetch))
  | None => mret tt
  end;;
  modify (with_fetch_list (Some fetch));;
  modify (with_fetch_active true);;
  h ← curl_easy_init;
  store fetch (set_curl_handle (Some h));;
  f ← deref fetch;
  curl_easy_setopt h (CURLOPT_URL (url f));;
  curl_easy_setopt h (CURLOPT_PRIVATE fetch);;
  curl_easy_setopt h (CURLOPT_ERRORBUFFER fetch);;
  curl_easy_setopt h (CURLOPT_WRITEDATA fetch);;
  curl_easy_setopt h (CURLOPT_WRITEHEADER fetch);;
  match referer f with
  | Some r => curl_easy_setopt h (CURLOPT_REFERER (Some r))
  | None => mret tt
  end;;
  store fetch (set_headers (Some ["Accept:"; "Pragma:"]));;
  f ← deref fetch;
  curl_easy_setopt h (CURLOPT_HTTPHEADER (headers f));;
  curl_multi_add_handle h;;
  mret fetch.

Definition fetch_start (url_ : string) (referer_ : option string)
    (callback_ : callback_t) (p_ : nat) (only_2xx_ : bool) : M addr :=
  fetch ← xcalloc (new_fetch url_ referer_ callback_ p_ only_2xx_);
  f ← deref fetch;
  match host f with
  | Some name =>
      s ← get;
      host_fetch ← find_host (size (heap s)) (fetch_list s) name;
      match host_fetch with
      | Some hf =>
          (* fetch from this host in progress: queue the new fetch *)
          store fetch (set_curl_handle None);;
          tail ← queue_tail (size (heap s)) hf;
          store fetch (set_queue_prev (Some tail));;
          store tail (set_queue_next (Some fetch));;
          mret fetch
      | None => activate fetch
      end
  | None => activate fetch
  end.

(** The first branch of [fetch_abort]'s [if (f->curl_handle && f->queue_next)]:
    start the queued fetch on [f]'s handle. *)
Definition start_queued (h : handle) (fetch : addr) : M unit :=
  store fetch (set_prev None);;
  s ← get;
  store fetch (set_next (fetch_list s));;
  match fetch_list s with
  | Some head => store head (set_prev (Some fetch))
  | None => mret tt
  end;;
  modify (with_fetch_list (Some fetch));;
  store fetch (set_queue_prev None);;
  store fetch (set_curl_handle (Some h));;
  g ← deref fetch;
  curl_easy_setopt h (CURLOPT_URL (url g));;
  curl_easy_setopt h (CURLOPT_PRIVATE fetch);;
  curl_easy_setopt h (CURLOPT_ERRORBUFFER fetch);;
  curl_easy_setopt h (CURLOPT_WRITEDATA fetch);;
  curl_easy_setopt h (CURLOPT_WRITEHEADER fetch);;
  curl_easy_setopt h (CURLOPT_REFERER (referer g));;
  curl_multi_add_handle h.

(** The [else] branch: give the handle back and splice [f] out of its queue. *)
Definition release (f : addr) : M unit :=
  fr ← deref f;
  match curl_handle fr with
  | Some h => curl_easy_cleanup h
  | None => mret tt
  end;;
  fr ← deref f;
  match queue_prev fr with
  | Some qp => store qp (set_queue_next (queue_next fr))
  | None => mret tt
  end;;
  fr ← deref f;
  match queue_next fr with
  | Some qn => store qn (set_queue_prev (queue_prev fr))
  | None => mret tt
  end.

(** [fetch_abort]'s "remove from list of fetches". *)
Definition unlink (f : addr) : M unit :=
  fr ← deref f;
  match prev fr with
  | None => modify (with_fetch_list (next fr))
  | Some before => store before (set_next (next fr))
  end;;
  fr ← deref f;
  match next fr with
  | Some after => store after (set_prev (prev fr))
  | None => mret tt
  end.

Definition fetch_abort (f : addr) : M unit :=
  fr ← deref f;
  if in_callback fr then
    (* in callback: will abort later *)
    store f (set_aborting true)
  else
    unlink f;;
    (* remove from curl multi handle *)
    fr ← deref f;
    match curl_handle fr with
    | Some h => curl_multi_remove_handle h
    | None => mret tt
    end;;
    fr ← deref f;
    match curl_handle fr, queue_next fr with
    | Some h, Some fetch => start_queued h fetch
    | _, _ => release f
    end;;
    xfree f.

(** A callback runs: the calls it makes are executed in order. *)
Fixpoint run (q : prog) : M unit :=
  match q with
  | Return c => modify (with_cl c)
  | Call_fetch_abort f k => fetch_abort f;; run k
  | Call_fetch_start u r cb p_ o k => a ← fetch_start u r cb p_ o; run (k a)
  end.

(** [cb(m, p, data, size)] on behalf of fetch [f]. *)
Definition call (cb : callback_t) (f : addr) (m : fetch_msg) (p_ : nat)
    (data : payload) (size_ : N) : M unit :=
  modify (λ s, with_trace (trace s ++ [{| ev_fetch := f; ev_msg := m; ev_p := p_;
                                          ev_data := data; ev_size := size_ |}]) s);;
  s ← get;
  run (cb (cl s) m p_ data size_).

(** [f->callback(m, f->p, data, size)]. *)
Definition call_own (f : addr) (m : fetch_msg) (data : payload) (size_ : N) : M unit :=
  fr ← deref f;
  call (callback fr) f m (p fr) data size_.

(** The content type when the engine reports none. *)
Definition guess_type (url_ : string) : string :=
  if (strncmp url_ "file:///" 8 =? 0)%Z then
    fetch_filetype (curl_unescape (drop_string 8 url_))
  else if (strncmp url_ "file:/" 6 =? 0)%Z then
    fetch_filetype (curl_unescape (drop_string 6 url_))
  else "text/html".

(** Returns true if the fetch is being aborted. *)
Definition fetch_process_headers (f : addr) : M bool :=
  store f (set_had_headers true);;
  fr ← deref f;
  e ← curl_easy_getinfo (curl_handle fr);
  let http_code := info_http_code e in
  match location fr with
  | Some loc =>
      if (300 <=? http_code)%Z && (http_code <? 400)%Z then
        (* handle HTTP redirects (3xx response codes) *)
        store f (set_location (Some (curl_unescape loc)));;
        fr ← deref f;
        call_own f FETCH_REDIRECT
          (match location fr with Some l => PLocation l | None => PNull end) 0;;
        mret (Some true)
      else mret None
  | None => mret None
  end ≫= λ redirected,
  match redirected with
  | Some r => mret r
  | None =>
      if WITH_AUTH && (http_code =? 401)%Z then
        (* handle HTTP 401 (Authentication errors) *)
        fr ← deref f;
        call_own f FETCH_AUTH (PRealm (realm fr)) 0;;
        mret true
      else
        fr ← deref f;
        if only_2xx fr && (strncmp (url fr) "http" 4 =? 0)%Z &&
           ((http_code <? 200)%Z || (299 <? http_code)%Z) then
          (* handle HTTP errors (non 2xx response codes) *)
          call_own f FETCH_ERROR (PMessage (messages_get "Not2xx")) 0;;
          mret true
        else
          (* find MIME type from headers or filetype for local files *)
          fr ← deref f;
          e ← curl_easy_getinfo (curl_handle fr);
          let type :=
            match info_content_type e with
            | Some t => t
            | None => guess_type (url fr)
            end in
          call_own f FETCH_TYPE (PMime type) (content_length fr);;
          fr ← deref f;
          mret (aborting fr)
  end.

(** Callback function for cURL: the value returned is the number of bytes
    taken. *)
Definition fetch_curl_data (data : string) (f : addr) : M nat :=
  store f (set_in_callback true);;
  fr ← deref f;
  (if had_headers fr then mret false else fetch_process_headers f) ≫= λ rejected,
  if (rejected : bool) then
    store f (set_in_callback false);;
    mret 0
  else
    (* send data to the caller *)
    call_own f FETCH_DATA (PChunk data) (N.of_nat (String.length data));;
    store f (set_in_callback false);;
    mret (String.length data).

(** Callback function for headers. [data] is the whole header line; it is
    taken to hold no zero byte, at which [strncpy], [strlen] and [atol]
    would stop, and to be followed by one, so that only the loops of the
    function itself can leave the line. *)
Definition fetch_curl_header (data : string) (f : addr) : M nat :=
  let size_ := String.length data in
  if (12 <? size_)%nat && (strncasecmp data "Location:" 9 =? 0)%Z then
    (* extract Location header *)
    match cut_trailing (skip_blanks (drop_string 9 data)) with
    | Some value => store f (set_location (Some value));; mret size_
    | None => raise OutOfBounds
    end
  else if (15 <? size_)%nat && (strncasecmp data "Content-Length:" 15 =? 0)%Z then
    (* extract Content-Length header *)
    let rest := skip_blanks (drop_string 15 data) in
    match rest with
    | String c _ =>
        match digit c with
        | Some _ => store f (set_content_length (atol rest));; mret size_
        | None => mret size_
        end
    | EmptyString => raise OutOfBounds
    end
  else if WITH_AUTH && (16 <? size_)%nat &&
          (strncasecmp data "WWW-Authenticate" 16 =? 0)%Z then
    (* extract Realm from WWW-Authenticate header *)
    let i := find_equals 16 (drop_string 16 data) in
    if (i + 5 <=? size_)%nat then
      store f (set_realm
                 (Some (String.substring (i + 2) (size_ - i - 5) data)));;
      mret size_
    else raise OutOfBounds
  else mret size_.

(** One step of [curl_multi_perform]: the engine acts on a handle that is
    added to the multi handle and whose transfer it has not given up. *)
Definition perform (t : transfer) : M unit :=
  s ← get;
  let c := engine s in
  let live (h : handle) :=
    bool_decide (h ∈ multi c) && negb (bool_decide (h ∈ write_failed c)) in
  match t with
  | Response h http_code content_type =>
      match easies c !! h with
      | Some e =>
          if live h then
            modify (with_engine
              (with_easies (<[h := set_info http_code content_type e]> (easies c)) c))
          else mret tt
      | None => mret tt
      end
  | HeaderLine h line =>
      match easies c !! h with
      | Some e =>
          match opt_writeheader e with
          | Some f => if live h then fetch_curl_header line f;; mret tt else mret tt
          | None => mret tt
          end
      | None => mret tt
      end
  | BodyChunk h data =>
      match easies c !! h with
      | Some e =>
          match opt_writedata e with
          | Some f =>
              if live h then
                taken ← fetch_curl_data data f;
                if bool_decide (taken = String.length data) then mret tt
                else modify (λ s, with_engine
                       (with_write_failed ({[h]} ∪ write_failed (engine s)) (engine s)) s)
              else mret tt
          | None => mret tt
          end
      | None => mret tt
      end
  end.

(** [fetch_poll], case [CURLMSG_DONE], first part: inform the caller that
    the fetch is done. The value is the local [finished]. *)
Definition resolve_done (result_ : Z) (callback_ : callback_t) (f : addr) : M bool :=
  if (result_ =? CURLE_OK)%Z then
    (* fetch completed normally *)
    fr ← deref f;
    if had_headers fr then mret true
    else rejected ← fetch_process_headers f; mret (negb rejected)
  else if negb (result_ =? CURLE_WRITE_ERROR)%Z then
    (* CURLE_WRITE_ERROR occurs when fetch_curl_data returns 0, which we use
       to abort intentionally *)
    fr ← deref f;
    call callback_ f FETCH_ERROR (p fr) (PErrorBuffer (error_buffer fr)) 0;;
    mret false
  else mret false.

(** [fetch_poll], case [CURLMSG_DONE], for the fetch [f] found through
    [CURLINFO_PRIVATE]. *)
Definition finish (result_ : Z) (f : addr) : M unit :=
  fr ← deref f;
  let callback_ := callback fr in
  let p_ := p fr in
  finished ← resolve_done result_ callback_ f;
  (* clean up fetch *)
  fetch_abort f;;
  (* postponed until after abort so that queue fetches are started *)
  if (finished : bool) then call callback_ f FETCH_FINISHED p_ PNull 0
  else mret tt.

(** The result the engine reports for handle [h]: a write callback that
    returned short ends the transfer with [CURLE_WRITE_ERROR]. *)
Definition reported (c : curl) (m : CURLMsg) : Z :=
  if bool_decide (easy_handle m ∈ write_failed c) then CURLE_WRITE_ERROR
  else result m.

(** The body of [fetch_poll]'s loop over [curl_multi_info_read], for one
    message. A failure leaves its text in the error buffer. *)
Definition process_msg (m : CURLMsg) : M unit :=
  s ← get;
  let c := engine s in
  let h := easy_handle m in
  if negb (bool_decide (h ∈ multi c)) then mret tt
  else
    match msg m with
    | CURLMSG_DONE =>
        e ← curl_easy_getinfo (Some h);
        match opt_errorbuffer e with
        | Some b =>
            if (reported c m =? CURLE_OK)%Z then mret tt
            else store b (set_error_buffer (diagnostic m))
        | None => mret tt
        end;;
        (* find the structure associated with this fetch *)
        match opt_private e with
        | Some f => finish (reported c m) f
        | None => raise AssertionFailed
        end
    | CURLMSG_NONE => raise AssertionFailed
    end.

Fixpoint for_each {A} (body : A → M unit) (l : list A) : M unit :=
  match l with
  | [] => mret tt
  | x :: l' => body x;; for_each body l'
  end.

(** [fetch_poll], given what the engine does and reports during the call. *)
Definition fetch_poll (work : list transfer) (msgs : list CURLMsg) : M unit :=
  (* do any possible work on the current fetches *)
  for_each perform work;;
  (* process curl results *)
  for_each process_msg msgs;;
  s ← get;
  match fetch_list s with
  | None => modify (with_fetch_active false)
  | Some _ => mret tt
  end.

(** [fetch_init]: no fetch, an engine with no handle. *)
Definition fetch_init (c : client) : sched :=
  {| heap := ∅; next_addr := 1; fetch_list := None; fetch_active := false;
     engine := {| easies := ∅; multi := ∅; write_failed := ∅; next_handle := 1 |};
     cl := c; trace := [] |}.

End Fetch.

(** ** A concrete world, for running the code on examples *)

Fixpoint starts_with (pre s : string) : bool :=
  match pre, s with
  | EmptyString, _ => true
  | String a pre', String b s' => Ascii.eqb a b && starts_with pre' s'
  | String _ _, EmptyString => false
  end.

(** The text between [://] and the next [/], if there is any. *)
Fixpoint after_scheme (s : string) : option string :=
  match s with
  | String _ s' =>
      if starts_with "://" s then Some (drop_string 3 s) else after_scheme s'
  | EmptyString => None
  end.

Fixpoint upto_slash (s : string) : string :=
  match s with
  | String c s' => if Ascii.eqb c "/" then EmptyString else String c (upto_slash s')
  | EmptyString => EmptyString
  end.

Definition simple_url_host (u : string) : option string :=
  match after_scheme u with
  | Some rest =>
      match upto_slash rest with
      | EmptyString => None
      | h => Some h
      end
  | None => None
  end.

(** Where [c] stands in [digits]. *)
Fixpoint index_in (c : ascii) (digits : string) : option nat :=
  match digits with
  | String d digits' =>
      if Ascii.eqb c d then Some 0 else S <$> index_in c digits'
  | EmptyString => None
  end.

Definition hex_digit (c : ascii) : option nat :=
  match index_in c "0123456789abcdef" with
  | Some n => Some n
  | None => (λ n, 10 + n) <$> index_in c "ABCDEF"
  end.

Fixpoint percent_decode (s : string) : string :=
  match s with
  | String c s' =>
      if Ascii.eqb c "%" then
        match s' with
        | String a (String b rest) =>
            match hex_digit a, hex_digit b with
            | Some x, Some y => String (ascii_of_nat (16 * x + y)) (percent_decode rest)
            | _, _ => String c (percent_decode s')
            end
        | _ => String c (percent_decode s')
        end
      else String c (percent_decode s')
  | EmptyString => EmptyString
  end.

Definition simple_world : World :=
  {| client := unit;
     url_host := simple_url_host;
     curl_unescape := percent_decode;
     messages_get := λ key, key;
     fetch_filetype := λ _, "application/octet-stream";
     WITH_AUTH := true |}.

(** * Describing states *)

Local Open Scope nat_scope.
Local Open Scope list_scope.

Section Describe.
Context `{World}.

(** [steps R m]: whenever [m] completes, the states before and after are
    related by [R]. For a preorder [R] this passes through sequencing. *)
Definition steps (R : relation sched) {A} (m : M A) : Prop :=
  ∀ s a s', m s = Ok (a, s') → R s s'.

Definition same_active : relation sched :=
  λ s s', fetch_active s' = fetch_active s.

Definition active_stays : relation sched :=
  λ s s', fetch_active s = true → fetch_active s' = true.


(** ** Fields seen through the heap *)

(** [a->proj], or [None] when [a] is not allocated. *)
Definition fld {T} (proj : fetch → option T) (m : gmap addr fetch) (a : addr)
    : option T :=
  m !! a ≫= proj.

(** [if (a) a->field = v]. *)
Definition wr (a : option addr) (g : fetch → fetch) (m : gmap addr fetch)
    : gmap addr fetch :=
  match a with Some a => alter g a m | None => m end.

(** A doubly linked structure: [b] follows [a] exactly when [a] precedes [b]. *)
Definition consistent (N P : fetch → option addr) (m : gmap addr fetch) : Prop :=
  ∀ a b, fld N m a = Some b ↔ fld P m b = Some a.

(** The two assignments that take [fr] out of a doubly linked structure. *)
Definition splice (N P : fetch → option addr)
    (setN setP : option addr → fetch → fetch) (fr : fetch)
    (m : gmap addr fetch) : gmap addr fetch :=
  wr (N fr) (setP (P fr)) (wr (P fr) (setN (N fr)) m).

Definition spliceL := splice next prev set_next set_prev.
Definition spliceQ := splice queue_next queue_prev set_queue_next set_queue_prev.

Definition unlink_list (fr : fetch) (fl : option addr) : option addr :=
  match prev fr with None => next fr | Some _ => fl end.

(** The heap after [start_queued]. *)
Definition promoted (g : addr) (h : handle) (fl : option addr)
    (m : gmap addr fetch) : gmap addr fetch :=
  alter (set_curl_handle (Some h)) g
    (alter (set_queue_prev None) g
       (wr fl (set_prev (Some g))
          (alter (set_next fl) g (alter (set_prev None) g m)))).

(** The options [start_queued] sets again on a reused handle. *)
Definition retarget (fetch : addr) (url_ : string) (referer_ : option string)
    (e : easy) : easy :=
  apply_option (CURLOPT_REFERER referer_)
    (apply_option (CURLOPT_WRITEHEADER fetch)
       (apply_option (CURLOPT_WRITEDATA fetch)
          (apply_option (CURLOPT_ERRORBUFFER fetch)
             (apply_option (CURLOPT_PRIVATE fetch)
                (apply_option (CURLOPT_URL url_) e))))).

(** The heap after [activate], and the options it sets on the new handle. *)
Definition activated (n : addr) (h : handle) (fl : option addr)
    (m : gmap addr fetch) : gmap addr fetch :=
  alter (set_headers (Some ["Accept:"; "Pragma:"])) n
    (alter (set_curl_handle (Some h)) n
       (wr fl (set_prev (Some n)) (alter (set_next fl) n m))).

Definition configured (fetch : addr) (url_ : string) (referer_ : option string)
    : easy :=
  apply_option (CURLOPT_HTTPHEADER (Some ["Accept:"; "Pragma:"]))
    (match referer_ with
     | Some r => apply_option (CURLOPT_REFERER (Some r))
     | None => id
     end
       (apply_option (CURLOPT_WRITEHEADER fetch)
          (apply_option (CURLOPT_WRITEDATA fetch)
             (apply_option (CURLOPT_ERRORBUFFER fetch)
                (apply_option (CURLOPT_PRIVATE fetch)
                   (apply_option (CURLOPT_URL url_) fresh_easy)))))).

(** The heap after the new fetch [n] is queued behind [t]. *)
Definition enqueued (n t : addr) (m : gmap addr fetch) : gmap addr fetch :=
  alter (set_queue_next (Some n)) t
    (alter (set_queue_prev (Some t)) n (alter (set_curl_handle None) n m)).

(** The engine after [curl_easy_cleanup] of [h], if any. *)
Definition released (h : option handle) (c : curl) : curl :=
  match h with
  | Some h => with_easies (delete h (easies c)) c
  | None => c
  end.

Definition eopt {T} (proj : easy → option T) (c : curl) (h : handle) : option T :=
  easies c !! h ≫= proj.

(** ** The invariant of the header comment, and what it needs to be kept *)

(** The host queues: doubly linked, and
    [queue_prev == 0 <=> curl_handle != 0]. *)
Record queue_ok (m : gmap addr fetch) : Prop := {
  q_links : consistent queue_next queue_prev m;
  q_I1 : ∀ a, is_Some (m !! a) →
           (fld queue_prev m a = None ↔ is_Some (fld curl_handle m a));
}.

(** [fetch_list]: doubly linked, entered at a fetch with no predecessor, and
    made of fetches that hold a handle. *)
Record list_ok (m : gmap addr fetch) (fl : option addr) : Prop := {
  l_links : consistent next prev m;
  l_head : ∀ a, fl = Some a →
             is_Some (fld curl_handle m a) ∧ fld prev m a = None;
  l_queued : ∀ a, fld curl_handle m a = None →
               fld prev m a = None ∧ fld next m a = None;
}.

(** Handles and fetches: a fetch's handle is added to the multi handle and
    points back at the fetch; a handle in the multi handle belongs to a
    fetch. *)
Record engine_ok (m : gmap addr fetch) (c : curl) : Prop := {
  e_owner : ∀ a h, fld curl_handle m a = Some h →
              h ∈ multi c ∧ eopt opt_private c h = Some a ∧
              eopt opt_writedata c h = Some a ∧
              eopt opt_writeheader c h = Some a ∧
              eopt opt_errorbuffer c h = Some a;
  e_multi : ∀ h, h ∈ multi c →
              ∃ a, eopt opt_private c h = Some a ∧ fld curl_handle m a = Some h;
  e_fresh : ∀ h, is_Some (easies c !! h) → h < next_handle c;
}.

Record wf (s : sched) : Prop := {
  wf_fresh : ∀ a, is_Some (heap s !! a) → a < next_addr s;
  wf_queue : queue_ok (heap s);
  wf_list : list_ok (heap s) (fetch_list s);
  wf_engine : engine_ok (heap s) (engine s);
}.

(** What [wf] looks at. *)
Definition links_of (x : fetch) :=
  (curl_handle x, queue_prev x, queue_next x, prev x, next x).

Definition opts_of (e : easy) :=
  (opt_private e, opt_writedata e, opt_writeheader e, opt_errorbuffer e).

Record same_links (s s' : sched) : Prop := {
  sl_heap : ∀ a, links_of <$> (heap s' !! a) = links_of <$> (heap s !! a);
  sl_list : fetch_list s' = fetch_list s;
  sl_next : next_addr s' = next_addr s;
  sl_easies : ∀ h, opts_of <$> (easies (engine s') !! h)
                   = opts_of <$> (easies (engine s) !! h);
  sl_multi : multi (engine s') = multi (engine s);
  sl_nexth : next_handle (engine s') = next_handle (engine s);
}.

(** How many fetches precede [a] in a structure linked back through [P]. *)
Inductive depth (P : fetch → option addr) (m : gmap addr fetch)
    : addr → nat → Prop :=
| depth_first a x : m !! a = Some x → P x = None → depth P m a 0
| depth_next a x b d :
    m !! a = Some x → P x = Some b → depth P m b d → depth P m a (S d).

(** The states the client can observe: between two calls. [fair] says what
    the engine may do during [fetch_poll]. *)
Inductive reachable_with (fair : list transfer → Prop) : sched → Prop :=
| reach_init c : reachable_with fair (fetch_init c)
| reach_start s u r cb q o a s' :
    reachable_with fair s → fetch_start u r cb q o s = Ok (a, s') →
    reachable_with fair s'
| reach_abort s f s' :
    reachable_with fair s → fetch_abort f s = Ok (tt, s') → reachable_with fair s'
| reach_poll s work msgs s' :
    reachable_with fair s → fair work → fetch_poll work msgs s = Ok (tt, s') →
    reachable_with fair s'
| reach_client s c : reachable_with fair s → reachable_with fair (with_cl c s).

Definition reachable : sched → Prop := reachable_with (λ _, True).

(** ** What the rest of fetch.c does to a fetch and tells the caller *)

(** The assignments outside [fetch_start] and [fetch_abort]. *)
Inductive neutral : (fetch → fetch) → Prop :=
| n_had_headers : neutral (set_had_headers true)
| n_leave : neutral (set_in_callback false)
| n_location l : neutral (set_location l)
| n_content_length n : neutral (set_content_length n)
| n_realm r : neutral (set_realm r)
| n_error_buffer t : neutral (set_error_buffer t).

(** The messages of [fetch_process_headers]. *)
Inductive from_headers : fetch_msg → payload → Prop :=
| h_redirect l : from_headers FETCH_REDIRECT (PLocation l)
| h_redirect0 : from_headers FETCH_REDIRECT PNull
| h_auth r : from_headers FETCH_AUTH (PRealm r)
| h_not2xx t : from_headers FETCH_ERROR (PMessage t)
| h_type t : from_headers FETCH_TYPE (PMime t).

(** The messages of [fetch_poll] itself. *)
Inductive from_poll : fetch_msg → payload → Prop :=
| p_error t : from_poll FETCH_ERROR (PErrorBuffer t)
| p_finished : from_poll FETCH_FINISHED PNull.

(** [a]'s callback is on the call stack, as far as the flag knows. *)
Definition busy (s : sched) (a : addr) : Prop :=
  ∃ x, heap s !! a = Some x ∧ in_callback x = true.

Definition quiet (s : sched) : Prop := ∀ a, ¬ busy s a.

(** No fetch becomes busy. *)
Definition calm : relation sched := λ s s', ∀ a, busy s' a → busy s a.

(** The caller is told nothing, or only messages in [P]. *)
Definition same_trace : relation sched := λ s s', trace s' = trace s.

Definition emits (P : event → Prop) : relation sched :=
  λ s s', ∃ l : list event, trace s' = trace s ++ l ∧ Forall P l.

Definition events_of (a : addr) (l : list event) : list event :=
  filter (λ e, ev_fetch e = a) l.

(** What of a fetch is not a link. *)
Definition data_of (x : fetch) :=
  (callback x, had_headers x, in_callback x, only_2xx x, url x, referer x,
   error_buffer x, p x, host x, location x, content_length x, realm x).

(** New fetches appear as [fetch_start] makes them; the others keep their
    data. *)
Definition grows : relation sched := λ s s',
  next_addr s ≤ next_addr s' ∧
  ∀ a y, heap s' !! a = Some y →
    (∃ x, heap s !! a = Some x ∧ data_of y = data_of x) ∨
    (next_addr s ≤ a < next_addr s' ∧
     ∃ u r cb q o, data_of y = data_of (new_fetch u r cb q o)).

(** [b] is found from [a] by following [N]. *)
Inductive chain (N : fetch → option addr) (m : gmap addr fetch)
    : addr → addr → Prop :=
| chain_here a : is_Some (m !! a) → chain N m a a
| chain_step a b c : fld N m a = Some b → chain N m b c → chain N m a c.

(** [a] is in [fetch_list]. *)
Definition listed (s : sched) (a : addr) : Prop :=
  ∃ head, fetch_list s = Some head ∧ chain next (heap s) head a.

(** [a]'s host is [name], up to case. *)
Definition same_host (m : gmap addr fetch) (name : string) (a : addr) : Prop :=
  ∃ other, fld host m a = Some other ∧ strcasecmp other name = 0%Z.

(** [b] is the first fetch with [P] that is found from [a] by following
    [N]. *)
Inductive first_from (N : fetch → option addr) (m : gmap addr fetch)
    (P : addr → Prop) : addr → addr → Prop :=
| first_here a : is_Some (m !! a) → P a → first_from N m P a a
| first_step a b c :
    ¬ P a → fld N m a = Some b → first_from N m P b c → first_from N m P a c.

(** [a] is the first fetch of [fetch_list] whose host is [name]. *)
Definition first_listed (s : sched) (name : string) (a : addr) : Prop :=
  ∃ head, fetch_list s = Some head ∧
    first_from next (heap s) (same_host (heap s) name) head a.

(** [FETCH_ERROR] with the text of the error buffer. *)
Definition engine_error (e : event) : Prop :=
  ev_msg e = FETCH_ERROR ∧ ∃ t, ev_data e = PErrorBuffer t.

(** What [fetch_process_headers] decides for a fetch [fr] whose handle is
    [e]: the fetch as it is then, and the one message for the caller. *)
Definition resolved_rest (fr : fetch) (e : easy) : fetch_msg * payload * N :=
  let http_code := info_http_code e in
  if WITH_AUTH && (http_code =? 401)%Z then
    (FETCH_AUTH, PRealm (realm fr), 0%N)
  else if only_2xx fr && (strncmp (url fr) "http" 4 =? 0)%Z &&
          ((http_code <? 200)%Z || (299 <? http_code)%Z) then
    (FETCH_ERROR, PMessage (messages_get "Not2xx"), 0%N)
  else
    (FETCH_TYPE,
     PMime (match info_content_type e with
            | Some t => t
            | None => guess_type (url fr)
            end),
     content_length fr).

Definition resolved (fr : fetch) (e : easy) : fetch * (fetch_msg * payload * N) :=
  let http_code := info_http_code e in
  let fr1 := set_had_headers true fr in
  match location fr with
  | Some loc =>
      if (300 <=? http_code)%Z && (http_code <? 400)%Z then
        (set_location (Some (curl_unescape loc)) fr1,
         (FETCH_REDIRECT, PLocation (curl_unescape loc), 0%N))
      else (fr1, resolved_rest fr e)
  | None => (fr1, resolved_rest fr e)
  end.

(** ** What the trace of a fetch looks like *)

(** [X] is the fetch whose completion or whose data [fetch.c] is handling,
    if any. The trace has nothing for a block not handed out yet, nor for a
    fetch whose headers were not looked at; a [FETCH_REDIRECT] is all its
    fetch was ever told, says where to go in decoded form, and the engine has
    given up the transfer of such a fetch. *)
Record tr_ok (X : option addr) (s : sched) : Prop := {
  t_fresh : ∀ a, next_addr s ≤ a → events_of a (trace s) = [];
  t_headers : ∀ a x, heap s !! a = Some x → had_headers x = false →
                X ≠ Some a → events_of a (trace s) = [];
  t_redirect : ∀ a e, e ∈ events_of a (trace s) → ev_msg e = FETCH_REDIRECT →
                 events_of a (trace s) = [e];
  t_given_up : ∀ a e x, e ∈ events_of a (trace s) → ev_msg e = FETCH_REDIRECT →
                 heap s !! a = Some x → X ≠ Some a →
                 ∃ h, curl_handle x = Some h ∧ h ∈ write_failed (engine s);
  t_decoded : ∀ e, e ∈ trace s → ev_msg e = FETCH_REDIRECT →
                ∃ loc, ev_data e = PLocation (curl_unescape loc);
}.

(** [wf] and [tr_ok X] are kept. *)
Definition tr_keep (X : option addr) : relation sched :=
  λ s s', wf s ∧ tr_ok X s → wf s' ∧ tr_ok X s'.

(** The fetch [f], once handed out, is not handed out again and keeps its
    handle. *)
Definition stays (f : addr) : relation sched := λ s s',
  wf s ∧ f < next_addr s →
  (wf s' ∧ f < next_addr s') ∧
  ∀ y, heap s' !! f = Some y →
    ∃ x, heap s !! f = Some x ∧ (is_Some (curl_handle x) → curl_handle y = curl_handle x).

(** The engine passes no empty chunk to the data callback. *)
Definition no_empty_chunk (work : list transfer) : Prop :=
  ∀ h, BodyChunk h "" ∉ work.

(** [m] does not fault from [s]. *)
Definition safe {A} (m : M A) (s : sched) : Prop := ∃ a s', m s = Ok (a, s').

(** Every character of [s] passes [test]. *)
Fixpoint all_chars (test : ascii → bool) (s : string) : bool :=
  match s with
  | String c s' => test c && all_chars test s'
  | EmptyString => true
  end.

(** [s] has a last character, and it is no white space. *)
Fixpoint ends_in_text (s : string) : bool :=
  match s with
  | String c EmptyString => negb (is_space c)
  | String _ s' => ends_in_text s'
  | EmptyString => false
  end.

(** [fetch_curl_header] only writes these fields. *)
Definition header_fields_of (x y : fetch) : fetch :=
  set_location (location x) (set_content_length (content_length x)
    (set_realm (realm x) y)).

(** [wf] is kept. *)
Definition wf_keep : relation sched := λ s s', wf s → wf s'.

End Describe.

Arguments fld : simpl never.


(** * Small clients and engine scripts, for running the code *)

Section Scenario.
#[local] Existing Instance simple_world.

(** A caller that only takes note. *)
Definition cb_watch : callback_t := λ c _ _ _ _, Return c.

(** A caller that aborts fetch [a] when told of an error. *)
Definition cb_abort_on_error (a : addr) : callback_t :=
  λ c m _ _ _,
    match m with
    | FETCH_ERROR => Call_fetch_abort a (Return c)
    | _ => Return c
    end.

(** The state a statement leaves, run from [s]. *)
Definition state_after {A} (m : M A) (s : sched) : sched :=
  match m s with
  | Ok (_, s') => s'
  | Fault _ => s
  end.

(** No fetch yet. *)
Definition nothing_yet : sched := fetch_init (tt : client).

(** One fetch, transferring. *)
Definition one_fetch (cb : callback_t) : sched :=
  state_after (fetch_start "http://example.org/a" None cb 7 false) nothing_yet.

(** Two fetches from one host: 1 transfers on handle 1, 2 waits behind it. *)
Definition two_fetches (cb : callback_t) : sched :=
  state_after (fetch_start "http://EXAMPLE.org/b" None cb 8 false) (one_fetch cb).

Definition done_msg (h : handle) (res : Z) (text : string) : CURLMsg :=
  {| msg := CURLMSG_DONE; easy_handle := h; result := res; diagnostic := text |}.

(** The engine could not connect. *)
Definition refused : CURLMsg := done_msg 1 7 "Couldn't connect to server".

(** The fetch of [one_fetch cb], and the second of [two_fetches]. *)
Definition the_fetch (cb : callback_t) : fetch :=
  set_headers (Some ["Accept:"; "Pragma:"])
    (set_curl_handle (Some 1) (new_fetch "http://example.org/a" None cb 7 false)).

Definition the_waiting_fetch : fetch :=
  set_queue_prev (Some 1) (new_fetch "http://EXAMPLE.org/b" None cb_watch 8 false).

Definition crlf : string := String (ascii_of_nat 13) (String (ascii_of_nat 10) EmptyString).

(** A response that sends the one fetch elsewhere. *)
Definition moved : list transfer :=
  [ Response 1 302 None;
    HeaderLine 1 ("Location: http://example.org/%7Euser" ++ crlf);
    BodyChunk 1 "<html>moved</html>" ].

Definition redirected : sched :=
  state_after (fetch_poll moved [done_msg 1 0 EmptyString]) (one_fetch cb_watch).

Definition the_redirection : event :=
  {| ev_fetch := 1; ev_msg := FETCH_REDIRECT; ev_p := 7;
     ev_data := PLocation "http://example.org/~user"; ev_size := 0 |}.

(** The easy handle of the one fetch, as [fetch_start] sets it up. *)
Definition the_handle : easy :=
  {| opt_url := "http://example.org/a"; opt_private := Some 1;
     opt_errorbuffer := Some 1; opt_writedata := Some 1;
     opt_writeheader := Some 1; opt_referer := None;
     opt_httpheader := Some ["Accept:"; "Pragma:"];
     info_http_code := 0; info_content_type := None |}.

(** The one fetch with the status in, and with a first chunk taken. *)
Definition answered : sched :=
  state_after (fetch_poll [Response 1 200 None] []) (one_fetch cb_watch).

Definition receiving : sched :=
  state_after
    (fetch_poll [Response 1 200 (Some "text/plain"); BodyChunk 1 "hello"] [])
    (one_fetch cb_watch).

(** A fetch that takes 2xx only, and the answer 404 to it. *)
Definition the_strict_fetch : fetch :=
  set_headers (Some ["Accept:"; "Pragma:"])
    (set_curl_handle (Some 1) (new_fetch "http://example.org/a" None cb_watch 7 true)).

Definition not_found : sched :=
  state_after (fetch_poll [Response 1 404 None] [])
    (state_after (fetch_start "http://example.org/a" None cb_watch 7 true) nothing_yet).

(** The one fetch with a redirection in: status and location, no data yet. *)
Definition located : sched :=
  state_after
    (fetch_poll [Response 1 302 None; HeaderLine 1 ("Location: http://b/" ++ crlf)] [])
    (one_fetch cb_watch).

(** The same response, with an empty chunk for its data. *)
Definition moved_empty : list transfer :=
  [ Response 1 302 None;
    HeaderLine 1 ("Location: http://b/" ++ crlf);
    BodyChunk 1 EmptyString ].

End Scenario.
(** * Reasoning about the statements *)

Section Proofs.
Context `{World}.

Lemma bind_ok {A B} (m : M A) (k : A → M B) s r :
  (m ≫= k) s = Ok r ↔ ∃ a s1, m s = Ok (a, s1) ∧ k a s1 = Ok r.
Proof.
  unfold mbind, M_bind. destruct (m s) as [[a s1]|e]; split.
  - eauto.
  - intros (? & ? & [= <- <-] & ?). done.
  - done.
  - intros (? & ? & ? & ?). done.
Qed.

Lemma bind_fault {A B} (m : M A) (k : A → M B) s e :
  m s = Fault e → (m ≫= k) s = Fault e.
Proof. unfold mbind, M_bind. by intros ->. Qed.

Lemma bind_run {A B} (m : M A) (k : A → M B) s a s1 :
  m s = Ok (a, s1) → (m ≫= k) s = k a s1.
Proof. unfold mbind, M_bind. by intros ->. Qed.


Section Steps.
Context (R : relation sched) `{!PreOrder R}.

Lemma steps_bind {A B} (m : M A) (k : A → M B) :
  steps R m → (∀ a, steps R (k a)) → steps R (m ≫= k).
Proof.
  intros Hm Hk s b s' (a & s1 & H1 & H2)%bind_ok.
  etrans; [by eapply Hm | by eapply Hk].
Qed.

Lemma steps_ret {A} (a : A) : steps R (mret a).
Proof. intros s ? s' [= <- <-]. done. Qed.

Lemma steps_for_each {A} (body : A → M unit) l :
  (∀ x, steps R (body x)) → steps R (for_each body l).
Proof.
  intros Hb. induction l as [|x l IH]; simpl.
  - apply steps_ret.
  - apply steps_bind; auto.
Qed.

End Steps.

(** The primitive statements, opened up: each either faults or yields one
    explicit state. *)
Ltac open_prim Hs :=
  unfold raise, get, modify, assert, deref, store, xcalloc, xfree,
    curl_easy_init, curl_easy_setopt, curl_easy_getinfo,
    curl_multi_add_handle, curl_multi_remove_handle, curl_easy_cleanup,
    mret, M_ret in Hs;
  repeat case_match; simplify_eq.

Ltac steps_leaf fin :=
  let s := fresh "s" in
  let Hs := fresh "Hs" in
  intros s ? ? Hs; open_prim Hs; fin.

Ltac steps_go fin :=
  repeat first
    [ assumption
    | solve [ eauto 2 with steps ]
    | apply steps_bind; [ apply _ | | intros ? ]
    | apply steps_ret; apply _
    | lazymatch goal with
      | |- steps _ (if ?b then _ else _) => destruct b
      | |- steps _ (match ?x with _ => _ end) => destruct x
      end
    | solve [ steps_leaf fin ] ].


(** The two loops of [fetch_start] only read. *)

Lemma find_host_pure fuel cur name s r s' :
  find_host fuel cur name s = Ok (r, s') → s' = s.
Proof.
  revert cur s. induction fuel as [|n IH]; intros [a|] s; simpl; try by intros [=].
  intros (hf & s1 & Hd & Hk)%bind_ok.
  unfold deref in Hd. destruct (heap s !! a); simplify_eq.
  destruct (host hf); [destruct (_ =? _)%Z|]; eauto.
  by injection Hk.
Qed.

Lemma queue_tail_pure fuel a s r s' :
  queue_tail fuel a s = Ok (r, s') → s' = s.
Proof.
  revert a s. induction fuel as [|n IH]; intros a s; simpl; try by intros [=].
  intros (hf & s1 & Hd & Hk)%bind_ok.
  unfold deref in Hd. destruct (heap s !! a); simplify_eq.
  destruct (queue_next hf); eauto. by injection Hk.
Qed.

Lemma steps_find_host R `{!Reflexive R} fuel cur name :
  steps R (find_host fuel cur name).
Proof. intros s a s' ->%find_host_pure. done. Qed.

Lemma steps_queue_tail R `{!Reflexive R} fuel a : steps R (queue_tail fuel a).
Proof. intros s r s' ->%queue_tail_pure. done. Qed.


(** ** Lookups through updates *)

Lemma fld_Some {T} (proj : fetch → option T) m a v :
  fld proj m a = Some v ↔ ∃ x, m !! a = Some x ∧ proj x = Some v.
Proof.
  unfold fld. destruct (m !! a) as [x|]; simpl; split.
  - eauto.
  - by intros (? & [= <-] & ?).
  - done.
  - by intros (? & ? & ?).
Qed.

Lemma fld_lookup {T} (proj : fetch → option T) m a x :
  m !! a = Some x → fld proj m a = proj x.
Proof. unfold fld. by intros ->. Qed.

Lemma fld_const {T} (v : option T) m a w :
  fld (λ _, v) m a = Some w ↔ is_Some (m !! a) ∧ v = Some w.
Proof.
  unfold fld. destruct (m !! a) eqn:E; simpl.
  - split; [intros ->; eauto | by intros [_ ?]].
  - split; [done | intros [[? ?] ?]; done].
Qed.

Lemma fld_delete {T} (proj : fetch → option T) m f a :
  fld proj (delete f m) a = if decide (a = f) then None else fld proj m a.
Proof. unfold fld. rewrite lookup_delete. by repeat case_decide; simplify_eq. Qed.

Lemma fld_wr_other {T} (proj : fetch → option T) g o m a :
  (∀ x, proj (g x) = proj x) → fld proj (wr o g m) a = fld proj m a.
Proof.
  intros Hg. destruct o as [b|]; simpl; [|done]. unfold fld.
  rewrite lookup_alter. case_decide; [|done]. subst.
  destruct (m !! a); simpl; auto.
Qed.

Lemma fld_wr_set {T} (proj : fetch → option T) (set : option T → fetch → fetch) o v m a :
  (∀ v x, proj (set v x) = v) →
  fld proj (wr o (set v) m) a =
    if decide (o = Some a) then fld (λ _, v) m a else fld proj m a.
Proof.
  intros Hg. destruct o as [b|]; simpl; [|by try case_decide]. unfold fld.
  rewrite lookup_alter. repeat case_decide; simplify_eq; try done.
  destruct (m !! a); simpl; auto.
Qed.


Section Splice.
Variables (N P : fetch → option addr) (setN setP : option addr → fetch → fetch).
Hypotheses (NN : ∀ v x, N (setN v x) = v) (PP : ∀ v x, P (setP v x) = v)
  (NP : ∀ v x, N (setP v x) = N x) (PN : ∀ v x, P (setN v x) = P x).

Lemma fld_N_splice m f fr a :
  fld N (delete f (splice N P setN setP fr m)) a =
    if decide (a = f) then None
    else if decide (P fr = Some a) then fld (λ _, N fr) m a else fld N m a.
Proof.
  unfold splice. rewrite fld_delete, (fld_wr_other N) by auto.
  by rewrite (fld_wr_set N setN) by auto.
Qed.

Lemma fld_P_splice m f fr b :
  fld P (delete f (splice N P setN setP fr m)) b =
    if decide (b = f) then None
    else if decide (N fr = Some b) then fld (λ _, P fr) m b else fld P m b.
Proof.
  unfold splice. rewrite fld_delete, (fld_wr_set P setP) by auto.
  rewrite (fld_wr_other (λ _, P fr)) by auto.
  by rewrite (fld_wr_other P) by auto.
Qed.

Lemma splice_consistent m f fr :
  consistent N P m → m !! f = Some fr →
  consistent N P (delete f (splice N P setN setP fr m)).
Proof.
  intros Hc Hf a b. rewrite fld_N_splice, fld_P_splice.
  assert (HfN : ∀ x, N fr = Some x ↔ fld P m x = Some f).
  { intros x. rewrite <-(fld_lookup N m f fr Hf). apply Hc. }
  assert (HfP : ∀ x, P fr = Some x ↔ fld N m x = Some f).
  { intros x. rewrite <-(fld_lookup P m f fr Hf). symmetry. apply Hc. }
  assert (Hlive : ∀ (T : Type) (pr : fetch → option T) x (v : T),
            fld pr m x = Some v → is_Some (m !! x)).
  { intros T pr x v (y & -> & _)%fld_Some. eauto. }
  destruct (decide (a = f)) as [->|Haf]; simpl.
  - split; [done|]. destruct (decide (b = f)); [done|].
    destruct (decide (N fr = Some b)) as [HNb|HNb]; simpl.
    + intros [_ HPf]%fld_const. apply HfP in HPf.
      rewrite (fld_lookup N m f fr Hf) in HPf. congruence.
    + intros Hx%HfN. done.
  - destruct (decide (P fr = Some a)) as [HPa|HPa]; simpl.
    + pose proof (proj1 (HfP a) HPa) as HNa. rewrite fld_const.
      destruct (decide (b = f)) as [->|Hbf]; simpl.
      * split; [|done]. intros [_ HNf]. apply HfN in HNf.
        rewrite (fld_lookup P m f fr Hf) in HNf. congruence.
      * destruct (decide (N fr = Some b)) as [HNb|HNb]; simpl.
        -- rewrite fld_const. split; intros _; split; eauto.
           apply HfN in HNb. eauto.
        -- split; [by intros [_ ?]|]. intros Hx%Hc. congruence.
    + destruct (decide (b = f)) as [->|Hbf]; simpl.
      * split; [|done]. intros Hx%HfP. done.
      * destruct (decide (N fr = Some b)) as [HNb|HNb]; simpl.
        -- rewrite fld_const. split; [|by intros [_ ?]].
           intros Hx%Hc. apply HfN in HNb. congruence.
        -- apply Hc.
Qed.
End Splice.



Lemma deref_ok a s x s1 : deref a s = Ok (x, s1) ↔ heap s !! a = Some x ∧ s1 = s.
Proof.
  unfold deref. destruct (heap s !! a); split.
  - by intros [= <- <-].
  - by intros [[= <-] ->].
  - done.
  - by intros [? _].
Qed.

Lemma store_ok a g s u s1 :
  store a g s = Ok (u, s1) ↔
  is_Some (heap s !! a) ∧ s1 = with_heap (alter g a (heap s)) s.
Proof.
  unfold store. destruct (heap s !! a) as [x|] eqn:E.
  - assert (<[a:=g x]> (heap s) = alter g a (heap s)) as ->.
    { apply map_eq. intros b. rewrite lookup_insert, lookup_alter.
      case_decide; [subst; by rewrite E|done]. }
    destruct u. split; [intros [= <-]; eauto | by intros [_ ->]].
  - split; [done | by intros [[] _]].
Qed.

Lemma with_heap_id s : with_heap (heap s) s = s.
Proof. by destruct s. Qed.

Lemma store_opt_ok o g s u s1 :
  (match o with Some b => store b g | None => mret tt end) s = Ok (u, s1) →
  (∀ b, o = Some b → is_Some (heap s !! b)) ∧
  s1 = with_heap (wr o g (heap s)) s.
Proof.
  destruct o as [b|].
  - intros [Hl ->]%store_ok. split; [by intros ? [= <-]|done].
  - unfold mret, M_ret. intros [= <- <-]. simpl. by rewrite with_heap_id.
Qed.

Lemma lookup_wr_noop o g m f fr :
  m !! f = Some fr → g fr = fr → wr o g m !! f = Some fr.
Proof.
  intros Hf Hg. destruct o as [b|]; simpl; [|done].
  rewrite lookup_alter. case_decide; [subst; by rewrite Hf; simpl; f_equal|done].
Qed.

Lemma lookup_wr_is_Some o g m a : is_Some (wr o g m !! a) ↔ is_Some (m !! a).
Proof.
  destruct o as [b|]; simpl; [|done]. rewrite lookup_alter.
  case_decide; [subst; by rewrite fmap_is_Some|done].
Qed.



Lemma set_next_eta fr : set_next (next fr) fr = fr.
Proof. by destruct fr. Qed.
Lemma set_prev_eta fr : set_prev (prev fr) fr = fr.
Proof. by destruct fr. Qed.
Lemma set_queue_next_eta fr : set_queue_next (queue_next fr) fr = fr.
Proof. by destruct fr. Qed.
Lemma set_queue_prev_eta fr : set_queue_prev (queue_prev fr) fr = fr.
Proof. by destruct fr. Qed.

Lemma lookup_spliceL m f fr : m !! f = Some fr → spliceL fr m !! f = Some fr.
Proof.
  intros Hf. unfold spliceL, splice.
  apply lookup_wr_noop; [|apply set_prev_eta].
  apply lookup_wr_noop; [done|apply set_next_eta].
Qed.

Lemma lookup_spliceQ m f fr : m !! f = Some fr → spliceQ fr m !! f = Some fr.
Proof.
  intros Hf. unfold spliceQ, splice.
  apply lookup_wr_noop; [|apply set_queue_prev_eta].
  apply lookup_wr_noop; [done|apply set_queue_next_eta].
Qed.


Lemma with_fetch_list_id s : with_fetch_list (fetch_list s) s = s.
Proof. by destruct s. Qed.

Lemma unlink_ok f fr s u s1 :
  heap s !! f = Some fr →
  unlink f s = Ok (u, s1) →
  (∀ b, prev fr = Some b → is_Some (heap s !! b)) ∧
  (∀ b, next fr = Some b → is_Some (heap s !! b)) ∧
  s1 = with_heap (spliceL fr (heap s))
         (with_fetch_list (unlink_list fr (fetch_list s)) s).
Proof.
  intros Hf. unfold unlink.
  intros (fr0 & ? & [Hf0 ->]%deref_ok & H0)%bind_ok.
  rewrite Hf in Hf0. injection Hf0 as <-.
  apply bind_ok in H0 as (? & s0 & H1 & (fr' & ? & [Hf' ->]%deref_ok & H2)%bind_ok).
  assert ((∀ b, prev fr = Some b → is_Some (heap s !! b)) ∧
          s0 = with_heap (wr (prev fr) (set_next (next fr)) (heap s))
                 (with_fetch_list (unlink_list fr (fetch_list s)) s))
    as (Hl1 & ->).
  { unfold unlink_list. destruct (prev fr) as [b|] eqn:Ep.
    - apply store_ok in H1 as [? ->]. split; [by intros ? [= <-]|].
      by rewrite with_fetch_list_id.
    - injection H1 as <-. split; [done|]. by destruct s. }
  simpl in Hf'. rewrite (lookup_wr_noop _ _ _ _ fr Hf (set_next_eta fr)) in Hf'.
  injection Hf' as <-.
  apply store_opt_ok in H2 as [Hl2 ->]. simpl.
  split; [done|]. split; [|done].
  intros b Hb. apply Hl2 in Hb. simpl in Hb. by apply lookup_wr_is_Some in Hb.
Qed.


Lemma modify_ok g s u s1 : modify g s = Ok (u, s1) ↔ s1 = g s.
Proof. unfold modify. destruct u. split; [by intros [= <-]|by intros ->]. Qed.

Lemma get_ok s x s1 : get s = Ok (x, s1) ↔ x = s ∧ s1 = s.
Proof. unfold get. split; [by intros [= <- <-]|by intros [-> ->]]. Qed.

Lemma ret_ok {A} (a : A) s x s1 : (mret a : M A) s = Ok (x, s1) ↔ x = a ∧ s1 = s.
Proof. unfold mret, M_ret. split; [by intros [= <- <-]|by intros [-> ->]]. Qed.

Lemma xfree_ok a s u s1 :
  xfree a s = Ok (u, s1) ↔ is_Some (heap s !! a) ∧ s1 = with_heap (delete a (heap s)) s.
Proof.
  unfold xfree. destruct u, (heap s !! a); split.
  - intros [= <-]. eauto.
  - by intros [_ ->].
  - done.
  - by intros [[] _].
Qed.

Lemma remove_handle_ok h s u s1 :
  curl_multi_remove_handle h s = Ok (u, s1) ↔
  h ∈ multi (engine s) ∧
  s1 = with_engine (with_multi (multi (engine s) ∖ {[h]})
                      (write_failed (engine s) ∖ {[h]}) (engine s)) s.
Proof.
  unfold curl_multi_remove_handle. destruct u. case_bool_decide; split.
  - by intros [= <-].
  - by intros [_ ->].
  - done.
  - by intros [? _].
Qed.

Lemma add_handle_ok h s u s1 :
  curl_multi_add_handle h s = Ok (u, s1) ↔
  (is_Some (easies (engine s) !! h) ∧ h ∉ multi (engine s)) ∧
  s1 = with_engine (with_multi ({[h]} ∪ multi (engine s))
                      (write_failed (engine s) ∖ {[h]}) (engine s)) s.
Proof.
  unfold curl_multi_add_handle. destruct u.
  destruct (bool_decide_reflect (h ∈ dom (easies (engine s)))) as [Hd|Hd];
    destruct (bool_decide_reflect (h ∈ multi (engine s))) as [Hm|Hm]; simpl;
    rewrite elem_of_dom in Hd;
    (split; [ intros Heq | intros [[? ?] Heq] ]);
    try done; try (by injection Heq as <-); try (by subst).
Qed.

Lemma setopt_ok h o s u s1 :
  curl_easy_setopt h o s = Ok (u, s1) ↔
  ∃ e, easies (engine s) !! h = Some e ∧
       s1 = with_engine (with_easies (<[h := apply_option o e]> (easies (engine s)))
                           (engine s)) s.
Proof.
  unfold curl_easy_setopt. destruct u, (easies (engine s) !! h) as [e|]; split.
  - intros [= <-]. eauto.
  - by intros (? & [= <-] & ->).
  - done.
  - by intros (? & ? & _).
Qed.

Lemma cleanup_ok h s u s1 :
  curl_easy_cleanup h s = Ok (u, s1) ↔
  is_Some (easies (engine s) !! h) ∧
  s1 = with_engine (with_easies (delete h (easies (engine s))) (engine s)) s.
Proof.
  unfold curl_easy_cleanup. destruct u, (easies (engine s) !! h) as [e|]; split.
  - intros [= <-]. eauto.
  - by intros [_ ->].
  - done.
  - by intros [[] _].
Qed.

Lemma getinfo_ok h s e s1 :
  curl_easy_getinfo h s = Ok (e, s1) ↔
  ∃ h', h = Some h' ∧ easies (engine s) !! h' = Some e ∧ s1 = s.
Proof.
  unfold curl_easy_getinfo. destruct h as [h'|]; [destruct (easies _ !! h') eqn:E|]; split.
  - intros [= <- <-]. eauto.
  - intros (? & [= <-] & He & ->). by rewrite E in He; injection He as ->.
  - done.
  - intros (? & [= <-] & He & _). by rewrite E in He.
  - done.
  - by intros (? & ? & _).
Qed.



Lemma lookup_wr_proj {T} (pr : fetch → T) o g m a :
  (∀ x, pr (g x) = pr x) → pr <$> (wr o g m !! a) = pr <$> (m !! a).
Proof.
  intros Hg. destruct o as [b|]; simpl; [|done].
  rewrite lookup_alter. case_decide; [|done]. subst.
  destruct (m !! a); simpl; by f_equal.
Qed.

Lemma lookup_alter_proj {T} (pr : fetch → T) (b : addr) g (m : gmap addr fetch) a :
  (∀ x, pr (g x) = pr x) → pr <$> (alter g b m !! a) = pr <$> (m !! a).
Proof. apply (lookup_wr_proj pr (Some b)). Qed.

Lemma lookup_alter_is_Some b g (m : gmap addr fetch) a :
  is_Some (alter g b m !! a) ↔ is_Some (m !! a).
Proof. apply (lookup_wr_is_Some (Some b)). Qed.

Lemma promoted_is_Some g h fl m a :
  is_Some (promoted g h fl m !! a) ↔ is_Some (m !! a).
Proof.
  unfold promoted.
  by rewrite !lookup_alter_is_Some, lookup_wr_is_Some, !lookup_alter_is_Some.
Qed.

Lemma promoted_proj {T} (pr : fetch → T) g h fl m a :
  (∀ v x, pr (set_curl_handle v x) = pr x) →
  (∀ v x, pr (set_queue_prev v x) = pr x) →
  (∀ v x, pr (set_prev v x) = pr x) →
  (∀ v x, pr (set_next v x) = pr x) →
  pr <$> (promoted g h fl m !! a) = pr <$> (m !! a).
Proof.
  intros. unfold promoted.
  rewrite !lookup_alter_proj by done. rewrite lookup_wr_proj by done.
  by rewrite !lookup_alter_proj by done.
Qed.

Ltac nrm :=
  unfold with_heap, with_next_addr, with_fetch_list, with_fetch_active,
    with_engine, with_cl, with_trace, with_easies, with_multi,
    with_write_failed in *;
  simpl in *.

Lemma start_queued_ok h g s u s1 :
  start_queued h g s = Ok (u, s1) →
  ∃ gr e, heap s !! g = Some gr ∧ easies (engine s) !! h = Some e ∧
    (h ∉ multi (engine s)) ∧
    (∀ b, fetch_list s = Some b → is_Some (heap s !! b)) ∧
    s1 = with_engine
           (with_multi ({[h]} ∪ multi (engine s)) (write_failed (engine s) ∖ {[h]})
              (with_easies (<[h := retarget g (url gr) (referer gr) e]>
                              (easies (engine s))) (engine s)))
           (with_heap (promoted g h (fetch_list s) (heap s))
              (with_fetch_list (Some g) s)).
Proof.
  destruct s as [m na fl fa [es mu wfl nh] c tr].
  unfold start_queued.
  intros (? & ? & [[gr Hg] ->]%store_ok & H0)%bind_ok. nrm.
  apply bind_ok in H0 as (s0 & ? & [-> ->]%get_ok & H0). nrm.
  apply bind_ok in H0 as (? & ? & [_ ->]%store_ok & H0). nrm.
  apply bind_ok in H0 as (? & ? & [Hhead ->]%store_opt_ok & H0). nrm.
  apply bind_ok in H0 as (? & ? & ->%modify_ok & H0). nrm.
  apply bind_ok in H0 as (? & ? & [_ ->]%store_ok & H0). nrm.
  apply bind_ok in H0 as (? & ? & [_ ->]%store_ok & H0). nrm.
  apply bind_ok in H0 as (gr' & ? & [Hg' ->]%deref_ok & H0). nrm.
  assert (url gr' = url gr ∧ referer gr' = referer gr) as [Hu Hr].
  { change (alter (set_curl_handle (Some h)) g _) with
      (promoted g h fl m) in Hg'.
    split.
    - pose proof (promoted_proj url g h fl m g) as Hp.
      rewrite Hg', Hg in Hp. by injection Hp; auto.
    - pose proof (promoted_proj referer g h fl m g) as Hp.
      rewrite Hg', Hg in Hp. by injection Hp; auto. }
  rewrite Hu, Hr in H0. clear Hu Hr.
  apply bind_ok in H0 as (? & ? & (e & He & ->)%setopt_ok & H0). nrm.
  apply bind_ok in H0 as (? & ? & (e1 & He1 & ->)%setopt_ok & H0). nrm.
  apply bind_ok in H0 as (? & ? & (e2 & He2 & ->)%setopt_ok & H0). nrm.
  apply bind_ok in H0 as (? & ? & (e3 & He3 & ->)%setopt_ok & H0). nrm.
  apply bind_ok in H0 as (? & ? & (e4 & He4 & ->)%setopt_ok & H0). nrm.
  apply bind_ok in H0 as (? & ? & (e5 & He5 & ->)%setopt_ok & H0). nrm.
  apply add_handle_ok in H0 as [[_ Hm] ->]. nrm.
  rewrite lookup_insert_eq in He1, He2, He3, He4, He5.
  simplify_eq. rewrite !insert_insert_eq.
  exists gr, e. repeat split; try done.
  intros b Hb. apply Hhead in Hb. by rewrite !lookup_alter_is_Some in Hb.
Qed.


Lemma spliceL_proj {T} (pr : fetch → T) fr m a :
  (∀ v x, pr (set_prev v x) = pr x) →
  (∀ v x, pr (set_next v x) = pr x) →
  pr <$> (spliceL fr m !! a) = pr <$> (m !! a).
Proof.
  intros. unfold spliceL, splice. by rewrite !lookup_wr_proj by done.
Qed.

Lemma spliceQ_proj {T} (pr : fetch → T) fr m a :
  (∀ v x, pr (set_queue_prev v x) = pr x) →
  (∀ v x, pr (set_queue_next v x) = pr x) →
  pr <$> (spliceQ fr m !! a) = pr <$> (m !! a).
Proof.
  intros. unfold spliceQ, splice. by rewrite !lookup_wr_proj by done.
Qed.


Lemma release_ok f fr s u s1 :
  heap s !! f = Some fr →
  release f s = Ok (u, s1) →
  (∀ h, curl_handle fr = Some h → is_Some (easies (engine s) !! h)) ∧
  (∀ b, queue_prev fr = Some b → is_Some (heap s !! b)) ∧
  (∀ b, queue_next fr = Some b → is_Some (heap s !! b)) ∧
  s1 = with_heap (spliceQ fr (heap s))
         (with_engine (released (curl_handle fr) (engine s)) s).
Proof.
  destruct s as [m na fl fa [es mu wfl nh] c tr]. simpl.
  intros Hf. unfold release.
  intros (? & ? & [Hf0 ->]%deref_ok & H0)%bind_ok. nrm. simplify_eq.
  apply bind_ok in H0 as (? & s0 & H1 & H0).
  assert ((∀ h, curl_handle fr = Some h → is_Some (es !! h)) ∧
          s0 = {| heap := m; next_addr := na; fetch_list := fl; fetch_active := fa;
                  engine := released (curl_handle fr)
                    {| easies := es; multi := mu; write_failed := wfl;
                       next_handle := nh |};
                  cl := c; trace := tr |}) as [Hh ->].
  { destruct (curl_handle fr) as [h|].
    - apply cleanup_ok in H1 as [? ->]. split; [by intros ? [= <-]|done].
    - apply ret_ok in H1 as [_ ->]. done. }
  apply bind_ok in H0 as (? & ? & [Hf0 ->]%deref_ok & H0). nrm. simplify_eq.
  apply bind_ok in H0 as (? & ? & [Hqp ->]%store_opt_ok & H0). nrm.
  apply bind_ok in H0 as (fr' & ? & [Hf0 ->]%deref_ok & H0). nrm.
  rewrite (lookup_wr_noop _ _ _ _ fr Hf (set_queue_next_eta fr)) in Hf0.
  simplify_eq.
  apply store_opt_ok in H0 as [Hqn ->]. nrm.
  repeat split; try done.
  intros b Hb. apply Hqn in Hb. by apply lookup_wr_is_Some in Hb.
Qed.

(** What a completed [fetch_abort] has done. *)
Lemma fetch_abort_ok f s u s' :
  fetch_abort f s = Ok (u, s') →
  ∃ fr, heap s !! f = Some fr ∧
    if in_callback fr then
      s' = with_heap (alter (set_aborting true) f (heap s)) s
    else
      (∀ b, prev fr = Some b → is_Some (heap s !! b)) ∧
      (∀ b, next fr = Some b → is_Some (heap s !! b)) ∧
      (∀ h, curl_handle fr = Some h → h ∈ multi (engine s)) ∧
      let m1 := spliceL fr (heap s) in
      let fl1 := unlink_list fr (fetch_list s) in
      match curl_handle fr, queue_next fr with
      | Some h, Some g =>
          ∃ gr e, heap s !! g = Some gr ∧ easies (engine s) !! h = Some e ∧
            (∀ b, fl1 = Some b → is_Some (heap s !! b)) ∧
            s' = with_engine
                   (with_multi ({[h]} ∪ multi (engine s) ∖ {[h]})
                      (write_failed (engine s) ∖ {[h]} ∖ {[h]})
                      (with_easies (<[h := retarget g (url gr) (referer gr) e]>
                                      (easies (engine s))) (engine s)))
                   (with_heap (delete f (promoted g h fl1 m1))
                      (with_fetch_list (Some g) s))
      | oh, _ =>
          (∀ h, oh = Some h → is_Some (easies (engine s) !! h)) ∧
          (∀ b, queue_prev fr = Some b → is_Some (heap s !! b)) ∧
          (∀ b, queue_next fr = Some b → is_Some (heap s !! b)) ∧
          s' = with_heap (delete f (spliceQ fr m1))
                 (with_fetch_list fl1
                    (with_engine
                       (released oh
                          (match oh with
                           | Some h => with_multi (multi (engine s) ∖ {[h]})
                                         (write_failed (engine s) ∖ {[h]}) (engine s)
                           | None => engine s
                           end)) s))
      end.
Proof.
  unfold fetch_abort.
  intros (fr & ? & [Hf ->]%deref_ok & H0)%bind_ok.
  exists fr. split; [done|].
  destruct (in_callback fr).
  { by apply store_ok in H0 as [_ ->]. }
  apply bind_ok in H0 as (? & ? & (Hp & Hn & ->)%(unlink_ok f fr) & H0); [|done].
  split; [done|]. split; [done|].
  destruct s as [m na fl fa [es mu wfl nh] c tr]. nrm.
  pose proof (lookup_spliceL m f fr Hf) as Hf1.
  apply bind_ok in H0 as (? & ? & [Hf0 ->]%deref_ok & H0). nrm.
  rewrite Hf1 in Hf0. injection Hf0 as <-.
  apply bind_ok in H0 as (? & s0 & H1 & H0).
  apply bind_ok in H0 as (fr2 & ? & [Hf3 ->]%deref_ok & H0).
  apply bind_ok in H0 as (? & s2 & H2 & [Hf2 ->]%xfree_ok).
  destruct (curl_handle fr) as [h|] eqn:Eh.
  - apply remove_handle_ok in H1 as [Hm ->]. nrm.
    rewrite Hf1 in Hf3. injection Hf3 as <-. rewrite Eh in H2.
    split; [by intros ? [= <-]|].
    destruct (queue_next fr) as [g|] eqn:Eg.
    + apply start_queued_ok in H2 as (gr & e & Hg & He & _ & Hhd & ->). nrm.
      assert (∃ gr0, m !! g = Some gr0 ∧ url gr = url gr0 ∧ referer gr = referer gr0)
        as (gr0 & Hg0 & -> & ->).
      { pose proof (spliceL_proj url fr m g) as Hu.
        pose proof (spliceL_proj referer fr m g) as Hr.
        rewrite Hg in Hu, Hr.
        destruct (m !! g) as [gr0|]; [|by discriminate Hu].
        simpl in *. exists gr0.
        split; [done|]. split; [injection Hu|injection Hr]; auto. }
      exists gr0, e. repeat split; try done.
      intros b Hb. apply Hhd in Hb. unfold spliceL, splice in Hb.
      by rewrite !lookup_wr_is_Some in Hb.
    + apply (release_ok f fr) in H2 as (Hh & Hqp & Hqn & ->); [|done]. nrm.
      rewrite Eh in *. nrm.
      repeat split; try done.
      intros b Hb. apply Hqp in Hb. unfold spliceL, splice in Hb.
      by rewrite !lookup_wr_is_Some in Hb.
  - apply ret_ok in H1 as [_ ->]. nrm.
    rewrite Hf1 in Hf3. injection Hf3 as <-. rewrite Eh in H2.
    split; [done|].
    apply (release_ok f fr) in H2 as (Hh & Hqp & Hqn & ->); [|done]. nrm.
    rewrite Eh in *. nrm.
    repeat split; try done.
    + intros b Hb. apply Hqp in Hb. unfold spliceL, splice in Hb.
      by rewrite !lookup_wr_is_Some in Hb.
    + intros b Hb. apply Hqn in Hb. unfold spliceL, splice in Hb.
      by rewrite !lookup_wr_is_Some in Hb.
Qed.


Lemma fld_alter_other {T} (proj : fetch → option T) g (b : addr) m a :
  (∀ x, proj (g x) = proj x) → fld proj (alter g b m) a = fld proj m a.
Proof. apply (fld_wr_other proj g (Some b)). Qed.

Lemma fld_alter_set {T} (proj : fetch → option T) (set : option T → fetch → fetch)
    (b : addr) v m a :
  (∀ v x, proj (set v x) = v) →
  fld proj (alter (set v) b m) a =
    if decide (a = b) then fld (λ _, v) m a else fld proj m a.
Proof.
  intros Hs. change (alter (set v) b m) with (wr (Some b) (set v) m).
  rewrite (fld_wr_set proj set (Some b)) by done.
  repeat case_decide; simplify_eq; done.
Qed.

Lemma fld_insert {T} (proj : fetch → option T) (n : addr) x m a :
  fld proj (<[n := x]> m) a = if decide (a = n) then proj x else fld proj m a.
Proof.
  unfold fld. rewrite lookup_insert. repeat case_decide; simplify_eq; done.
Qed.

Lemma fld_is_Some {T} (proj : fetch → option T) m a :
  is_Some (fld proj m a) → is_Some (m !! a).
Proof. intros [v (x & -> & _)%fld_Some]. eauto. Qed.

Lemma fld_const_None {T} m a : fld (λ _, @None T) m a = None.
Proof. unfold fld. by destruct (m !! a). Qed.

Lemma fld_const_live {T} (v : option T) m a :
  is_Some (m !! a) → fld (λ _, v) m a = v.
Proof. unfold fld. by intros [x ->]. Qed.

Lemma consistent_ext N P (m m' : gmap addr fetch) :
  (∀ a, fld N m' a = fld N m a) → (∀ a, fld P m' a = fld P m a) →
  consistent N P m → consistent N P m'.
Proof. intros HN HP Hc a b. rewrite HN, HP. apply Hc. Qed.


Lemma queue_ok_ext (m m' : gmap addr fetch) :
  (∀ a, is_Some (m' !! a) ↔ is_Some (m !! a)) →
  (∀ a, fld curl_handle m' a = fld curl_handle m a) →
  (∀ a, fld queue_prev m' a = fld queue_prev m a) →
  (∀ a, fld queue_next m' a = fld queue_next m a) →
  queue_ok m → queue_ok m'.
Proof.
  intros Hl Hh Hp Hn [Hc HI]. split.
  - by apply (consistent_ext _ _ m).
  - intros a Ha. rewrite Hh, Hp. apply HI, Hl, Ha.
Qed.

Lemma spliceQ_queue_ok m f fr :
  queue_ok m → m !! f = Some fr →
  (curl_handle fr = None ∨ queue_next fr = None) →
  queue_ok (delete f (spliceQ fr m)).
Proof.
  intros [Hc HI] Hf Hbr. split.
  - apply splice_consistent; auto.
  - intros a Ha. unfold spliceQ. rewrite fld_P_splice by auto.
    rewrite fld_delete.
    unfold splice. rewrite !(fld_wr_other curl_handle) by auto.
    rewrite lookup_delete in Ha.
    destruct (decide (a = f)) as [->|Haf]; simpl in *.
    { rewrite decide_True in Ha by done. by destruct Ha. }
    rewrite decide_False in Ha by done.
    unfold spliceQ, splice in Ha. rewrite !lookup_wr_is_Some in Ha.
    destruct (decide (queue_next fr = Some a)) as [Hn|Hn]; simpl; [|by apply HI].
    rewrite fld_const_live by done.
    assert (fld queue_prev m a = Some f) as Hpa.
    { apply Hc. by rewrite (fld_lookup _ _ _ _ Hf). }
    destruct Hbr as [Hh|Hq]; [|congruence].
    pose proof (HI f (mk_is_Some _ _ Hf)) as HIf.
    pose proof (HI a Ha) as HIa.
    rewrite !(fld_lookup _ _ _ _ Hf) in HIf. rewrite Hh in HIf. rewrite Hpa in HIa.
    split.
    + intros Hq. apply HIf in Hq. by destruct Hq.
    + intros Hq. apply HIa in Hq. done.
Qed.


(** ** Keeping the invariant *)

Ltac fld_norm :=
  repeat first
    [ rewrite fld_delete
    | rewrite fld_insert
    | rewrite (fld_wr_set next set_next) by reflexivity
    | rewrite (fld_wr_set prev set_prev) by reflexivity
    | rewrite (fld_wr_set queue_next set_queue_next) by reflexivity
    | rewrite (fld_wr_set queue_prev set_queue_prev) by reflexivity
    | rewrite (fld_wr_set curl_handle set_curl_handle) by reflexivity
    | rewrite (fld_alter_set next set_next) by reflexivity
    | rewrite (fld_alter_set prev set_prev) by reflexivity
    | rewrite (fld_alter_set queue_next set_queue_next) by reflexivity
    | rewrite (fld_alter_set queue_prev set_queue_prev) by reflexivity
    | rewrite (fld_alter_set curl_handle set_curl_handle) by reflexivity
    | rewrite fld_wr_other by reflexivity
    | rewrite fld_alter_other by reflexivity ].

Lemma fld_live {T} (proj : fetch → option T) m a v :
  fld proj m a = Some v → is_Some (m !! a).
Proof. intros Hv. apply (fld_is_Some proj). by rewrite Hv. Qed.

Lemma list_ok_ext (m m' : gmap addr fetch) fl :
  (∀ a, fld curl_handle m' a = fld curl_handle m a) →
  (∀ a, fld prev m' a = fld prev m a) →
  (∀ a, fld next m' a = fld next m a) →
  list_ok m fl → list_ok m' fl.
Proof.
  intros Hh Hp Hn [Hc Hd Hq]. split.
  - by apply (consistent_ext _ _ m).
  - intros a Ha. rewrite Hh, Hp. by apply Hd.
  - intros a. rewrite Hh, Hp, Hn. apply Hq.
Qed.

Lemma fld_handle_unlink m f fr a :
  fld curl_handle (delete f (spliceL fr m)) a =
    if decide (a = f) then None else fld curl_handle m a.
Proof. unfold spliceL, splice. by fld_norm. Qed.

Lemma fld_prev_unlink m f fr a :
  fld prev (delete f (spliceL fr m)) a =
    if decide (a = f) then None
    else if decide (next fr = Some a) then fld (λ _, prev fr) m a
         else fld prev m a.
Proof. unfold spliceL. by rewrite fld_P_splice by done. Qed.

Lemma fld_next_unlink m f fr a :
  fld next (delete f (spliceL fr m)) a =
    if decide (a = f) then None
    else if decide (prev fr = Some a) then fld (λ _, next fr) m a
         else fld next m a.
Proof. unfold spliceL. by rewrite fld_N_splice by done. Qed.

Lemma unlink_list_ok m fl f fr :
  list_ok m fl → m !! f = Some fr →
  list_ok (delete f (spliceL fr m)) (unlink_list fr fl).
Proof.
  intros [Hc Hd Hq] Hf.
  assert (HfN : ∀ x, next fr = Some x ↔ fld prev m x = Some f).
  { intros x. rewrite <-(fld_lookup next m f fr Hf). apply Hc. }
  assert (HfP : ∀ x, prev fr = Some x ↔ fld next m x = Some f).
  { intros x. rewrite <-(fld_lookup prev m f fr Hf). symmetry. apply Hc. }
  assert (Hact : ∀ a v, fld prev m a = Some v → is_Some (fld curl_handle m a)).
  { intros a v Ha. destruct (fld curl_handle m a) eqn:E; [done|].
    apply Hq in E as [E _]. congruence. }
  split.
  - by apply splice_consistent.
  - intros a Ha. rewrite fld_handle_unlink, fld_prev_unlink.
    unfold unlink_list in Ha. destruct (prev fr) as [b|] eqn:Ep.
    + destruct (Hd a Ha) as [Hh Hpv].
      assert (a ≠ f) as Haf.
      { intros ->. rewrite (fld_lookup prev m f fr Hf) in Hpv. congruence. }
      rewrite !decide_False by done. split; [done|].
      case_decide as Hn; [|done]. apply HfN in Hn. congruence.
    + pose proof (proj1 (HfN a) Ha) as Hpa.
      assert (a ≠ f) as Haf.
      { intros ->. rewrite (fld_lookup prev m f fr Hf) in Hpa. congruence. }
      rewrite !decide_False by done. rewrite decide_True by done.
      split; [by eapply Hact|].
      rewrite fld_const_live; [done|by eapply fld_live].
  - intros a. rewrite fld_handle_unlink, fld_prev_unlink, fld_next_unlink.
    case_decide; [done|]. intros [Hp Hn]%Hq.
    split; case_decide as Hx; try done.
    + apply HfN in Hx. congruence.
    + apply HfP in Hx. congruence.
Qed.

(** The heap after a fetch that holds no handle yet is put at the head of
    [fetch_list] and given one. *)
Lemma push_list_ok K fl g h :
  list_ok K fl → is_Some (K !! g) → fld curl_handle K g = None →
  list_ok (alter (set_curl_handle (Some h)) g
             (wr fl (set_prev (Some g)) (alter (set_next fl) g K))) (Some g).
Proof.
  intros [Hc Hd Hq] Hg Hgh.
  destruct (Hq g Hgh) as [Hgp Hgn].
  assert (fl ≠ Some g) as Hfl.
  { intros Hx. apply Hd in Hx as [Hx _]. rewrite Hgh in Hx. by destruct Hx. }
  assert (Hnog : ∀ a, fld next K a ≠ Some g).
  { intros a Ha%Hc. congruence. }
  assert (Hnog' : ∀ a, fld prev K a ≠ Some g).
  { intros a Ha%Hc. congruence. }
  split.
  - intros a b. fld_norm.
    destruct (decide (a = g)) as [->|Hag], (decide (fl = Some b)) as [Hb|Hb]; simpl.
    + rewrite !fld_const_live; [done| |done].
      apply Hd in Hb as [Hb _]. by eapply fld_is_Some.
    + rewrite fld_const_live by done. split; [done|]. intros Hx. by apply Hnog' in Hx.
    + rewrite fld_const. split.
      * intros Hx%Hc. apply Hd in Hb as [_ Hb]. congruence.
      * intros [_ [= ->]]. done.
    + apply Hc.
  - intros a [= <-]. fld_norm.
    rewrite decide_True by done. rewrite decide_False by done.
    rewrite fld_const_live by done. split; [done|done].
  - intros a. fld_norm. destruct (decide (a = g)) as [->|Hag]; simpl.
    { rewrite fld_const_live by done. done. }
    intros Hh. destruct (Hq a Hh) as [Hp Hn].
    split; [|done]. case_decide as Hx; [|done].
    apply Hd in Hx as [Hx _]. rewrite Hh in Hx. by destruct Hx.
Qed.

Lemma spliceL_is_Some fr m a : is_Some (spliceL fr m !! a) ↔ is_Some (m !! a).
Proof. unfold spliceL, splice. by rewrite !lookup_wr_is_Some. Qed.

Lemma spliceQ_is_Some fr m a : is_Some (spliceQ fr m !! a) ↔ is_Some (m !! a).
Proof. unfold spliceQ, splice. by rewrite !lookup_wr_is_Some. Qed.

Lemma delete_is_Some (m : gmap addr fetch) f a :
  is_Some (delete f m !! a) ↔ a ≠ f ∧ is_Some (m !! a).
Proof.
  rewrite lookup_delete. case_decide; subst; split.
  - by intros [].
  - by intros [].
  - done.
  - by intros [].
Qed.

Lemma fld_spliceL_other {T} (proj : fetch → option T) fr m a :
  (∀ v x, proj (set_prev v x) = proj x) →
  (∀ v x, proj (set_next v x) = proj x) →
  fld proj (spliceL fr m) a = fld proj m a.
Proof. intros. unfold spliceL, splice. by rewrite !fld_wr_other by done. Qed.

Lemma promote_queue_ok m f fr g h fl :
  queue_ok m → m !! f = Some fr →
  curl_handle fr = Some h → queue_next fr = Some g →
  queue_ok (delete f (promoted g h fl (spliceL fr m))).
Proof.
  intros [Hc HI] Hf Hh Hg.
  assert (queue_prev fr = None) as Hqp.
  { pose proof (HI f (mk_is_Some _ _ Hf)) as HIf.
    rewrite !(fld_lookup _ m f fr Hf) in HIf. apply HIf. by rewrite Hh. }
  assert (is_Some (m !! g)) as Hgl.
  { eapply (fld_live queue_prev). apply Hc. by rewrite (fld_lookup _ m f fr Hf). }
  split.
  - apply (consistent_ext _ _ (delete f (spliceQ fr m))).
    + intros a. unfold promoted, spliceQ. rewrite fld_N_splice by done.
      fld_norm. rewrite !fld_spliceL_other by done. rewrite Hqp.
      by repeat case_decide.
    + intros a. unfold promoted, spliceQ. rewrite fld_P_splice by done.
      fld_norm. rewrite !fld_spliceL_other by done. rewrite Hqp, Hg.
      rewrite !fld_const_None.
      repeat case_decide; simplify_eq; done.
    + by apply splice_consistent.
  - intros a [Haf Ha]%delete_is_Some.
    rewrite promoted_is_Some, spliceL_is_Some in Ha.
    unfold promoted. fld_norm. rewrite !fld_spliceL_other by done.
    destruct (decide (a = g)) as [->|Hag]; repeat case_decide; try done.
    + rewrite fld_const_None. rewrite fld_const_live by done. split; eauto.
    + by apply HI.
Qed.

(** *** The engine *)

Lemma eopt_insert {T} (proj : easy → option T) c h e h' :
  eopt proj (with_easies (<[h := e]> (easies c)) c) h' =
    if decide (h' = h) then proj e else eopt proj c h'.
Proof.
  unfold eopt. simpl. rewrite lookup_insert.
  repeat case_decide; simplify_eq; done.
Qed.

Lemma eopt_with_multi {T} (proj : easy → option T) X W c h :
  eopt proj (with_multi X W c) h = eopt proj c h.
Proof. done. Qed.

Lemma engine_owner_inj m c a b h :
  engine_ok m c → fld curl_handle m a = Some h → fld curl_handle m b = Some h →
  a = b.
Proof.
  intros [Ho _ _] Ha Hb.
  apply Ho in Ha as (_ & Ha & _). apply Ho in Hb as (_ & Hb & _). congruence.
Qed.

Lemma engine_ok_drop m m' c f :
  engine_ok m c →
  (∀ a, fld curl_handle m' a =
          if decide (a = f) then None else fld curl_handle m a) →
  engine_ok m'
    (released (fld curl_handle m f)
       match fld curl_handle m f with
       | Some h => with_multi (multi c ∖ {[h]}) (write_failed c ∖ {[h]}) c
       | None => c
       end).
Proof.
  intros Hok Hm'. pose proof Hok as [Ho Hmu Hfr].
  assert (Hne : ∀ a h, a ≠ f → fld curl_handle m a = Some h →
                fld curl_handle m f ≠ Some h).
  { intros a h Haf Ha Hx. by apply Haf, (engine_owner_inj m c a f h). }
  split.
  - intros a h. rewrite Hm'. case_decide as Haf; [done|]. intros Ha.
    pose proof (Hne a h Haf Ha) as Hn.
    destruct (Ho a h Ha) as (H1 & H2 & H3 & H4 & H5).
    destruct (fld curl_handle m f) as [h0|]; simpl; [|done].
    assert (h ≠ h0) by congruence.
    unfold eopt in *. simpl. rewrite lookup_delete_ne by done.
    split; [set_solver|done].
  - intros h Hh.
    assert (h ∈ multi c ∧ fld curl_handle m f ≠ Some h) as [Hin Hn].
    { destruct (fld curl_handle m f) as [h0|]; simpl in Hh; [|done].
      split; [set_solver|]. intros [= ->]. set_solver. }
    destruct (Hmu h Hin) as (a & Hp & Ha).
    exists a. split.
    + destruct (fld curl_handle m f) as [h0|]; simpl; [|done].
      unfold eopt in *. simpl. rewrite lookup_delete_ne; [done|congruence].
    + rewrite Hm'. rewrite decide_False; [done|]. intros ->. congruence.
  - intros h Hh.
    destruct (fld curl_handle m f) as [h0|]; simpl in *; [|by apply Hfr].
    apply Hfr. rewrite lookup_delete in Hh. case_decide; [by destruct Hh|done].
Qed.

Lemma engine_ok_drop' m m' c c' f oh :
  engine_ok m c → fld curl_handle m f = oh →
  (∀ a, fld curl_handle m' a =
          if decide (a = f) then None else fld curl_handle m a) →
  c' = released oh
         match oh with
         | Some h => with_multi (multi c ∖ {[h]}) (write_failed c ∖ {[h]}) c
         | None => c
         end →
  engine_ok m' c'.
Proof. intros ? <- ? ->. by apply engine_ok_drop. Qed.

Lemma engine_ok_promote m m' c f g h e u r W :
  engine_ok m c → fld curl_handle m f = Some h → fld curl_handle m g = None →
  easies c !! h = Some e →
  (∀ a, fld curl_handle m' a =
          if decide (a = f) then None
          else if decide (a = g) then fld (λ _, Some h) m a
               else fld curl_handle m a) →
  is_Some (m !! g) → g ≠ f →
  engine_ok m'
    (with_multi ({[h]} ∪ multi c ∖ {[h]}) W
       (with_easies (<[h := retarget g u r e]> (easies c)) c)).
Proof.
  intros Hok Hf Hg He Hm' Hgl Hgf. pose proof Hok as [Ho Hmu Hfr].
  split.
  - intros a h'. rewrite Hm'. case_decide as Haf; [done|].
    case_decide as Hag.
    + subst a. rewrite fld_const_live by done. intros [= <-].
      rewrite !eopt_with_multi, !eopt_insert, !decide_True by done. simpl.
      split; [set_solver|done].
    + intros Ha. assert (h' ≠ h) as Hne.
      { intros ->. by apply Haf, (engine_owner_inj m c a f h). }
      destruct (Ho a h' Ha) as (H1 & H2 & H3 & H4 & H5).
      rewrite !eopt_with_multi, !eopt_insert, !decide_False by done. simpl.
      split; [set_solver|done].
  - intros h' Hh'. simpl in Hh'. destruct (decide (h' = h)) as [->|Hne].
    + exists g. rewrite eopt_with_multi, eopt_insert, decide_True by done. split; [done|].
      rewrite Hm', decide_False, decide_True by done. by apply fld_const_live.
    + assert (h' ∈ multi c) as Hin by set_solver.
      destruct (Hmu h' Hin) as (a & Hp & Ha). exists a.
      rewrite eopt_with_multi, eopt_insert, decide_False by done. split; [done|].
      rewrite Hm'. rewrite !decide_False; [done| |]; intros ->; congruence.
  - intros h' Hh'. simpl in Hh'. rewrite lookup_insert in Hh'.
    case_decide; [subst; apply Hfr; eauto|by apply Hfr].
Qed.

(** *** States that differ in nothing the invariant looks at *)

Lemma links_fld (m m' : gmap addr fetch) a :
  links_of <$> (m' !! a) = links_of <$> (m !! a) →
  (is_Some (m' !! a) ↔ is_Some (m !! a)) ∧
  fld curl_handle m' a = fld curl_handle m a ∧
  fld queue_prev m' a = fld queue_prev m a ∧
  fld queue_next m' a = fld queue_next m a ∧
  fld prev m' a = fld prev m a ∧
  fld next m' a = fld next m a.
Proof.
  unfold fld, links_of.
  destruct (m' !! a) as [x|], (m !! a) as [y|]; simpl; intros [=];
    repeat split; eauto; try done.
Qed.

Lemma opts_eopt (c c' : curl) h :
  opts_of <$> (easies c' !! h) = opts_of <$> (easies c !! h) →
  (is_Some (easies c' !! h) ↔ is_Some (easies c !! h)) ∧
  eopt opt_private c' h = eopt opt_private c h ∧
  eopt opt_writedata c' h = eopt opt_writedata c h ∧
  eopt opt_writeheader c' h = eopt opt_writeheader c h ∧
  eopt opt_errorbuffer c' h = eopt opt_errorbuffer c h.
Proof.
  unfold eopt, opts_of.
  destruct (easies c' !! h) as [x|], (easies c !! h) as [y|]; simpl; intros [=];
    repeat split; eauto; try done.
Qed.

Lemma engine_ok_ext (m m' : gmap addr fetch) (c c' : curl) :
  (∀ a, fld curl_handle m' a = fld curl_handle m a) →
  (∀ h, opts_of <$> (easies c' !! h) = opts_of <$> (easies c !! h)) →
  multi c' = multi c → next_handle c' = next_handle c →
  engine_ok m c → engine_ok m' c'.
Proof.
  intros Hh He Hm Hn [Ho Hmu Hfr]. split.
  - intros a h. rewrite Hh, Hm.
    destruct (opts_eopt c c' h (He h)) as (_ & -> & -> & -> & ->). apply Ho.
  - intros h. rewrite Hm. intros (a & Hp & Ha)%Hmu. exists a.
    destruct (opts_eopt c c' h (He h)) as (_ & -> & _). by rewrite Hh.
  - intros h Hl. rewrite Hn. apply Hfr.
    by apply (opts_eopt c c' h (He h)).
Qed.

Lemma wf_ext s s' : same_links s s' → wf s → wf s'.
Proof.
  intros [Hh Hl Hn He Hm Hnh] [Hf Hq Hli Hen].
  pose proof (λ a, links_fld (heap s) (heap s') a (Hh a)) as Hfld.
  split.
  - intros a Ha. rewrite Hn. apply Hf. by apply Hfld.
  - apply (queue_ok_ext (heap s)); try done; intros a; apply Hfld.
  - rewrite Hl. apply (list_ok_ext (heap s)); try done; intros a; apply Hfld.
  - apply (engine_ok_ext (heap s) _ (engine s)); try done. intros a; apply Hfld.
Qed.

#[local] Instance same_links_po : PreOrder same_links.
Proof.
  split.
  - intros s. by split.
  - intros s1 s2 s3 [A1 A2 A3 A4 A5 A6] [B1 B2 B3 B4 B5 B6]. split.
    + intros a. by rewrite B1.
    + congruence.
    + congruence.
    + intros h. by rewrite B4.
    + congruence.
    + congruence.
Qed.

(** A store that leaves the five link fields alone. *)
Lemma same_links_alter s a g :
  (∀ x, links_of (g x) = links_of x) →
  same_links s (with_heap (alter g a (heap s)) s).
Proof.
  intros Hg. split; try done. intros b. simpl.
  rewrite lookup_alter. case_decide; [|done]. subst.
  destruct (heap s !! b); simpl; by f_equal.
Qed.

(** *** [fetch_abort] *)

Lemma wf_fetch_abort f s u s' : wf s → fetch_abort f s = Ok (u, s') → wf s'.
Proof.
  intros Hwf (fr & Hf & Hs)%fetch_abort_ok.
  destruct (in_callback fr).
  { subst s'. eapply wf_ext; [|done]. by apply same_links_alter. }
  destruct Hs as (Hp & Hn & Hmu & Hs).
  pose proof Hwf as [Hfresh Hq Hl He].
  pose proof (unlink_list_ok _ _ f fr Hl Hf) as Hl1.
  pose proof (fld_lookup curl_handle _ _ _ Hf) as Hfh.
  destruct (curl_handle fr) as [h|] eqn:Eh;
    [destruct (queue_next fr) as [g|] eqn:Eg|].
  - (* the queued fetch is started *)
    destruct Hs as (gr & e & Hg & Hee & Hhd & ->).
    assert (fld queue_prev (heap s) g = Some f) as Hgq.
    { apply Hq. by rewrite (fld_lookup _ _ _ _ Hf). }
    assert (fld curl_handle (heap s) g = None) as Hgh.
    { destruct (fld curl_handle (heap s) g) eqn:E; [|done].
      assert (fld queue_prev (heap s) g = None); [|congruence].
      apply Hq; [eauto|]. by rewrite E. }
    assert (g ≠ f) as Hgf by (intros ->; congruence).
    split; simpl.
    + intros a [_ Ha]%delete_is_Some.
      apply Hfresh. by rewrite promoted_is_Some, spliceL_is_Some in Ha.
    + by apply promote_queue_ok.
    + set (K1 := delete f (spliceL fr (heap s))).
      set (fl1 := unlink_list fr (fetch_list s)).
      assert (fld curl_handle K1 g = None) as HgK.
      { unfold K1. by rewrite fld_handle_unlink, decide_False. }
      assert (is_Some (K1 !! g)) as HgL.
      { unfold K1. rewrite delete_is_Some, spliceL_is_Some. eauto. }
      pose proof (push_list_ok K1 fl1 g h Hl1 HgL HgK) as Hpush.
      destruct (l_queued _ _ Hl1 g HgK) as [Hgp Hgn].
      eapply list_ok_ext; [| | |exact Hpush]; intros a;
        unfold promoted, K1; fld_norm;
        repeat case_decide; simplify_eq; try done.
      rewrite fld_delete in Hgp.
      rewrite decide_False in Hgp by done. by rewrite fld_const_None.
    + eapply (engine_ok_promote (heap s) _ (engine s) f g h e); try done.
      intros a. unfold promoted. fld_norm. rewrite !fld_spliceL_other by done.
      by repeat case_decide.
  - (* the last fetch of its host *)
    destruct Hs as (Hhe & Hqp & Hqn & ->).
    split; simpl.
    + intros a [_ Ha]%delete_is_Some.
      apply Hfresh. by rewrite spliceQ_is_Some, spliceL_is_Some in Ha.
    + apply spliceQ_queue_ok; [|by apply lookup_spliceL|by right].
      eapply queue_ok_ext; [| | | |exact Hq]; intros a;
        rewrite ?spliceL_is_Some, ?fld_spliceL_other by done; done.
    + eapply list_ok_ext; [| | |exact Hl1]; intros a;
        unfold spliceQ, splice; by fld_norm.
    + eapply engine_ok_drop'; [done|exact Hfh| |done].
      intros a. unfold spliceQ, spliceL, splice. by fld_norm.
  - (* a fetch that was waiting *)
    assert (Hs' : (∀ h, None = Some h → is_Some (easies (engine s) !! h)) ∧
                  (∀ b, queue_prev fr = Some b → is_Some (heap s !! b)) ∧
                  (∀ b, queue_next fr = Some b → is_Some (heap s !! b)) ∧
                  s' = with_heap (delete f (spliceQ fr (spliceL fr (heap s))))
                         (with_fetch_list (unlink_list fr (fetch_list s))
                            (with_engine (released None (engine s)) s))).
    { by destruct (queue_next fr). }
    clear Hs. destruct Hs' as (Hhe & Hqp & Hqn & ->).
    split; simpl.
    + intros a [_ Ha]%delete_is_Some.
      apply Hfresh. by rewrite spliceQ_is_Some, spliceL_is_Some in Ha.
    + apply spliceQ_queue_ok; [|by apply lookup_spliceL|by left].
      eapply queue_ok_ext; [| | | |exact Hq]; intros a;
        rewrite ?spliceL_is_Some, ?fld_spliceL_other by done; done.
    + eapply list_ok_ext; [| | |exact Hl1]; intros a;
        unfold spliceQ, splice; by fld_norm.
    + eapply engine_ok_drop'; [done|exact Hfh| |done].
      intros a. unfold spliceQ, spliceL, splice. by fld_norm.
Qed.

(** *** [fetch_start] *)

Lemma xcalloc_ok x s a s1 :
  xcalloc x s = Ok (a, s1) ↔
  a = next_addr s ∧
  s1 = with_next_addr (S (next_addr s)) (with_heap (<[next_addr s := x]> (heap s)) s).
Proof. unfold xcalloc. split; [by intros [= <- <-]|by intros [-> ->]]. Qed.

Lemma easy_init_ok s h s1 :
  curl_easy_init s = Ok (h, s1) ↔
  h = next_handle (engine s) ∧
  s1 = with_engine {| easies := <[next_handle (engine s) := fresh_easy]>
                                  (easies (engine s));
                      multi := multi (engine s);
                      write_failed := write_failed (engine s);
                      next_handle := S (next_handle (engine s)) |} s.
Proof. unfold curl_easy_init. split; [by intros [= <- <-]|by intros [-> ->]]. Qed.

Lemma activate_ok n s a s' :
  activate n s = Ok (a, s') →
  a = n ∧ ∃ x, heap s !! n = Some x ∧
    (∀ b, fetch_list s = Some b → is_Some (heap s !! b)) ∧
    (next_handle (engine s) ∉ multi (engine s)) ∧
    s' = with_engine
           {| easies := <[next_handle (engine s) := configured n (url x) (referer x)]>
                          (easies (engine s));
              multi := {[next_handle (engine s)]} ∪ multi (engine s);
              write_failed := write_failed (engine s) ∖ {[next_handle (engine s)]};
              next_handle := S (next_handle (engine s)) |}
           (with_heap (activated n (next_handle (engine s)) (fetch_list s) (heap s))
              (with_fetch_active true (with_fetch_list (Some n) s))).
Proof.
  destruct s as [m na fl fa [es mu wfl nh] c tr]. unfold activate.
  intros (s0 & ? & [-> ->]%get_ok & H0)%bind_ok. nrm.
  apply bind_ok in H0 as (? & ? & [[x Hx] ->]%store_ok & H0). nrm.
  apply bind_ok in H0 as (? & ? & [Hhead ->]%store_opt_ok & H0). nrm.
  apply bind_ok in H0 as (? & ? & ->%modify_ok & H0). nrm.
  apply bind_ok in H0 as (? & ? & ->%modify_ok & H0). nrm.
  apply bind_ok in H0 as (h & ? & [-> ->]%easy_init_ok & H0). nrm.
  apply bind_ok in H0 as (? & ? & [_ ->]%store_ok & H0). nrm.
  apply bind_ok in H0 as (x' & ? & [Hx' ->]%deref_ok & H0). nrm.
  assert (url x' = url x ∧ referer x' = referer x) as [Hu Hr].
  { pose proof (lookup_alter_proj url n (set_curl_handle (Some nh))
                  (wr fl (set_prev (Some n)) (alter (set_next fl) n m)) n) as Hu.
    pose proof (lookup_alter_proj referer n (set_curl_handle (Some nh))
                  (wr fl (set_prev (Some n)) (alter (set_next fl) n m)) n) as Hr.
    rewrite Hx' in Hu, Hr.
    rewrite lookup_wr_proj in Hu by done. rewrite lookup_wr_proj in Hr by done.
    rewrite lookup_alter_proj in Hu by done.
    rewrite lookup_alter_proj in Hr by done.
    rewrite Hx in Hu, Hr. simpl in *. split; [injection Hu|injection Hr]; auto. }
  rewrite Hu, Hr in H0. clear Hu Hr.
  apply bind_ok in H0 as (? & ? & (e & He & ->)%setopt_ok & H0). nrm.
  apply bind_ok in H0 as (? & ? & (e1 & He1 & ->)%setopt_ok & H0). nrm.
  apply bind_ok in H0 as (? & ? & (e2 & He2 & ->)%setopt_ok & H0). nrm.
  apply bind_ok in H0 as (? & ? & (e3 & He3 & ->)%setopt_ok & H0). nrm.
  apply bind_ok in H0 as (? & ? & (e4 & He4 & ->)%setopt_ok & H0). nrm.
  rewrite lookup_insert_eq in He, He1, He2, He3, He4. simplify_eq.
  rewrite !insert_insert_eq in H0.
  apply bind_ok in H0 as (? & s5 & H5 & H0).
  assert (∃ e5, easies (engine s5) !! nh = Some e5 ∧
            e5 = match referer x with
                 | Some r => apply_option (CURLOPT_REFERER (Some r))
                 | None => id
                 end
                   (apply_option (CURLOPT_WRITEHEADER n)
                      (apply_option (CURLOPT_WRITEDATA n)
                         (apply_option (CURLOPT_ERRORBUFFER n)
                            (apply_option (CURLOPT_PRIVATE n)
                               (apply_option (CURLOPT_URL (url x)) fresh_easy))))) ∧
            s5 = {| heap := alter (set_curl_handle (Some nh)) n
                              (wr fl (set_prev (Some n)) (alter (set_next fl) n m));
                    next_addr := na; fetch_list := Some n; fetch_active := true;
                    engine := {| easies := <[nh := e5]> es; multi := mu;
                                 write_failed := wfl; next_handle := S nh |};
                    cl := c; trace := tr |}) as (e5 & He5 & -> & ->).
  { destruct (referer x) as [rf|].
    - apply setopt_ok in H5 as (e5 & He5 & ->). nrm.
      rewrite lookup_insert_eq in He5. simplify_eq.
      rewrite !insert_insert_eq. eexists. split; [apply lookup_insert_eq|done].
    - apply ret_ok in H5 as [_ ->]. nrm.
      eexists. split; [apply lookup_insert_eq|done]. }
  apply bind_ok in H0 as (? & ? & [_ ->]%store_ok & H0). nrm.
  apply bind_ok in H0 as (xh & ? & [Hxh ->]%deref_ok & H0). nrm.
  assert (headers xh = Some ["Accept:"; "Pragma:"]) as Hhd.
  { rewrite lookup_alter_eq in Hxh.
    destruct (alter _ _ _ !! n); simpl in Hxh; [|done]. by injection Hxh as <-. }
  rewrite Hhd in H0. clear Hhd.
  apply bind_ok in H0 as (? & ? & (e6 & He6 & ->)%setopt_ok & H0). nrm.
  rewrite lookup_insert_eq in He6. simplify_eq. rewrite !insert_insert_eq in H0.
  apply bind_ok in H0 as (? & ? & [[_ Hm] ->]%add_handle_ok & [-> ->]%ret_ok). nrm.
  split; [done|]. exists x. repeat split; try done.
  intros b Hb. apply Hhead in Hb. by rewrite lookup_alter_is_Some in Hb.
Qed.

Lemma fetch_start_ok u r cb q o s a s' :
  fetch_start u r cb q o s = Ok (a, s') →
  let n := next_addr s in
  let s0 := with_next_addr (S n)
              (with_heap (<[n := new_fetch u r cb q o]> (heap s)) s) in
  a = n ∧
  ((∃ name hf t,
      url_host u = Some name ∧
      find_host (size (heap s0)) (fetch_list s) name s0 = Ok (Some hf, s0) ∧
      queue_tail (size (heap s0)) hf
        (with_heap (alter (set_curl_handle None) n (heap s0)) s0)
        = Ok (t, with_heap (alter (set_curl_handle None) n (heap s0)) s0) ∧
      s' = with_heap (enqueued n t (heap s0)) s0) ∨
   ((url_host u = None ∨
     ∃ name, url_host u = Some name ∧
       find_host (size (heap s0)) (fetch_list s) name s0 = Ok (None, s0)) ∧
    activate n s0 = Ok (n, s'))).
Proof.
  unfold fetch_start.
  intros (? & ? & [-> ->]%xcalloc_ok & H0)%bind_ok.
  apply bind_ok in H0 as (x & ? & [Hx ->]%deref_ok & H0).
  simpl in Hx. rewrite lookup_insert_eq in Hx. injection Hx as <-.
  simpl in H0. split.
  { destruct (url_host u) as [name|].
    - apply bind_ok in H0 as (s0 & ? & [-> ->]%get_ok & H0).
      apply bind_ok in H0 as ([hf|] & s1 & Hfh & H0).
      + pose proof (find_host_pure _ _ _ _ _ _ Hfh) as ->.
        apply bind_ok in H0 as (? & ? & [_ ->]%store_ok & H0).
        apply bind_ok in H0 as (t & s2 & Hqt & H0).
        pose proof (queue_tail_pure _ _ _ _ _ Hqt) as ->.
        apply bind_ok in H0 as (? & ? & [_ ->]%store_ok & H0).
        apply bind_ok in H0 as (? & ? & [_ ->]%store_ok & [-> _]%ret_ok).
        done.
      + by apply activate_ok in H0 as [-> _].
    - by apply activate_ok in H0 as [-> _]. }
  destruct (url_host u) as [name|].
  - apply bind_ok in H0 as (s0 & ? & [-> ->]%get_ok & H0).
    apply bind_ok in H0 as ([hf|] & s1 & Hfh & H0).
    + left. pose proof (find_host_pure _ _ _ _ _ _ Hfh) as ->.
      apply bind_ok in H0 as (? & ? & [_ ->]%store_ok & H0).
      apply bind_ok in H0 as (t & s2 & Hqt & H0).
      pose proof (queue_tail_pure _ _ _ _ _ Hqt) as ->.
      apply bind_ok in H0 as (? & ? & [_ ->]%store_ok & H0).
      apply bind_ok in H0 as (? & ? & [_ ->]%store_ok & [-> ->]%ret_ok).
      exists name, hf, t. split; [done|]. split; [done|]. split; [done|].
      destruct s as [m na fl fa en c tr]. by nrm.
    + right. pose proof (find_host_pure _ _ _ _ _ _ Hfh) as ->.
      split; [right; eauto|].
      by pose proof (activate_ok _ _ _ _ H0) as [-> _].
  - right. split; [by left|].
    by pose proof (activate_ok _ _ _ _ H0) as [-> _].
Qed.

(** What the host search returns: a fetch of [fetch_list], which holds a
    handle, whose host compares equal. *)
Lemma find_host_found fuel cur name s hf s' fl :
  list_ok (heap s) fl →
  (∀ a, cur = Some a → is_Some (fld curl_handle (heap s) a)) →
  find_host fuel cur name s = Ok (Some hf, s') →
  is_Some (fld curl_handle (heap s) hf) ∧
  ∃ other, fld host (heap s) hf = Some other ∧ strcasecmp other name = 0%Z.
Proof.
  intros [Hc Hd Hq]. revert cur.
  induction fuel as [|k IH]; intros [a|] Hcur; simpl; try by intros [=].
  intros (x & ? & [Hx ->]%deref_ok & H0)%bind_ok.
  assert (∀ b, next x = Some b → is_Some (fld curl_handle (heap s) b)) as Hnext.
  { intros b Hb.
    assert (fld prev (heap s) b = Some a) as Hp.
    { apply Hc. by rewrite (fld_lookup _ _ _ _ Hx). }
    destruct (fld curl_handle (heap s) b) eqn:E; [done|].
    apply Hq in E as [E _]. congruence. }
  destruct (host x) as [other|] eqn:Eh; [|by apply (IH (next x))].
  destruct (strcasecmp other name =? 0)%Z eqn:Ec; [|by apply (IH (next x))].
  apply ret_ok in H0 as [[= <-] _]. split; [by apply Hcur|].
  exists other. rewrite (fld_lookup _ _ _ _ Hx). split; [done|]. by apply Z.eqb_eq.
Qed.

(** What the walk to the end of a queue returns. *)
Lemma queue_tail_found fuel a s t s' :
  consistent queue_next queue_prev (heap s) →
  queue_tail fuel a s = Ok (t, s') →
  is_Some (heap s !! t) ∧ fld queue_next (heap s) t = None ∧
  (t = a ∨ is_Some (fld queue_prev (heap s) t)).
Proof.
  intros Hc. revert a.
  induction fuel as [|k IH]; intros a; simpl; try by intros [=].
  intros (x & ? & [Hx ->]%deref_ok & H0)%bind_ok.
  destruct (queue_next x) as [b|] eqn:Eb.
  - apply IH in H0 as (Hl & Hn & Ht). split; [done|]. split; [done|].
    right. destruct Ht as [->|Ht]; [|done].
    assert (fld queue_prev (heap s) b = Some a) as ->; [|done].
    apply Hc. by rewrite (fld_lookup _ _ _ _ Hx).
  - apply ret_ok in H0 as [<- _]. split; [eauto|]. split; [|by left].
    by rewrite (fld_lookup _ _ _ _ Hx).
Qed.

(** A block fresh from [xcalloc] is outside every structure. *)
Lemma consistent_insert_fresh N P (m : gmap addr fetch) n x :
  consistent N P m → m !! n = None → N x = None → P x = None →
  consistent N P (<[n := x]> m).
Proof.
  intros Hc Hn HN HP a b. rewrite !fld_insert.
  assert (∀ T (pr : fetch → option T), fld pr m n = None) as Hnone.
  { intros. unfold fld. by rewrite Hn. }
  destruct (decide (a = n)) as [->|Ha], (decide (b = n)) as [->|Hb].
  - by rewrite HN, HP.
  - rewrite HN. split; [done|]. intros Hx%Hc. by rewrite Hnone in Hx.
  - rewrite HP. split; [|done]. intros Hx%Hc. by rewrite Hnone in Hx.
  - apply Hc.
Qed.

Lemma list_ok_insert_fresh m fl n u r cb q o :
  list_ok m fl → m !! n = None →
  list_ok (<[n := new_fetch u r cb q o]> m) fl.
Proof.
  intros [Hc Hd Hq] Hn. split.
  - by apply consistent_insert_fresh.
  - intros a Ha. destruct (Hd a Ha) as [Hh Hp].
    assert (a ≠ n) by (intros ->; apply fld_is_Some in Hh; rewrite Hn in Hh;
                       by destruct Hh).
    by rewrite !fld_insert, !decide_False.
  - intros a. rewrite !fld_insert. case_decide; [done|]. apply Hq.
Qed.

Lemma enqueued_queue_ok m n t u r cb q o :
  queue_ok m → m !! n = None →
  let m0 := <[n := new_fetch u r cb q o]> m in
  is_Some (m0 !! t) → t ≠ n → fld queue_next m0 t = None →
  queue_ok (enqueued n t m0).
Proof.
  intros [Hc HI] Hn m0 Ht Htn Htq.
  assert (consistent queue_next queue_prev m0) as Hc0
    by by apply consistent_insert_fresh.
  assert (is_Some (m0 !! n)) as Hnl by by (unfold m0; rewrite lookup_insert_eq).
  assert (fld queue_next m0 n = None) as Hnq by by (unfold m0; rewrite fld_insert, decide_True).
  assert (fld queue_prev m0 n = None) as Hnp by by (unfold m0; rewrite fld_insert, decide_True).
  split.
  - intros a b. unfold enqueued. fld_norm.
    destruct (decide (a = t)) as [->|Hat], (decide (b = n)) as [->|Hbn].
    + by rewrite !fld_const_live.
    + rewrite fld_const_live by done. split; [congruence|].
      intros Hx%Hc0. congruence.
    + rewrite fld_const_live by done. split; [|congruence].
      intros Hx%Hc0. congruence.
    + apply Hc0.
  - intros a Ha. unfold enqueued in *. rewrite !lookup_alter_is_Some in Ha.
    fld_norm. destruct (decide (a = n)) as [->|Han].
    + rewrite !fld_const_live by done. split; [done|by intros []].
    + unfold m0 in *. rewrite !fld_insert, !decide_False by done.
      apply HI. by rewrite lookup_insert_ne in Ha.
Qed.

Lemma activated_queue_ok m n h fl u r cb q o :
  queue_ok m → m !! n = None →
  queue_ok (activated n h fl (<[n := new_fetch u r cb q o]> m)).
Proof.
  intros [Hc HI] Hn. split.
  - apply (consistent_ext _ _ (<[n := new_fetch u r cb q o]> m)).
    + intros a. unfold activated. by fld_norm.
    + intros a. unfold activated. by fld_norm.
    + by apply consistent_insert_fresh.
  - intros a Ha. unfold activated in *.
    rewrite !lookup_alter_is_Some, lookup_wr_is_Some, lookup_alter_is_Some in Ha.
    fld_norm.
    destruct (decide (a = n)) as [->|Han].
    + simpl. split; eauto.
    + apply HI. by rewrite lookup_insert_ne in Ha.
Qed.

Lemma engine_ok_activate m m' c n e :
  engine_ok m c → m !! n = None →
  (∀ a, fld curl_handle m' a =
          if decide (a = n) then Some (next_handle c) else fld curl_handle m a) →
  opt_private e = Some n → opt_writedata e = Some n →
  opt_writeheader e = Some n → opt_errorbuffer e = Some n →
  engine_ok m'
    {| easies := <[next_handle c := e]> (easies c);
       multi := {[next_handle c]} ∪ multi c;
       write_failed := write_failed c ∖ {[next_handle c]};
       next_handle := S (next_handle c) |}.
Proof.
  intros [Ho Hmu Hfr] Hn Hm' E1 E2 E3 E4.
  assert (Hlt : ∀ a h, fld curl_handle m a = Some h → h ≠ next_handle c).
  { intros a h (_ & Hp & _)%Ho ->.
    assert (is_Some (easies c !! next_handle c)) as Hl%Hfr; [|lia].
    unfold eopt in Hp. destruct (easies c !! next_handle c); [eauto|done]. }
  split.
  - intros a h. rewrite Hm'. unfold eopt. simpl. case_decide as Han.
    + intros [= <-]. rewrite lookup_insert_eq. simpl.
      subst a. split; [set_solver|done].
    + intros Ha. pose proof (Hlt a h Ha).
      rewrite lookup_insert_ne by done.
      destruct (Ho a h Ha) as (? & ? & ? & ? & ?). split; [set_solver|done].
  - intros h Hh. simpl in Hh. unfold eopt. simpl.
    destruct (decide (h = next_handle c)) as [->|Hne].
    + exists n. rewrite lookup_insert_eq, Hm', decide_True by done. done.
    + assert (h ∈ multi c) as Hin by set_solver.
      destruct (Hmu h Hin) as (a & Hp & Ha). exists a.
      rewrite lookup_insert_ne by done. split; [done|].
      rewrite Hm', decide_False; [done|]. intros ->.
      unfold fld in Ha. by rewrite Hn in Ha.
  - intros h Hh. simpl in *. rewrite lookup_insert in Hh.
    case_decide; [lia|]. apply Hfr in Hh. lia.
Qed.

Lemma fresh_not_live s : wf s → heap s !! next_addr s = None.
Proof.
  intros [Hf _ _ _]. destruct (heap s !! next_addr s) eqn:E; [|done].
  assert (next_addr s < next_addr s); [|lia]. apply Hf. eauto.
Qed.

Lemma fld_fresh {T} (proj : fetch → option T) m n : m !! n = None → fld proj m n = None.
Proof. unfold fld. by intros ->. Qed.

Lemma configured_opts n u r :
  opt_private (configured n u r) = Some n ∧
  opt_writedata (configured n u r) = Some n ∧
  opt_writeheader (configured n u r) = Some n ∧
  opt_errorbuffer (configured n u r) = Some n.
Proof. by destruct r. Qed.

Lemma wf_fetch_start u r cb q o s a s' :
  wf s → fetch_start u r cb q o s = Ok (a, s') → wf s'.
Proof.
  intros Hwf Hs. pose proof (fresh_not_live s Hwf) as Hn.
  pose proof Hwf as [Hfresh Hq Hl He].
  apply fetch_start_ok in Hs as [-> Hs]. simpl in Hs.
  set (n := next_addr s) in *. set (nf := new_fetch u r cb q o) in *.
  set (m0 := <[n := nf]> (heap s)) in *.
  assert (list_ok m0 (fetch_list s)) as Hl0 by by apply list_ok_insert_fresh.
  assert (consistent queue_next queue_prev m0) as Hc0.
  { apply consistent_insert_fresh; try done. apply Hq. }
  assert (Hlive0 : ∀ b, is_Some (m0 !! b) → b < S n).
  { intros b. unfold m0. rewrite lookup_insert. case_decide; [lia|].
    intros Hb%Hfresh. unfold n. lia. }
  destruct Hs as [(name & hf & t & Hu & Hfh & Hqt & ->)|[_ Hact]].
  - (* queued behind an earlier fetch for the host *)
    eapply (find_host_found _ _ _ _ _ _ (fetch_list s)) in Hfh as [Hhf _];
      [|done|by intros b Hb; apply Hl0].
    apply queue_tail_found in Hqt as (Htl & Htq & Ht); simpl in *.
    2:{ eapply consistent_ext; [| |exact Hc0]; intros b; by fld_norm. }
    rewrite lookup_alter_is_Some in Htl.
    rewrite fld_alter_other in Htq by done.
    rewrite fld_alter_other in Ht by done.
    assert (t ≠ n) as Htn.
    { intros ->. unfold m0 in Ht, Hhf. rewrite fld_insert, decide_True in Ht by done.
      destruct Ht as [<-|[? [=]]].
      rewrite fld_insert, decide_True in Hhf by done. by destruct Hhf. }
    split; simpl.
    + intros b. unfold enqueued. rewrite !lookup_alter_is_Some. apply Hlive0.
    + by apply enqueued_queue_ok.
    + eapply list_ok_ext; [| | |exact Hl0]; intros b; unfold enqueued, m0;
        fld_norm; repeat case_decide; simplify_eq; done.
    + eapply engine_ok_ext; [| | | |exact He]; try done.
      intros b. unfold enqueued, m0. fld_norm.
      repeat case_decide; simplify_eq; try done. by rewrite fld_fresh.
  - (* started at once *)
    apply activate_ok in Hact as (_ & x & Hx & _ & Hnm & ->). simpl in *.
    fold m0 in Hx. unfold m0 in Hx. rewrite lookup_insert_eq in Hx.
    injection Hx as <-.
    split; simpl.
    + intros b. unfold activated.
      rewrite !lookup_alter_is_Some, lookup_wr_is_Some, lookup_alter_is_Some.
      apply Hlive0.
    + by apply activated_queue_ok.
    + assert (is_Some (m0 !! n)) as Hnl by by (unfold m0; rewrite lookup_insert_eq).
      assert (fld curl_handle m0 n = None) as Hnh
        by by (unfold m0; rewrite fld_insert, decide_True).
      pose proof (push_list_ok m0 (fetch_list s) n (next_handle (engine s))
                    Hl0 Hnl Hnh) as Hpush.
      eapply list_ok_ext; [| | |exact Hpush]; intros b; unfold activated;
        by fld_norm.
    + destruct (configured_opts n (url nf) (referer nf)) as (E1 & E2 & E3 & E4).
      eapply (engine_ok_activate (heap s)); try done.
      intros b. unfold activated, m0. fld_norm.
      repeat case_decide; simplify_eq; done.
Qed.

(** *** The rest of fetch.c only touches what the invariant does not see *)

#[local] Instance wf_keep_po : PreOrder wf_keep.
Proof. split; unfold wf_keep; auto. Qed.

Lemma same_links_insert s a x y :
  heap s !! a = Some x → links_of y = links_of x →
  same_links s (with_heap (<[a := y]> (heap s)) s).
Proof.
  intros Hx Hy. split; try done. intros b. simpl.
  rewrite lookup_insert. case_decide; [|done]. subst. rewrite Hx. simpl.
  by f_equal.
Qed.

Lemma same_links_wf_keep s s' : same_links s s' → wf_keep s s'.
Proof. intros Hl Hwf. by eapply wf_ext. Qed.

Ltac wf_leaf :=
  apply same_links_wf_keep;
  first
    [ reflexivity
    | by eapply same_links_insert
    | by split ].

Lemma fetch_abort_wf_keep f : steps wf_keep (fetch_abort f).
Proof. intros s u s' Hs Hwf. by eapply wf_fetch_abort. Qed.

Lemma fetch_start_wf_keep u r cb q o : steps wf_keep (fetch_start u r cb q o).
Proof. intros s a s' Hs Hwf. by eapply wf_fetch_start. Qed.

Lemma run_wf_keep q : steps wf_keep (run q).
Proof.
  induction q as [c|f k IH|u r cb IHcb q0 o k IH]; simpl.
  - steps_go wf_leaf.
  - apply steps_bind; [apply _ | apply fetch_abort_wf_keep | done].
  - apply steps_bind; [apply _ | apply fetch_start_wf_keep | done].
Qed.

Lemma call_wf_keep cb f m q d z : steps wf_keep (call cb f m q d z).
Proof.
  unfold call. apply steps_bind; [apply _| |intros _].
  - steps_go wf_leaf.
  - apply steps_bind; [apply _| |intros s0].
    + steps_go wf_leaf.
    + apply run_wf_keep.
Qed.

Lemma call_own_wf_keep f m d z : steps wf_keep (call_own f m d z).
Proof.
  unfold call_own. apply steps_bind; [apply _| |intros fr].
  - steps_go wf_leaf.
  - apply call_wf_keep.
Qed.

#[local] Hint Resolve run_wf_keep call_wf_keep call_own_wf_keep fetch_abort_wf_keep
  : steps.

Lemma fetch_process_headers_wf_keep f : steps wf_keep (fetch_process_headers f).
Proof. unfold fetch_process_headers. steps_go wf_leaf. Qed.

#[local] Hint Resolve fetch_process_headers_wf_keep : steps.

Lemma fetch_curl_data_wf_keep d f : steps wf_keep (fetch_curl_data d f).
Proof. unfold fetch_curl_data. steps_go wf_leaf. Qed.

Lemma fetch_curl_header_wf_keep d f : steps wf_keep (fetch_curl_header d f).
Proof. unfold fetch_curl_header. steps_go wf_leaf. Qed.

#[local] Hint Resolve fetch_curl_data_wf_keep fetch_curl_header_wf_keep : steps.

Lemma same_links_set_info s h e code ct :
  easies (engine s) !! h = Some e →
  same_links s
    (with_engine (with_easies (<[h := set_info code ct e]> (easies (engine s)))
                    (engine s)) s).
Proof.
  intros He. split; try done. intros h'. simpl.
  rewrite lookup_insert. case_decide; [|done]. subst. by rewrite He.
Qed.

Ltac by_steps Hs tac :=
  lazymatch type of Hs with
  | ?m ?s = Ok (?a, ?s') =>
      let Hst := fresh in
      assert (steps wf_keep m) as Hst by tac;
      exact (Hst s a s' Hs)
  end.

Lemma perform_wf_keep t : steps wf_keep (perform t).
Proof.
  intros s u s' Hs. unfold perform in Hs.
  apply bind_ok in Hs as (s0 & ? & [-> ->]%get_ok & Hs).
  destruct t as [h code ct|h line|h data];
    destruct (easies (engine s) !! h) as [e|] eqn:He;
    try (apply ret_ok in Hs as [_ ->]; reflexivity).
  - destruct (_ && _).
    + apply modify_ok in Hs as ->. apply same_links_wf_keep.
      by apply same_links_set_info.
    + apply ret_ok in Hs as [_ ->]. reflexivity.
  - by_steps Hs ltac:(steps_go wf_leaf).
  - by_steps Hs ltac:(steps_go wf_leaf).
Qed.

#[local] Hint Resolve perform_wf_keep : steps.

Lemma resolve_done_wf_keep res cb f : steps wf_keep (resolve_done res cb f).
Proof. unfold resolve_done. steps_go wf_leaf. Qed.

#[local] Hint Resolve resolve_done_wf_keep : steps.

Lemma finish_wf_keep res f : steps wf_keep (finish res f).
Proof. unfold finish. steps_go wf_leaf. Qed.

#[local] Hint Resolve finish_wf_keep : steps.

Lemma process_msg_wf_keep m : steps wf_keep (process_msg m).
Proof. unfold process_msg. steps_go wf_leaf. Qed.

#[local] Hint Resolve process_msg_wf_keep : steps.

Lemma fetch_poll_wf_keep work msgs : steps wf_keep (fetch_poll work msgs).
Proof.
  unfold fetch_poll.
  apply steps_bind; [apply _| |intros _].
  { apply steps_for_each; [apply _|]. intros t. apply perform_wf_keep. }
  apply steps_bind; [apply _| |intros _].
  { apply steps_for_each; [apply _|]. intros t. apply process_msg_wf_keep. }
  steps_go wf_leaf.
Qed.

Lemma wf_init c : wf (fetch_init c).
Proof.
  assert (∀ T (pr : fetch → option T) a, fld pr (∅ : gmap addr fetch) a = None)
    as Hnone.
  { intros. unfold fld. by rewrite lookup_empty. }
  split; simpl.
  - intros a [x Hx]. by rewrite lookup_empty in Hx.
  - split.
    + intros a b. by rewrite !Hnone.
    + intros a [x Hx]. by rewrite lookup_empty in Hx.
  - split.
    + intros a b. by rewrite !Hnone.
    + done.
    + intros a. by rewrite !Hnone.
  - split.
    + intros a h. by rewrite Hnone.
    + intros h Hh. simpl in Hh. set_solver.
    + intros h [x Hx]. simpl in Hx. by rewrite lookup_empty in Hx.
Qed.

(** ** The loops of [fetch_start] end *)

Lemma depth_fun P m a d d' : depth P m a d → depth P m a d' → d = d'.
Proof.
  intros Hd. revert d'. induction Hd as [a x Hx Hp|a x b d Hx Hp Hd IH];
    intros d' Hd'; inversion Hd' as [a' x' Hx' Hp'|a' x' b' e Hx' Hp' He];
    simplify_eq; try done.
  f_equal. by apply IH.
Qed.

Lemma depth_chain P m a d :
  depth P m a d →
  ∃ l : list addr, List.length l = S d ∧ NoDup l ∧
    ∀ y, y ∈ l → is_Some (m !! y) ∧ ∃ e, e ≤ d ∧ depth P m y e.
Proof.
  induction 1 as [a x Hx Hp|a x b d Hx Hp Hd (l & Hlen & Hnd & Hl)].
  - exists [a]. split; [done|]. split; [apply NoDup_singleton|].
    intros y ->%list_elem_of_singleton. split; [eauto|].
    exists 0. split; [done|]. by eapply depth_first.
  - exists (a :: l). split; [simpl; by rewrite Hlen|]. split.
    + apply NoDup_cons. split; [|done]. intros (_ & e & He & Hde)%Hl.
      assert (depth P m a (S d)) as Hda by by eapply depth_next.
      pose proof (depth_fun _ _ _ _ _ Hde Hda). lia.
    + intros y [->|Hy]%elem_of_cons.
      * split; [eauto|]. exists (S d). split; [done|]. by eapply depth_next.
      * destruct (Hl y Hy) as (? & e & ? & ?). split; [done|].
        exists e. split; [lia|done].
Qed.

Lemma depth_bound P (m : gmap addr fetch) a d : depth P m a d → d < size m.
Proof.
  intros (l & Hlen & Hnd & Hl)%depth_chain.
  assert (l ⊆+ elements (dom m)) as Hsub.
  { apply NoDup_submseteq; [done|]. intros y Hy.
    apply elem_of_elements, elem_of_dom. by apply Hl. }
  apply submseteq_length in Hsub.
  rewrite <-size_dom. unfold size at 1, set_size. simpl. lia.
Qed.

Lemma find_host_total s fl name fuel cur :
  list_ok (heap s) fl →
  (∀ a, cur = Some a → ∃ d, depth prev (heap s) a d ∧ size (heap s) ≤ fuel + d) →
  ∃ r, find_host fuel cur name s = Ok (r, s).
Proof.
  intros [Hc Hd Hq]. revert cur.
  induction fuel as [|k IH]; intros [a|] Hcur; simpl; eauto.
  - destruct (Hcur a eq_refl) as (d & Hdep%depth_bound & Hsz). lia.
  - destruct (Hcur a eq_refl) as (d & Hdep & Hsz).
    assert (∃ x, heap s !! a = Some x) as [x Hx].
    { inversion Hdep; eauto. }
    erewrite bind_run by by apply deref_ok.
    assert (∃ r, find_host k (next x) name s = Ok (r, s)) as Hrec.
    { apply IH. intros b Hb. exists (S d). split; [|lia].
      assert (fld prev (heap s) b = Some a) as (y & Hy & Hp)%fld_Some.
      { apply Hc. by rewrite (fld_lookup _ _ _ _ Hx). }
      by eapply depth_next. }
    destruct (host x); [destruct (_ =? _)%Z|]; eauto.
Qed.

Lemma queue_tail_total s fuel a d :
  consistent queue_next queue_prev (heap s) →
  depth queue_prev (heap s) a d → size (heap s) ≤ fuel + d →
  ∃ t, queue_tail fuel a s = Ok (t, s).
Proof.
  intros Hc. revert a d.
  induction fuel as [|k IH]; intros a d Hdep Hsz; simpl.
  - apply depth_bound in Hdep. lia.
  - assert (∃ x, heap s !! a = Some x) as [x Hx].
    { inversion Hdep; eauto. }
    erewrite bind_run by by apply deref_ok.
    destruct (queue_next x) as [b|] eqn:Eb; [|eauto].
    apply (IH b (S d)); [|lia].
    assert (fld queue_prev (heap s) b = Some a) as (y & Hy & Hp)%fld_Some.
    { apply Hc. by rewrite (fld_lookup _ _ _ _ Hx). }
    by eapply depth_next.
Qed.

Ltac run_step lem := erewrite bind_run; [ | apply lem ].

Lemma activate_total n s x :
  heap s !! n = Some x →
  (∀ b, fetch_list s = Some b → is_Some (heap s !! b)) →
  next_handle (engine s) ∉ multi (engine s) →
  ∃ s', activate n s = Ok (n, s').
Proof.
  destruct s as [m na fl fa [es mu wfl nh] c tr]. simpl.
  intros Hx Hhead Hnh. unfold activate.
  run_step get_ok; [|done]. nrm.
  run_step store_ok; [|split; [eauto|done]]. nrm.
  erewrite bind_run; cycle 1.
  { instantiate (1 := with_heap (wr fl (set_prev (Some n)) (alter (set_next fl) n m))
      {| heap := m; next_addr := na; fetch_list := fl; fetch_active := fa;
         engine := {| easies := es; multi := mu; write_failed := wfl;
                      next_handle := nh |}; cl := c; trace := tr |}).
    instantiate (1 := tt).
    destruct fl as [b|]; [|done].
    apply store_ok. split; [|done]. simpl. rewrite lookup_alter_is_Some. eauto. }
  nrm.
  run_step modify_ok; [|done]. nrm.
  run_step modify_ok; [|done]. nrm.
  run_step easy_init_ok; [|done]. nrm.
  run_step store_ok.
  2:{ split; [|done]. simpl. rewrite lookup_wr_is_Some, lookup_alter_is_Some. eauto. }
  nrm.
  assert (∃ x', alter (set_curl_handle (Some nh)) n
                  (wr fl (set_prev (Some n)) (alter (set_next fl) n m)) !! n
                = Some x') as [x' Hx'].
  { apply lookup_alter_is_Some, lookup_wr_is_Some, lookup_alter_is_Some. eauto. }
  run_step deref_ok; [|split; [exact Hx'|done]]. nrm.
  run_step setopt_ok; [|eexists; split; [apply lookup_insert_eq|done]]. nrm.
  run_step setopt_ok; [|eexists; split; [apply lookup_insert_eq|done]]. nrm.
  run_step setopt_ok; [|eexists; split; [apply lookup_insert_eq|done]]. nrm.
  run_step setopt_ok; [|eexists; split; [apply lookup_insert_eq|done]]. nrm.
  run_step setopt_ok; [|eexists; split; [apply lookup_insert_eq|done]]. nrm.
  rewrite !insert_insert_eq.
  erewrite bind_run; cycle 1.
  { instantiate (1 :=
      {| heap := alter (set_curl_handle (Some nh)) n
                   (wr fl (set_prev (Some n)) (alter (set_next fl) n m));
         next_addr := na; fetch_list := Some n; fetch_active := true;
         engine := {| easies := <[nh := match referer x' with
                                        | Some r => apply_option (CURLOPT_REFERER (Some r))
                                        | None => id
                                        end
                                          (apply_option (CURLOPT_WRITEHEADER n)
                                             (apply_option (CURLOPT_WRITEDATA n)
                                                (apply_option (CURLOPT_ERRORBUFFER n)
                                                   (apply_option (CURLOPT_PRIVATE n)
                                                      (apply_option (CURLOPT_URL (url x'))
                                                         fresh_easy)))))]> es;
                      multi := mu; write_failed := wfl; next_handle := S nh |};
         cl := c; trace := tr |}).
    instantiate (1 := tt).
    destruct (referer x').
    - apply setopt_ok. eexists. split; [apply lookup_insert_eq|].
      nrm. by rewrite insert_insert_eq.
    - done. }
  run_step store_ok; [|split; [simpl; eauto|done]]. nrm.
  assert (∃ x2, alter (set_headers (Some ["Accept:"; "Pragma:"]%string)) n
                  (alter (set_curl_handle (Some nh)) n
                     (wr fl (set_prev (Some n)) (alter (set_next fl) n m))) !! n
                = Some x2) as [x2 Hx2].
  { apply lookup_alter_is_Some. eauto. }
  run_step deref_ok; [|split; [exact Hx2|done]]. nrm.
  run_step setopt_ok; [|eexists; split; [apply lookup_insert_eq|done]]. nrm.
  run_step add_handle_ok.
  2:{ split; [|done]. simpl. rewrite lookup_insert_eq. eauto. }
  eauto.
  Unshelve. all: exact tt.
Qed.

Lemma wf_handle_fresh s : wf s → next_handle (engine s) ∉ multi (engine s).
Proof.
  intros [_ _ _ [Ho Hmu Hfr]] (a & Hp & _)%Hmu.
  assert (is_Some (easies (engine s) !! next_handle (engine s))) as Hl%Hfr; [|lia].
  unfold eopt in Hp. destruct (easies _ !! _); [eauto|done].
Qed.

(** [fetch_start] always returns, and what it returns is the new block. *)
Lemma fetch_start_total u r cb q o s :
  wf s → ∃ s', fetch_start u r cb q o s = Ok (next_addr s, s').
Proof.
  intros Hwf. pose proof (fresh_not_live s Hwf) as Hn.
  pose proof (wf_handle_fresh s Hwf) as Hnh.
  pose proof Hwf as [Hfresh Hq Hl He].
  set (n := next_addr s) in *. set (nf := new_fetch u r cb q o).
  set (m0 := <[n := nf]> (heap s)).
  set (s0 := with_next_addr (S n) (with_heap m0 s)).
  assert (list_ok m0 (fetch_list s)) as Hl0 by by apply list_ok_insert_fresh.
  assert (consistent queue_next queue_prev m0) as Hc0.
  { apply consistent_insert_fresh; try done. apply Hq. }
  assert (Hact : ∃ s', activate n s0 = Ok (n, s')).
  { apply (activate_total n s0 nf); simpl; [apply lookup_insert_eq| |done].
    intros b Hb. apply Hl0 in Hb as [Hb _]. by eapply fld_is_Some. }
  unfold fetch_start.
  rewrite (bind_run _ _ s n s0) by done.
  rewrite (bind_run _ _ s0 nf s0) by (apply deref_ok; split; [apply lookup_insert_eq|done]).
  simpl. destruct (url_host u) as [name|]; [|done].
  rewrite (bind_run _ _ s0 s0 s0) by done.
  destruct (find_host_total s0 (fetch_list s) name (size (heap s0)) (fetch_list s))
    as [[hf|] Hfh]; [done| | |]; cycle 1.
  - rewrite (bind_run _ _ _ _ _ Hfh).
    pose proof Hfh as Hfound.
    eapply (find_host_found _ _ _ _ _ _ (fetch_list s)) in Hfound as [Hhf _];
      [|done|by intros b Hb; apply Hl0].
    simpl in Hhf.
    assert (hf ≠ n) as Hhfn.
    { intros ->. unfold m0 in Hhf. rewrite fld_insert, decide_True in Hhf by done.
      by destruct Hhf. }
    set (s1 := with_heap (alter (set_curl_handle None) n (heap s0)) s0).
    rewrite (bind_run _ _ s0 tt s1).
    2:{ apply store_ok. split; [|done]. simpl. unfold m0. rewrite lookup_insert_eq. eauto. }
    assert (consistent queue_next queue_prev (heap s1)) as Hc1.
    { eapply consistent_ext; [| |exact Hc0]; intros b; simpl; by fld_norm. }
    assert (depth queue_prev (heap s1) hf 0) as Hdep.
    { assert (is_Some (fld curl_handle (heap s) hf)) as Hh.
      { unfold m0 in Hhf. by rewrite fld_insert, decide_False in Hhf. }
      pose proof (fld_is_Some _ _ _ Hh) as Hlive.
      apply Hq in Hh; [|done].
      assert (fld queue_prev (heap s1) hf = None) as Hp.
      { simpl. unfold m0. fld_norm. by rewrite decide_False. }
      assert (is_Some (heap s1 !! hf)) as [y Hy].
      { simpl. rewrite lookup_alter_is_Some. unfold m0.
        by rewrite lookup_insert_ne. }
      rewrite (fld_lookup _ _ _ _ Hy) in Hp. by eapply depth_first. }
    destruct (queue_tail_total s1 (size (heap s0)) hf 0 Hc1 Hdep) as [t Hqt].
    { simpl. assert (size (alter (set_curl_handle None) n m0) = size m0); [|lia].
      rewrite <-!size_dom. f_equal. apply set_eq. intros b.
      by rewrite !elem_of_dom, lookup_alter_is_Some. }
    rewrite (bind_run _ _ _ _ _ Hqt).
    apply queue_tail_found in Hqt as (Htl & _); [|done].
    run_step store_ok.
    2:{ split; [|done]. simpl. rewrite lookup_alter_is_Some. unfold m0.
        rewrite lookup_insert_eq. eauto. }
    run_step store_ok.
    2:{ split; [|done]. simpl in *. by rewrite lookup_alter_is_Some. }
    eauto.
  - by rewrite (bind_run _ _ _ _ _ Hfh).
  - intros a Ha. exists 0. split; [|simpl; lia].
    apply Hl0 in Ha as [Hh Hp]. apply fld_is_Some in Hh as [y Hy].
    simpl. rewrite (fld_lookup _ _ _ _ Hy) in Hp. by eapply depth_first.
  Unshelve. all: exact tt.
Qed.

(** ** From [fetch_start] and [fetch_abort] to the callbacks of the engine *)

Lemma reachable_with_wf fair s : reachable_with fair s → wf s.
Proof.
  induction 1 as [c|s u r cb q o a s' _ IH Hs|s f s' _ IH Hs|s w ms s' _ IH _ Hs|s c _ IH].
  - apply wf_init.
  - by eapply wf_fetch_start.
  - by eapply wf_fetch_abort.
  - by eapply fetch_poll_wf_keep.
  - eapply wf_ext; [|done]. by split.
Qed.

Lemma reachable_wf s : reachable s → wf s.
Proof. apply reachable_with_wf. Qed.

Lemma reachable_with_weaken fair s : reachable_with fair s → reachable s.
Proof.
  induction 1; [apply reach_init|by eapply reach_start|by eapply reach_abort
               |by eapply reach_poll|by apply reach_client].
Qed.

(** A relation kept by [fetch_start], [fetch_abort] and the single
    assignments is kept by everything the caller's callback and the engine's
    callbacks do. *)
Section Lift.
Context (R : relation sched) `{!PreOrder R}.
Context (okev : fetch_msg → payload → Prop).
Hypothesis R_abort : ∀ f, steps R (fetch_abort f).
Hypothesis R_start : ∀ u r cb q o, steps R (fetch_start u r cb q o).
Hypothesis R_store : ∀ s a x g,
  heap s !! a = Some x → neutral g → R s (with_heap (<[a := g x]> (heap s)) s).
Hypothesis R_log : ∀ s e,
  okev (ev_msg e) (ev_data e) → R s (with_trace (trace s ++ [e]) s).
Hypothesis R_cl : ∀ s c, R s (with_cl c s).

Ltac lift_leaf :=
  first
    [ reflexivity
    | by (eapply R_store; [eassumption | constructor])
    | by apply R_cl
    | by apply R_log ].

Lemma lift_run q : steps R (run q).
Proof.
  induction q as [c|f k IH|u r cb IHcb q0 o k IH]; simpl.
  - steps_go lift_leaf.
  - apply steps_bind; [apply _ | apply R_abort | done].
  - apply steps_bind; [apply _ | apply R_start | done].
Qed.

Lemma lift_call cb f m q d z : okev m d → steps R (call cb f m q d z).
Proof.
  intros Hok. unfold call. apply steps_bind; [apply _| |intros _].
  - steps_go lift_leaf.
  - apply steps_bind; [apply _| |intros s0].
    + steps_go lift_leaf.
    + apply lift_run.
Qed.

Lemma lift_call_own f m d z : okev m d → steps R (call_own f m d z).
Proof.
  intros Hok. unfold call_own. apply steps_bind; [apply _| |intros fr].
  - steps_go lift_leaf.
  - by apply lift_call.
Qed.

Lemma lift_process_headers f :
  (∀ m d, from_headers m d → okev m d) → steps R (fetch_process_headers f).
Proof.
  intros Hok.
  assert (∀ m d z, from_headers m d → steps R (call_own f m d z)) as Hc.
  { intros. apply lift_call_own. auto. }
  assert (∀ l z, steps R (call_own f FETCH_REDIRECT
            (match l with Some l => PLocation l | None => PNull end) z)).
  { intros [l|] z; apply Hc; constructor. }
  assert (∀ r z, steps R (call_own f FETCH_AUTH (PRealm r) z)).
  { intros; apply Hc; constructor. }
  assert (∀ t z, steps R (call_own f FETCH_ERROR (PMessage t) z)).
  { intros; apply Hc; constructor. }
  assert (∀ t z, steps R (call_own f FETCH_TYPE (PMime t) z)).
  { intros; apply Hc; constructor. }
  unfold fetch_process_headers.
  steps_go lift_leaf.
Qed.

Lemma lift_curl_header d f : steps R (fetch_curl_header d f).
Proof. unfold fetch_curl_header. steps_go lift_leaf. Qed.

Lemma lift_resolve_done res cb f :
  (∀ m d, from_headers m d → okev m d) →
  (∀ t, okev FETCH_ERROR (PErrorBuffer t)) →
  steps R (resolve_done res cb f).
Proof.
  intros Hh He. pose proof (lift_process_headers f Hh).
  assert (∀ q t, steps R (call cb f FETCH_ERROR q (PErrorBuffer t) 0)).
  { intros. by apply lift_call. }
  unfold resolve_done. steps_go lift_leaf.
Qed.

Lemma lift_finish res f :
  (∀ m d, from_headers m d → okev m d) →
  (∀ m d, from_poll m d → okev m d) →
  steps R (finish res f).
Proof.
  intros Hh Hp. unfold finish.
  apply steps_bind; [apply _| |intros fr]; [steps_go lift_leaf|].
  apply steps_bind; [apply _| |intros finished].
  { apply lift_resolve_done; [done|]. intros. apply Hp. constructor. }
  apply steps_bind; [apply _|apply R_abort|intros _].
  destruct finished; [|apply steps_ret; apply _].
  apply lift_call, Hp. constructor.
Qed.

Lemma lift_process_msg m :
  (∀ m d, from_headers m d → okev m d) →
  (∀ m d, from_poll m d → okev m d) →
  steps R (process_msg m).
Proof.
  intros Hh Hp. pose proof (λ res f, lift_finish res f Hh Hp).
  unfold process_msg. steps_go lift_leaf.
Qed.

(** The engine's side: it keeps [R] if the data callback and the engine's
    own book-keeping do. *)
Hypothesis R_engine : ∀ s c,
  multi c = multi (engine s) → next_handle c = next_handle (engine s) →
  (∀ h, opts_of <$> (easies c !! h) = opts_of <$> (easies (engine s) !! h)) →
  write_failed (engine s) ⊆ write_failed c →
  R s (with_engine c s).

Lemma lift_perform t :
  (∀ d f, steps R (fetch_curl_data d f)) → steps R (perform t).
Proof.
  intros Hdata. pose proof lift_curl_header as Hhead.
  intros s u s' Hs. unfold perform in Hs.
  apply bind_ok in Hs as (s0 & ? & [-> ->]%get_ok & Hs).
  destruct t as [h code ct|h line|h data];
    destruct (easies (engine s) !! h) as [e|] eqn:He;
    try (apply ret_ok in Hs as [_ ->]; reflexivity).
  - destruct (_ && _).
    + apply modify_ok in Hs as ->. apply R_engine; [done|done| |done].
      intros h'. simpl. rewrite lookup_insert. case_decide; [|done].
      subst. by rewrite He.
    + apply ret_ok in Hs as [_ ->]. reflexivity.
  - destruct (opt_writeheader e); [destruct (_ && _)|];
      try (apply ret_ok in Hs as [_ ->]; reflexivity).
    apply bind_ok in Hs as (k & s1 & Hs1 & [_ ->]%ret_ok).
    by eapply Hhead.
  - destruct (opt_writedata e); [destruct (_ && _)|];
      try (apply ret_ok in Hs as [_ ->]; reflexivity).
    apply bind_ok in Hs as (k & s1 & Hs1 & Hs).
    etrans; [by eapply Hdata|].
    case_bool_decide.
    + apply ret_ok in Hs as [_ ->]. reflexivity.
    + apply modify_ok in Hs as ->. apply R_engine; [done|done|done|]. simpl. set_solver.
Qed.

(** The two loops of [fetch_poll]. *)
Lemma lift_work work :
  (∀ d f, steps R (fetch_curl_data d f)) → steps R (for_each perform work).
Proof.
  intros Hdata. apply steps_for_each; [apply _|]. intros t. by apply lift_perform.
Qed.

Lemma lift_msgs msgs :
  (∀ m d, okev m d) → steps R (for_each process_msg msgs).
Proof.
  intros Hok. apply steps_for_each; [apply _|]. intros t.
  apply lift_process_msg; auto.
Qed.

(** The data callback, when setting [in_callback] keeps [R] as well. *)
Hypothesis R_enter : ∀ s a x,
  heap s !! a = Some x → R s (with_heap (<[a := set_in_callback true x]> (heap s)) s).

Lemma lift_curl_data d f :
  (∀ m d, from_headers m d → okev m d) → (∀ t, okev FETCH_DATA (PChunk t)) →
  steps R (fetch_curl_data d f).
Proof.
  intros Hh Hd. pose proof (lift_process_headers f Hh).
  assert (∀ t z, steps R (call_own f FETCH_DATA (PChunk t) z)).
  { intros. by apply lift_call_own. }
  unfold fetch_curl_data.
  steps_go ltac:(first [lift_leaf | by eapply R_enter]).
Qed.

End Lift.
(** ** The flag [fetch_active] *)


#[local] Instance same_active_po : PreOrder same_active.
Proof. split; unfold same_active; [done | congruence]. Qed.

#[local] Instance active_stays_po : PreOrder active_stays.
Proof. split; unfold active_stays; auto. Qed.

Lemma fetch_abort_same_active f : steps same_active (fetch_abort f).
Proof.
  unfold fetch_abort, unlink, start_queued, release.
  steps_go ltac:(by unfold same_active).
Qed.

Lemma fetch_abort_active_stays f : steps active_stays (fetch_abort f).
Proof.
  intros s a s' Hs Ht. by rewrite (fetch_abort_same_active f s a s' Hs).
Qed.

Lemma fetch_start_active_stays u r cb q o :
  steps active_stays (fetch_start u r cb q o).
Proof.
  unfold fetch_start, activate.
  steps_go ltac:(by unfold active_stays);
    first [ apply steps_find_host | apply steps_queue_tail ]; apply _.
Qed.

Lemma run_active_stays q : steps active_stays (run q).
Proof.
  induction q as [c|f k IH|u r cb IHcb q0 o k IH]; simpl.
  - steps_go ltac:(by unfold active_stays).
  - apply steps_bind; [apply _ | apply fetch_abort_active_stays | done].
  - apply steps_bind; [apply _ | apply fetch_start_active_stays | done].
Qed.


(** ** What [fetch_start] and [fetch_abort] leave alone *)

#[local] Instance grows_po : PreOrder grows.
Proof.
  split.
  - intros s. split; [done|]. intros a y Hy. left. eauto.
  - intros s1 s2 s3 [Hn1 H1] [Hn2 H2]. split; [lia|].
    intros a y Hy. destruct (H2 a y Hy) as [(x & Hx & Hd)|[Ha Hnew]].
    + destruct (H1 a x Hx) as [(x0 & Hx0 & Hd0)|[Ha Hnew]].
      * left. exists x0. split; [done|congruence].
      * right. split; [lia|]. rewrite Hd. done.
    + right. split; [lia|done].
Qed.

Lemma grows_insert s a x y :
  heap s !! a = Some x → data_of y = data_of x →
  grows s (with_heap (<[a := y]> (heap s)) s).
Proof.
  intros Hx Hd. split; [done|]. intros b z Hz. left. simpl in Hz.
  rewrite lookup_insert in Hz. case_decide; [subst; injection Hz as <-|]; eauto.
Qed.

Lemma grows_delete s a : grows s (with_heap (delete a (heap s)) s).
Proof.
  split; [done|]. intros b z Hz. left. simpl in Hz.
  rewrite lookup_delete in Hz. case_decide; simplify_eq; eauto.
Qed.

Lemma grows_alloc s u r cb q o :
  grows s (with_next_addr (S (next_addr s))
             (with_heap (<[next_addr s := new_fetch u r cb q o]> (heap s)) s)).
Proof.
  split; [simpl; lia|]. intros b z Hz. simpl in Hz.
  rewrite lookup_insert in Hz. case_decide; simplify_eq.
  - right. simpl. split; [lia|]. eauto 10.
  - left. eauto.
Qed.

Lemma grows_same s s' :
  heap s' = heap s → next_addr s' = next_addr s → grows s s'.
Proof.
  intros Hh Hn. split; [lia|]. intros b z Hz. left. rewrite Hh in Hz. eauto.
Qed.

Ltac grows_leaf :=
  first
    [ reflexivity
    | by eapply grows_insert
    | by apply grows_delete
    | by apply grows_alloc
    | by apply grows_same ].

Lemma fetch_abort_grows f : steps grows (fetch_abort f).
Proof.
  unfold fetch_abort, unlink, start_queued, release. steps_go grows_leaf.
Qed.

Lemma fetch_start_grows u r cb q o : steps grows (fetch_start u r cb q o).
Proof.
  unfold fetch_start, activate.
  steps_go grows_leaf;
    first [ apply steps_find_host | apply steps_queue_tail ]; apply _.
Qed.

Lemma run_grows q : steps grows (run q).
Proof.
  induction q as [c|f k IH|u r cb IHcb q0 o k IH]; simpl.
  - steps_go grows_leaf.
  - apply steps_bind; [apply _ | apply fetch_abort_grows | done].
  - apply steps_bind; [apply _ | apply fetch_start_grows | done].
Qed.

(** ** The flag [in_callback] *)

#[local] Instance calm_po : PreOrder calm.
Proof. split; unfold calm; auto. Qed.

Lemma grows_calm s s' : grows s s' → calm s s'.
Proof.
  intros [_ Hg] a (y & Hy & Hb).
  destruct (Hg a y Hy) as [(x & Hx & Hd)|[_ (u & r & cb & q & o & Hd)]].
  - exists x. split; [done|]. injection Hd. congruence.
  - injection Hd. simpl. congruence.
Qed.

Lemma calm_quiet s s' : calm s s' → quiet s → quiet s'.
Proof. intros Hc Hq a Hb. eapply Hq, Hc, Hb. Qed.

Lemma calm_store s a x g :
  heap s !! a = Some x → neutral g → calm s (with_heap (<[a := g x]> (heap s)) s).
Proof.
  intros Hx Hg b (y & Hy & Hb). simpl in Hy.
  rewrite lookup_insert in Hy. case_decide; simplify_eq; [|by exists y].
  exists x. split; [done|]. by destruct Hg.
Qed.

Lemma calm_heap s s' : heap s' = heap s → calm s s'.
Proof. intros Hh a (y & Hy & Hb). exists y. by rewrite <-Hh. Qed.

Lemma fetch_abort_calm f : steps calm (fetch_abort f).
Proof. intros s u s' Hs. by eapply grows_calm, fetch_abort_grows. Qed.

Lemma fetch_start_calm u r cb q o : steps calm (fetch_start u r cb q o).
Proof. intros s a s' Hs. by eapply grows_calm, fetch_start_grows. Qed.

Ltac calm_side :=
  first
    [ exact fetch_abort_calm
    | exact fetch_start_calm
    | exact calm_store
    | by (intros; apply calm_heap)
    | done ].

Lemma process_headers_calm f : steps calm (fetch_process_headers f).
Proof.
  apply (lift_process_headers calm (λ _ _, True)); calm_side.
Qed.

Lemma call_own_calm f m d z : steps calm (call_own f m d z).
Proof.
  apply (lift_call_own calm (λ _ _, True)); calm_side.
Qed.

Lemma resolve_done_calm res cb f : steps calm (resolve_done res cb f).
Proof.
  apply (lift_resolve_done calm (λ _ _, True)); calm_side.
Qed.

(** [fetch_curl_data] sets the flag of [f] and clears it again. *)
Lemma fetch_curl_data_calm d f : steps calm (fetch_curl_data d f).
Proof.
  intros s n s' Hs. unfold fetch_curl_data in Hs.
  apply bind_ok in Hs as ([] & s1 & Hs1 & Hs).
  apply bind_ok in Hs as (fr & s1' & [Hfr ->]%deref_ok & Hs).
  apply bind_ok in Hs as (rejected & s2 & Hs2 & Hs).
  assert (calm s1 s2) as H12.
  { destruct (had_headers fr).
    - apply ret_ok in Hs2 as [_ ->]. reflexivity.
    - by eapply process_headers_calm. }
  assert (∃ s3, calm s2 s3 ∧ store f (set_in_callback false) s3 = Ok (tt, s'))
    as (s3 & H23 & Hs3).
  { destruct rejected.
    - apply bind_ok in Hs as ([] & s4 & Hs4 & [_ ->]%ret_ok).
      exists s2. split; [reflexivity|done].
    - apply bind_ok in Hs as ([] & s3 & Hs3 & Hs).
      apply bind_ok in Hs as ([] & s4 & Hs4 & [_ ->]%ret_ok).
      exists s3. split; [by eapply call_own_calm|done]. }
  unfold store in Hs1, Hs3.
  destruct (heap s !! f) as [x0|] eqn:Hx; [|done].
  destruct (heap s3 !! f) as [x3|] eqn:Hx3; [|done].
  simplify_eq. intros a (y & Hy & Hb). simpl in Hy.
  rewrite lookup_insert in Hy. case_decide; simplify_eq.
  assert (busy (with_heap (<[f := set_in_callback true x0]> (heap s)) s) a)
    as (z & Hz & Hzb).
  { apply H12, H23. by exists y. }
  simpl in Hz. rewrite lookup_insert in Hz. case_decide; simplify_eq.
  by exists z.
Qed.

Lemma fetch_poll_calm work msgs : steps calm (fetch_poll work msgs).
Proof.
  unfold fetch_poll.
  apply steps_bind; [apply _| |intros _].
  { apply (lift_work calm (λ _ _, True));
      first [exact fetch_curl_data_calm | calm_side]. }
  apply steps_bind; [apply _| |intros _].
  { apply (lift_msgs calm (λ _ _, True)); calm_side. }
  steps_go ltac:(by apply calm_heap).
Qed.

(** Between two calls no fetch has [in_callback] set. *)
Lemma reachable_quiet s : reachable s → quiet s.
Proof.
  induction 1 as [c|s u r cb q o a s' _ IH Hs|s f s' _ IH Hs|s w ms s' _ IH _ Hs|s c _ IH].
  - intros a (x & Hx & _). simpl in Hx. by rewrite lookup_empty in Hx.
  - eapply calm_quiet; [|done]. by eapply fetch_start_calm.
  - eapply calm_quiet; [|done]. by eapply fetch_abort_calm.
  - eapply calm_quiet; [|done]. by eapply fetch_poll_calm.
  - done.
Qed.

(** ** The messages to the caller *)

#[local] Instance same_trace_po : PreOrder same_trace.
Proof. split; unfold same_trace; [done | congruence]. Qed.

#[local] Instance emits_po P : PreOrder (emits P).
Proof.
  split.
  - intros s. exists []. by rewrite app_nil_r.
  - intros s1 s2 s3 (l1 & H1 & P1) (l2 & H2 & P2). exists (l1 ++ l2).
    split; [by rewrite H2, H1, (assoc _)|]. by apply Forall_app.
Qed.

Lemma same_trace_emits P s s' : same_trace s s' → emits P s s'.
Proof. intros Ht. exists []. by rewrite app_nil_r. Qed.

Lemma fetch_abort_same_trace f : steps same_trace (fetch_abort f).
Proof.
  unfold fetch_abort, unlink, start_queued, release.
  steps_go ltac:(by unfold same_trace).
Qed.

Lemma fetch_start_same_trace u r cb q o :
  steps same_trace (fetch_start u r cb q o).
Proof.
  unfold fetch_start, activate.
  steps_go ltac:(by unfold same_trace);
    first [ apply steps_find_host | apply steps_queue_tail ]; apply _.
Qed.

Lemma run_same_trace q : steps same_trace (run q).
Proof.
  induction q as [c|f k IH|u r cb IHcb q0 o k IH]; simpl.
  - steps_go ltac:(by unfold same_trace).
  - apply steps_bind; [apply _ | apply fetch_abort_same_trace | done].
  - apply steps_bind; [apply _ | apply fetch_start_same_trace | done].
Qed.

(** A call of the caller's callback adds its message to the trace, and
    nothing else. *)
Lemma call_trace cb f m q d z s u s' :
  call cb f m q d z s = Ok (u, s') →
  trace s' = trace s ++ [{| ev_fetch := f; ev_msg := m; ev_p := q;
                             ev_data := d; ev_size := z |}].
Proof.
  unfold call. intros ([] & s1 & ->%modify_ok & Hs)%bind_ok.
  apply bind_ok in Hs as (s2 & ? & [-> ->]%get_ok & Hs).
  by apply run_same_trace in Hs.
Qed.

Section Emits.
Context (P : event → Prop).

Let okev (m : fetch_msg) (d : payload) : Prop :=
  ∀ f q z, P {| ev_fetch := f; ev_msg := m; ev_p := q; ev_data := d; ev_size := z |}.

Lemma emits_abort f : steps (emits P) (fetch_abort f).
Proof. intros s u s' Hs. by eapply same_trace_emits, fetch_abort_same_trace. Qed.

Lemma emits_start u r cb q o : steps (emits P) (fetch_start u r cb q o).
Proof. intros s u' s' Hs. by eapply same_trace_emits, fetch_start_same_trace. Qed.

Lemma emits_silent s s' : trace s' = trace s → emits P s s'.
Proof. apply same_trace_emits. Qed.

Lemma emits_log s e :
  okev (ev_msg e) (ev_data e) → emits P s (with_trace (trace s ++ [e]) s).
Proof.
  intros Hok. exists [e]. split; [done|]. apply Forall_singleton.
  destruct e. apply Hok.
Qed.

Lemma process_headers_emits f :
  (∀ m d, from_headers m d → okev m d) → steps (emits P) (fetch_process_headers f).
Proof.
  intros Hh. apply (lift_process_headers (emits P) okev);
    auto using emits_abort, emits_start, emits_log.
  all: intros; by apply emits_silent.
Qed.

End Emits.

(** ** Freed blocks *)

Lemma fetch_abort_dead f s : heap s !! f = None → fetch_abort f s = Fault UseAfterFree.
Proof. intros Hf. unfold fetch_abort. apply bind_fault. unfold deref. by rewrite Hf. Qed.

(** After the cleanup proper, the block is gone. *)
Lemma fetch_abort_frees f s u s' :
  fetch_abort f s = Ok (u, s') → ¬ busy s f → heap s' !! f = None.
Proof.
  intros (fr & Hf & Hs)%fetch_abort_ok Hb.
  destruct (in_callback fr) eqn:Hic; [destruct Hb; by exists fr|].
  destruct Hs as (_ & _ & _ & Hs).
  destruct (curl_handle fr) as [h|], (queue_next fr) as [g|].
  - destruct Hs as (gr & e & _ & _ & _ & ->). simpl. apply lookup_delete_eq.
  - destruct Hs as (_ & _ & _ & ->). simpl. apply lookup_delete_eq.
  - destruct Hs as (_ & _ & _ & ->). simpl. apply lookup_delete_eq.
  - destruct Hs as (_ & _ & _ & ->). simpl. apply lookup_delete_eq.
Qed.

(** ** The completion of a fetch in [fetch_poll] *)

Lemma finish_inv res f s u s' :
  finish res f s = Ok (u, s') →
  ∃ fr finished s1 s2,
    heap s !! f = Some fr ∧
    resolve_done res (callback fr) f s = Ok (finished, s1) ∧
    fetch_abort f s1 = Ok (tt, s2) ∧
    if (finished : bool)
    then call (callback fr) f FETCH_FINISHED (p fr) PNull 0 s2 = Ok (tt, s')
    else s' = s2.
Proof.
  unfold finish. intros (fr & ? & [Hf ->]%deref_ok & Hs)%bind_ok.
  apply bind_ok in Hs as (finished & s1 & Hs1 & Hs).
  apply bind_ok in Hs as ([] & s2 & Hs2 & Hs).
  exists fr, finished, s1, s2. repeat split; try done.
  destruct finished; [by destruct u|]. by apply ret_ok in Hs as [_ ->].
Qed.

Lemma resolve_done_emits (P : event → Prop) res cb f :
  (∀ m d a q z, from_headers m d →
     P {| ev_fetch := a; ev_msg := m; ev_p := q; ev_data := d; ev_size := z |}) →
  (∀ t a q z,
     P {| ev_fetch := a; ev_msg := FETCH_ERROR; ev_p := q;
          ev_data := PErrorBuffer t; ev_size := z |}) →
  steps (emits P) (resolve_done res cb f).
Proof.
  intros Hh He.
  apply (lift_resolve_done (emits P)
           (λ m d, ∀ a q z, P {| ev_fetch := a; ev_msg := m; ev_p := q;
                                 ev_data := d; ev_size := z |}));
    first
      [ exact (emits_abort P)
      | exact (emits_start P)
      | exact (emits_log P)
      | by (intros; apply emits_silent)
      | by (intros; apply He)
      | by (intros; apply Hh) ].
Qed.

(** The cleanup hands the handle to the next fetch of the queue. *)
Lemma fetch_abort_promotes f s u s' h g :
  wf s → ¬ busy s f →
  fld curl_handle (heap s) f = Some h → fld queue_next (heap s) f = Some g →
  fetch_abort f s = Ok (u, s') →
  fld curl_handle (heap s') g = Some h ∧ fetch_list s' = Some g.
Proof.
  intros Hwf Hb Hh Hg Hs.
  assert (g ≠ f) as Hgf.
  { intros ->. apply (q_links _ (wf_queue _ Hwf)) in Hg.
    assert (fld queue_prev (heap s) f = None) as Hn; [|congruence].
    apply (q_I1 _ (wf_queue _ Hwf)); [by eapply fld_live|]. by rewrite Hh. }
  apply fetch_abort_ok in Hs as (fr & Hf & Hs).
  rewrite (fld_lookup _ _ _ _ Hf) in Hh. rewrite (fld_lookup _ _ _ _ Hf) in Hg.
  destruct (in_callback fr) eqn:Hic; [destruct Hb; by exists fr|].
  destruct Hs as (_ & _ & _ & Hs). rewrite Hh, Hg in Hs.
  destruct Hs as (gr & e & Hgr & _ & _ & ->). simpl. split; [|done].
  rewrite fld_delete, decide_False by done. unfold promoted. fld_norm.
  rewrite decide_True by done. apply fld_const_live.
  repeat first [rewrite lookup_alter_is_Some | rewrite lookup_wr_is_Some].
  apply spliceL_is_Some. eauto.
Qed.

(** ** The two loops of [fetch_start], and what they find *)

Lemma chain_live N m c a : chain N m c a → is_Some (m !! c) ∧ is_Some (m !! a).
Proof.
  induction 1 as [a Ha|a b c Hab Hbc [_ IH]]; [done|].
  split; [by eapply fld_live|done].
Qed.

Lemma chain_mono N (m m' : gmap addr fetch) c a :
  (∀ b, is_Some (m !! b) → m' !! b = m !! b) → chain N m c a → chain N m' c a.
Proof.
  intros Hm. induction 1 as [a Ha|a b c Hab Hbc IH].
  - apply chain_here. by rewrite Hm.
  - eapply chain_step; [|done].
    unfold fld in *. rewrite Hm; [done|]. by destruct (m !! a).
Qed.

(** A chain in a heap with one more block, which nothing points to, is a
    chain of the old heap. *)
Lemma chain_back N (m m' : gmap addr fetch) n c a :
  (∀ b, b ≠ n → m' !! b = m !! b) → (∀ b, fld N m b ≠ Some n) → c ≠ n →
  chain N m' c a → chain N m c a.
Proof.
  intros Hm Hn Hc Hch. induction Hch as [a Ha|a b c Hab Hbc IH].
  - apply chain_here. by rewrite <-Hm.
  - assert (fld N m a = Some b) as Hab'.
    { unfold fld in *. by rewrite <-Hm. }
    eapply chain_step; [done|]. apply IH. intros ->. by eapply Hn.
Qed.

(** The first fetch with [P] is found by a chain, and has [P]. *)
Lemma first_from_chain N m P c a : first_from N m P c a → chain N m c a ∧ P a.
Proof.
  induction 1 as [a Ha HP|a b c HP Hab Hbc [IH1 IH2]].
  - split; [by apply chain_here|done].
  - split; [by eapply chain_step|done].
Qed.

(** As [chain_back], for the first fetch with a property that the new block
    does not change for the others. *)
Lemma first_from_back N (m m' : gmap addr fetch) n (P P' : addr → Prop) c a :
  (∀ b, b ≠ n → m' !! b = m !! b) → (∀ b, fld N m b ≠ Some n) → c ≠ n →
  (∀ b, b ≠ n → (P' b ↔ P b)) →
  first_from N m' P' c a → first_from N m P c a.
Proof.
  intros Hm Hn Hc HP Hf. induction Hf as [a Ha Hp|a b c Hp Hab Hbc IH].
  - apply first_here; [by rewrite <-Hm|by apply HP].
  - assert (fld N m a = Some b) as Hab'.
    { unfold fld in *. by rewrite <-Hm. }
    eapply first_step; [by rewrite <-HP|done|].
    apply IH. intros ->. by eapply Hn.
Qed.

(** The host search returns the first fetch from the host. *)
Lemma find_host_first fuel cur name s hf s' :
  find_host fuel cur name s = Ok (Some hf, s') →
  ∃ c, cur = Some c ∧ first_from next (heap s) (same_host (heap s) name) c hf.
Proof.
  revert cur. induction fuel as [|k IH]; intros [c|]; simpl; try done;
    try (by intros [[=] _]%ret_ok).
  intros (x & ? & [Hc ->]%deref_ok & Hs)%bind_ok.
  assert (find_host k (next x) name s = Ok (Some hf, s') →
          ¬ same_host (heap s) name c →
          ∃ c0, Some c = Some c0 ∧
            first_from next (heap s) (same_host (heap s) name) c0 hf) as Hrec.
  { intros Hk Hno. apply IH in Hk as (c' & Hn & Hf). exists c. split; [done|].
    eapply first_step; [done| |done]. by rewrite (fld_lookup _ _ _ _ Hc). }
  destruct (host x) as [other|] eqn:Hh.
  - destruct (Z.eqb_spec (strcasecmp other name) 0) as [He|He].
    + apply ret_ok in Hs as [[= E] ->]. subst hf. exists c. split; [done|].
      apply first_here; [eauto|]. exists other.
      by rewrite (fld_lookup _ _ _ _ Hc).
    + apply Hrec; [done|]. intros (o' & Ho & He').
      rewrite (fld_lookup _ _ _ _ Hc), Hh in Ho. congruence.
  - apply Hrec; [done|]. intros (o' & Ho & He').
    rewrite (fld_lookup _ _ _ _ Hc), Hh in Ho. congruence.
Qed.

Lemma find_host_spec fuel cur name s r s' :
  find_host fuel cur name s = Ok (r, s') →
  match r with
  | Some hf => ∃ c, cur = Some c ∧ chain next (heap s) c hf ∧
                 same_host (heap s) name hf
  | None => ∀ c a, cur = Some c → chain next (heap s) c a →
              ¬ same_host (heap s) name a
  end.
Proof.
  revert cur. induction fuel as [|k IH]; intros [c|]; simpl; try done;
    try (intros [E ->]%ret_ok; subst; by intros).
  intros (hf & ? & [Hc ->]%deref_ok & Hs)%bind_ok.
  assert (find_host k (next hf) name s = Ok (r, s') →
            ¬ same_host (heap s) name c →
            match r with
            | Some hf => ∃ c0, Some c = Some c0 ∧ chain next (heap s) c0 hf ∧
                           same_host (heap s) name hf
            | None => ∀ c0 a, Some c = Some c0 → chain next (heap s) c0 a →
                        ¬ same_host (heap s) name a
            end) as Hrec.
    { intros Hk Hno. apply IH in Hk. destruct r as [hf'|].
      - destruct Hk as (c' & Hn & Hch & Hsame). exists c. split; [done|].
        split; [|done]. eapply chain_step; [|done].
        by rewrite (fld_lookup _ _ _ _ Hc).
      - intros c0 a [= <-] Hch. inversion Hch as [|? b ? Hab Hbc]; subst; [done|].
        eapply Hk; [|done]. by rewrite (fld_lookup _ _ _ _ Hc) in Hab. }
    destruct (host hf) as [other|] eqn:Hh.
    + destruct (Z.eqb_spec (strcasecmp other name) 0) as [He|He].
      * apply ret_ok in Hs as [E ->]. subst. exists c. split; [done|].
        split; [apply chain_here; eauto|]. exists other.
        by rewrite (fld_lookup _ _ _ _ Hc).
      * apply Hrec; [done|]. intros (o' & Ho & He').
        rewrite (fld_lookup _ _ _ _ Hc), Hh in Ho. congruence.
    + apply Hrec; [done|]. intros (o' & Ho & He').
      rewrite (fld_lookup _ _ _ _ Hc), Hh in Ho. congruence.
Qed.

Lemma queue_tail_spec fuel a s t s' :
  queue_tail fuel a s = Ok (t, s') →
  chain queue_next (heap s) a t ∧ fld queue_next (heap s) t = None.
Proof.
  revert a. induction fuel as [|k IH]; intros a; simpl; [done|].
  intros (hf & ? & [Ha ->]%deref_ok & Hs)%bind_ok.
  destruct (queue_next hf) as [b|] eqn:Hn.
  - apply IH in Hs as [Hch Ht]. split; [|done].
    eapply chain_step; [|done]. by rewrite (fld_lookup _ _ _ _ Ha).
  - apply ret_ok in Hs as [E ->]. subst. split; [apply chain_here; eauto|].
    by rewrite (fld_lookup _ _ _ _ Ha).
Qed.

(** No link leads to a block that is not allocated. *)
Lemma wf_no_dangling_next s b n :
  wf s → heap s !! n = None → fld next (heap s) b ≠ Some n.
Proof.
  intros Hwf Hn Hb. apply (l_links _ _ (wf_list _ Hwf)) in Hb.
  apply fld_live in Hb as [x Hx]. congruence.
Qed.

Lemma wf_no_dangling_queue_next s b n :
  wf s → heap s !! n = None → fld queue_next (heap s) b ≠ Some n.
Proof.
  intros Hwf Hn Hb. apply (q_links _ (wf_queue _ Hwf)) in Hb.
  apply fld_live in Hb as [x Hx]. congruence.
Qed.

(** [fetch_start] for a host that has a fetch in [fetch_list]. *)
Lemma fetch_start_queues_first u r cb q o s name a :
  wf s → url_host u = Some name →
  listed s a → same_host (heap s) name a →
  let n := next_addr s in
  ∃ hf t s',
    fetch_start u r cb q o s = Ok (n, s') ∧
    first_listed s name hf ∧
    chain queue_next (heap s) hf t ∧ fld queue_next (heap s) t = None ∧
    s' = with_heap (enqueued n t (<[n := new_fetch u r cb q o]> (heap s)))
           (with_next_addr (S n) s).
Proof.
  intros Hwf Hu (head & Hhead & Hch) Hsame. simpl.
  pose proof (fresh_not_live s Hwf) as Hn.
  destruct (fetch_start_total u r cb q o s Hwf) as [s' Hs].
  pose proof Hs as Hs0.
  apply fetch_start_ok in Hs0 as [_ Hs0]. simpl in Hs0.
  remember (next_addr s) as n eqn:En.
  remember (<[n := new_fetch u r cb q o]> (heap s)) as m0 eqn:Em0.
  assert (∀ b, b ≠ n → m0 !! b = heap s !! b) as Hm0.
  { intros b Hb. subst m0. by rewrite lookup_insert_ne. }
  assert (∀ b, is_Some (heap s !! b) → m0 !! b = heap s !! b) as Hm0'.
  { intros b [x Hx]. apply Hm0. intros ->. congruence. }
  assert (∀ T (pr : fetch → option T) b, b ≠ n → fld pr m0 b = fld pr (heap s) b)
    as Hfld.
  { intros T pr b Hb. unfold fld. by rewrite Hm0. }
  assert (head ≠ n) as Hheadn.
  { intros ->. apply chain_live in Hch as [[x Hx] _]. congruence. }
  destruct Hs0 as [(name' & hf & t & Hu' & Hfh & Hqt & ->)|[Hno _]].
  - rewrite Hu in Hu'. injection Hu' as <-.
    apply find_host_first in Hfh as (c & Hc & Hfirst). simpl in Hfirst.
    rewrite Hhead in Hc. injection Hc as <-.
    destruct (first_from_chain _ _ _ _ _ Hfirst) as [Hchf Hsf].
    apply queue_tail_spec in Hqt as [Hcht Ht]. simpl in Hcht, Ht.
    assert (chain next (heap s) head hf) as Hchf'.
    { eapply (chain_back _ _ m0 n); try done.
      intros b. by apply wf_no_dangling_next. }
    assert (hf ≠ n) as Hhfn.
    { intros ->. apply chain_live in Hchf' as [_ [x Hx]]. congruence. }
    assert (chain queue_next (heap s) hf t) as Hcht'.
    { eapply (chain_back _ _ (alter (set_curl_handle None) n m0) n); try done.
      - intros b Hb. rewrite lookup_alter_ne by done. by apply Hm0.
      - intros b. by apply wf_no_dangling_queue_next. }
    assert (t ≠ n) as Htn.
    { intros ->. apply chain_live in Hcht' as [_ [x Hx]]. congruence. }
    exists hf, t. eexists. split; [done|]. split.
    { exists head. split; [done|].
      apply (first_from_back next (heap s) m0 n (same_host (heap s) name)
               (same_host m0 name) head hf);
        [exact Hm0 | intros b; by apply wf_no_dangling_next | exact Hheadn
        | intros b Hb; unfold same_host; by rewrite Hfld | exact Hfirst]. }
    split; [done|]. split; [|done].
    rewrite <-Ht. rewrite fld_alter_other by done. by rewrite Hfld.
  - exfalso. destruct Hno as [Hno|(name' & Hu' & Hfh)]; [congruence|].
    rewrite Hu in Hu'. injection Hu' as <-.
    apply find_host_spec in Hfh. simpl in Hfh.
    eapply (Hfh head a); [done| |].
    + by eapply chain_mono.
    + destruct Hsame as (other & Ho & He). exists other. split; [|done].
      rewrite <-Ho. unfold fld. rewrite Hm0'; [done|]. by eapply fld_live.
Qed.

(** The same, for what the claims use. *)
Lemma fetch_start_queues u r cb q o s name a :
  wf s → url_host u = Some name →
  listed s a → same_host (heap s) name a →
  let n := next_addr s in
  ∃ hf t s',
    fetch_start u r cb q o s = Ok (n, s') ∧
    listed s hf ∧ same_host (heap s) name hf ∧
    chain queue_next (heap s) hf t ∧ fld queue_next (heap s) t = None ∧
    s' = with_heap (enqueued n t (<[n := new_fetch u r cb q o]> (heap s)))
           (with_next_addr (S n) s).
Proof.
  intros Hwf Hu Hl Hsame. simpl.
  destruct (fetch_start_queues_first u r cb q o s name a)
    as (hf & t & s' & Hs & (head & Hhead & Hfirst) & Hch & Ht & ->); try done.
  apply first_from_chain in Hfirst as [Hchf Hsf].
  exists hf, t. eexists. split; [exact Hs|].
  split; [by exists head|]. done.
Qed.


(** [fetch_start] leaves the handles of the fetches there are. *)
Lemma fetch_start_keeps_handles u r cb q o s a s' b :
  wf s → fetch_start u r cb q o s = Ok (a, s') → is_Some (heap s !! b) →
  fld curl_handle (heap s') b = fld curl_handle (heap s) b.
Proof.
  intros Hwf Hs Hb.
  assert (b ≠ next_addr s) as Hbn.
  { apply (wf_fresh _ Hwf) in Hb. lia. }
  apply fetch_start_ok in Hs as [_ Hs]. simpl in Hs.
  destruct Hs as [(name' & hf & t & _ & _ & _ & ->)|[_ Ha]].
  - simpl. unfold enqueued. fld_norm. by rewrite !decide_False by done.
  - apply activate_ok in Ha as (_ & x & Hx & _ & _ & ->). simpl.
    unfold activated. fld_norm. by rewrite !decide_False by done.
Qed.

(** ** The trace of a redirected fetch *)

Lemma fetch_abort_keeps_handle f s u s' a h :
  wf s → fetch_abort f s = Ok (u, s') →
  fld curl_handle (heap s) a = Some h → is_Some (heap s' !! a) →
  fld curl_handle (heap s') a = Some h.
Proof.
  intros Hwf (fr & Hf & Hs)%fetch_abort_ok Ha Hlive.
  destruct (in_callback fr).
  { subst s'. simpl. by rewrite fld_alter_other. }
  destruct Hs as (_ & _ & _ & Hs).
  destruct (curl_handle fr) as [h0|] eqn:Hh0, (queue_next fr) as [g|] eqn:Hg.
  - destruct Hs as (gr & e & Hgr & _ & _ & ->). simpl in *.
    apply delete_is_Some in Hlive as [Haf _].
    rewrite fld_delete, decide_False by done.
    unfold promoted, spliceL, splice. fld_norm.
    case_decide; [|done]. subst a. exfalso.
    assert (fld queue_prev (heap s) g = Some f) as Hp.
    { apply (q_links _ (wf_queue _ Hwf)). by rewrite (fld_lookup _ _ _ _ Hf). }
    assert (fld queue_prev (heap s) g = None); [|congruence].
    apply (q_I1 _ (wf_queue _ Hwf)); [eauto|]. by rewrite Ha.
  - destruct Hs as (_ & _ & _ & ->). simpl in *.
    apply delete_is_Some in Hlive as [Haf _].
    rewrite fld_delete, decide_False by done.
    unfold spliceQ, spliceL, splice. by fld_norm.
  - destruct Hs as (_ & _ & _ & ->). simpl in *.
    apply delete_is_Some in Hlive as [Haf _].
    rewrite fld_delete, decide_False by done.
    unfold spliceQ, spliceL, splice. by fld_norm.
  - destruct Hs as (_ & _ & _ & ->). simpl in *.
    apply delete_is_Some in Hlive as [Haf _].
    rewrite fld_delete, decide_False by done.
    unfold spliceQ, spliceL, splice. by fld_norm.
Qed.

(** The engine forgets that it gave up a transfer only for the handle of
    the fetch that [fetch_abort] frees. *)
Lemma fetch_abort_write_failed f s u s' h :
  fetch_abort f s = Ok (u, s') → h ∈ write_failed (engine s) →
  h ∈ write_failed (engine s') ∨
  (fld curl_handle (heap s) f = Some h ∧ heap s' !! f = None).
Proof.
  intros (fr & Hf & Hs)%fetch_abort_ok Hh.
  destruct (in_callback fr).
  { subst s'. by left. }
  destruct Hs as (_ & _ & _ & Hs).
  rewrite (fld_lookup _ _ _ _ Hf).
  destruct (curl_handle fr) as [h0|] eqn:Hh0, (queue_next fr) as [g|] eqn:Hg.
  - destruct Hs as (gr & e & Hgr & _ & _ & ->). simpl.
    destruct (decide (h = h0)) as [->|Hne].
    + right. split; [done|]. apply lookup_delete_eq.
    + left. set_solver.
  - destruct Hs as (_ & _ & _ & ->). simpl.
    destruct (decide (h = h0)) as [->|Hne].
    + right. split; [done|]. apply lookup_delete_eq.
    + left. set_solver.
  - destruct Hs as (_ & _ & _ & ->). simpl. by left.
  - destruct Hs as (_ & _ & _ & ->). simpl. by left.
Qed.

Lemma fetch_start_write_failed u r cb q o s a s' h :
  fetch_start u r cb q o s = Ok (a, s') →
  h ∈ write_failed (engine s) → h ≠ next_handle (engine s) →
  h ∈ write_failed (engine s').
Proof.
  intros Hs Hh Hne. apply fetch_start_ok in Hs as [_ Hs]. simpl in Hs.
  destruct Hs as [(name' & hf & t & _ & _ & _ & ->)|[_ Ha]]; [done|].
  apply activate_ok in Ha as (_ & x & Hx & _ & _ & ->). simpl. set_solver.
Qed.

Lemma grows_live s s' a y :
  grows s s' → heap s' !! a = Some y → a < next_addr s →
  ∃ x, heap s !! a = Some x ∧ data_of y = data_of x.
Proof.
  intros [_ Hg] Hy Ha. destruct (Hg a y Hy) as [?|[? _]]; [done|lia].
Qed.

Lemma had_headers_data x y : data_of y = data_of x → had_headers y = had_headers x.
Proof. by intros [=]. Qed.

#[local] Instance tr_keep_po X : PreOrder (tr_keep X).
Proof. split; unfold tr_keep; auto. Qed.

Lemma fetch_abort_tr_keep X f : steps (tr_keep X) (fetch_abort f).
Proof.
  intros s u s' Hs [Hwf Ht].
  pose proof (fetch_abort_grows f s u s' Hs) as Hg.
  pose proof (fetch_abort_same_trace f s u s' Hs) as Htr. unfold same_trace in Htr.
  assert (next_addr s' = next_addr s) as Hna.
  { apply fetch_abort_ok in Hs as (fr & _ & Hs).
    destruct (in_callback fr); [by subst|]. destruct Hs as (_ & _ & _ & Hs).
    destruct (curl_handle fr), (queue_next fr);
      [destruct Hs as (? & ? & _ & _ & _ & ->)|destruct Hs as (_ & _ & _ & ->)..];
      done. }
  assert (∀ a y, heap s' !! a = Some y →
            ∃ x, heap s !! a = Some x ∧ data_of y = data_of x) as Hlive.
  { intros a y Hy. destruct Hg as [_ Hg].
    destruct (Hg a y Hy) as [?|[? _]]; [done|lia]. }
  split; [by eapply wf_fetch_abort|]. split; rewrite ?Htr, ?Hna.
  - apply Ht.
  - intros a y Hy Hh. destruct (Hlive a y Hy) as (x & Hx & Hd).
    eapply (t_headers _ _ Ht); [done|]. by rewrite <-(had_headers_data _ _ Hd).
  - apply Ht.
  - intros a e y He Hm Hy HX. destruct (Hlive a y Hy) as (x & Hx & Hd).
    destruct (t_given_up _ _ Ht a e x) as (h & Hh & Hwfl); try done.
    assert (fld curl_handle (heap s') a = Some h) as Hh'.
    { eapply fetch_abort_keeps_handle; eauto. by rewrite (fld_lookup _ _ _ _ Hx). }
    rewrite (fld_lookup _ _ _ _ Hy) in Hh'. exists h. split; [done|].
    destruct (fetch_abort_write_failed f s u s' h Hs Hwfl) as [?|[Hfh Hdead]]; [done|].
    assert (a = f); [|congruence].
    eapply engine_owner_inj; [apply Hwf| |done].
    by rewrite (fld_lookup _ _ _ _ Hx).
  - apply Ht.
Qed.

Lemma fetch_start_tr_keep X u r cb q o : steps (tr_keep X) (fetch_start u r cb q o).
Proof.
  intros s n s' Hs [Hwf Ht].
  pose proof (fetch_start_grows u r cb q o s n s' Hs) as Hg.
  pose proof (fetch_start_same_trace u r cb q o s n s' Hs) as Htr.
  unfold same_trace in Htr.
  split; [by eapply wf_fetch_start|]. split; rewrite ?Htr.
  - intros a Ha. apply Ht. destruct Hg as [Hn _]. lia.
  - intros a y Hy Hh HX. destruct Hg as [_ Hg].
    destruct (Hg a y Hy) as [(x & Hx & Hd)|[Ha _]].
    + eapply (t_headers _ _ Ht); [done| |done].
      by rewrite <-(had_headers_data _ _ Hd).
    + apply Ht. lia.
  - apply Ht.
  - intros a e y He Hm Hy HX. destruct Hg as [_ Hg].
    destruct (Hg a y Hy) as [(x & Hx & Hd)|[Ha _]].
    + destruct (t_given_up _ _ Ht a e x) as (h & Hh & Hwfl); try done.
      assert (fld curl_handle (heap s') a = fld curl_handle (heap s) a) as Hh'.
      { eapply fetch_start_keeps_handles; eauto. }
      rewrite (fld_lookup _ _ _ _ Hy), (fld_lookup _ _ _ _ Hx) in Hh'.
      exists h. split; [congruence|].
      eapply fetch_start_write_failed; [done..|].
      intros ->.
      assert (fld curl_handle (heap s) a = Some (next_handle (engine s))) as Ho.
      { by rewrite (fld_lookup _ _ _ _ Hx). }
      apply (e_owner _ _ (wf_engine _ Hwf)) in Ho as (Hmu & _).
      by apply wf_handle_fresh in Hmu.
    + rewrite (t_fresh _ _ Ht a) in He by lia. by apply elem_of_nil in He.
  - apply Ht.
Qed.

Lemma run_tr_keep X q : steps (tr_keep X) (run q).
Proof.
  induction q as [c|f k IH|u r cb IHcb q0 o k IH]; simpl.
  - intros s u s' ->%modify_ok [Hwf Ht]. split.
    + eapply wf_ext; [|done]. by split.
    + by destruct Ht.
  - apply steps_bind; [apply _ | apply fetch_abort_tr_keep | done].
  - apply steps_bind; [apply _ | apply fetch_start_tr_keep | done].
Qed.

(** *** One call of the caller's callback *)

Lemma call_inv cb f m q d z s u s' :
  call cb f m q d z s = Ok (u, s') →
  run (cb (cl s) m q d z)
    (with_trace (trace s ++ [{| ev_fetch := f; ev_msg := m; ev_p := q;
                                ev_data := d; ev_size := z |}]) s) = Ok (tt, s').
Proof.
  unfold call. intros ([] & s1 & ->%modify_ok & Hs)%bind_ok.
  apply bind_ok in Hs as (s2 & ? & [-> ->]%get_ok & Hs). by destruct u.
Qed.

Lemma call_own_inv f m d z s u s' :
  call_own f m d z s = Ok (u, s') →
  ∃ fr, heap s !! f = Some fr ∧
    run (callback fr (cl s) m (p fr) d z)
      (with_trace (trace s ++ [{| ev_fetch := f; ev_msg := m; ev_p := p fr;
                                  ev_data := d; ev_size := z |}]) s) = Ok (tt, s').
Proof.
  unfold call_own. intros (fr & ? & [Hf ->]%deref_ok & Hs)%bind_ok.
  exists fr. split; [done|]. by eapply call_inv.
Qed.

(** [fetch_process_headers] marks the fetch, sends the one message
    [resolved] names, and reports whether the fetch is to be given up. *)
Lemma process_headers_inv f s r s' :
  fetch_process_headers f s = Ok (r, s') →
  ∃ fr h e,
    heap s !! f = Some fr ∧ curl_handle fr = Some h ∧
    easies (engine s) !! h = Some e ∧
    let '(fr', (m, d, z)) := resolved fr e in
    call_own f m d z (with_heap (<[f := fr']> (heap s)) s) = Ok (tt, s') ∧
    if decide (m = FETCH_TYPE)
    then ∃ y, heap s' !! f = Some y ∧ r = aborting y
    else r = true.
Proof.
  unfold fetch_process_headers.
  intros ([] & s1 & [[fr Hf] ->]%store_ok & Hs)%bind_ok.
  apply bind_ok in Hs as (fr1 & ? & [Hf1 ->]%deref_ok & Hs).
  simpl in Hf1. rewrite lookup_alter, decide_True, Hf in Hf1 by done.
  injection Hf1 as <-. simpl in Hs.
  apply bind_ok in Hs as (e & ? & (h & Hh & He & ->)%getinfo_ok & Hs).
  simpl in He. exists fr, h, e. split; [done|]. split; [done|]. split; [done|].
  assert (alter (set_had_headers true) f (heap s)
          = <[f := set_had_headers true fr]> (heap s)) as Halt.
  { apply map_eq. intros b. rewrite lookup_alter, lookup_insert.
    case_decide; [subst; by rewrite Hf|done]. }
  rewrite Halt in Hs. clear Halt.
  apply bind_ok in Hs as (redirected & s2 & Hs2 & Hs).
  unfold resolved.
  assert (redirected = None → s2 = with_heap (<[f := set_had_headers true fr]> (heap s)) s →
          let '(m, d, z) := resolved_rest fr e in
          call_own f m d z (with_heap (<[f := set_had_headers true fr]> (heap s)) s)
            = Ok (tt, s') ∧
          if decide (m = FETCH_TYPE)
          then ∃ y, heap s' !! f = Some y ∧ r = aborting y
          else r = true) as Hrest.
  { intros -> ->. unfold resolved_rest.
    destruct (WITH_AUTH && (info_http_code e =? 401)%Z).
    - apply bind_ok in Hs as (fr2 & ? & [Hf2 ->]%deref_ok & Hs).
      simpl in Hf2. rewrite lookup_insert_eq in Hf2. injection Hf2 as <-.
      apply bind_ok in Hs as ([] & s3 & Hs3 & [-> ->]%ret_ok). done.
    - apply bind_ok in Hs as (fr2 & ? & [Hf2 ->]%deref_ok & Hs).
      simpl in Hf2. rewrite lookup_insert_eq in Hf2. injection Hf2 as <-.
      simpl in Hs.
      destruct (only_2xx fr && (strncmp (url fr) "http" 4 =? 0)%Z &&
                ((info_http_code e <? 200)%Z || (299 <? info_http_code e)%Z)).
      + apply bind_ok in Hs as ([] & s3 & Hs3 & [-> ->]%ret_ok). done.
      + apply bind_ok in Hs as (fr3 & ? & [Hf3 ->]%deref_ok & Hs).
        simpl in Hf3. rewrite lookup_insert_eq in Hf3. injection Hf3 as <-.
        apply bind_ok in Hs as (e' & ? & (h' & Hh' & He' & ->)%getinfo_ok & Hs).
        simpl in Hh', He'. rewrite Hh in Hh'. injection Hh' as <-.
        rewrite He in He'. injection He' as <-.
        apply bind_ok in Hs as ([] & s3 & Hs3 & Hs).
        apply bind_ok in Hs as (y & ? & [Hy ->]%deref_ok & [-> ->]%ret_ok).
        simpl in *. split; [done|]. eauto. }
  destruct (location fr) as [loc|] eqn:Hloc; simpl in Hs2.
  - destruct ((300 <=? info_http_code e)%Z && (info_http_code e <? 400)%Z).
    + apply bind_ok in Hs2 as ([] & s3 & [_ ->]%store_ok & Hs2).
      apply bind_ok in Hs2 as (fr2 & ? & [Hf2 ->]%deref_ok & Hs2).
      simpl in Hf2. rewrite lookup_alter, decide_True, lookup_insert_eq in Hf2 by done.
      injection Hf2 as <-. simpl in Hs2.
      apply bind_ok in Hs2 as ([] & s4 & Hs4 & [-> ->]%ret_ok).
      apply ret_ok in Hs as [-> ->]. simpl.
      assert (alter (set_location (Some (curl_unescape loc))) f
                (<[f := set_had_headers true fr]> (heap s))
              = <[f := set_location (Some (curl_unescape loc))
                         (set_had_headers true fr)]> (heap s)) as <-; [|done].
      apply map_eq. intros b. rewrite lookup_alter, !lookup_insert.
      destruct (decide (f = b)); [by rewrite decide_True by done|done].
    + apply ret_ok in Hs2 as [-> ->]. specialize (Hrest eq_refl eq_refl).
      by destruct (resolved_rest fr e) as [[m d] z].
  - apply ret_ok in Hs2 as [-> ->]. specialize (Hrest eq_refl eq_refl).
    by destruct (resolved_rest fr e) as [[m d] z].
Qed.

(** *** Changes that keep [tr_ok] *)

Lemma events_of_app a l1 l2 : events_of a (l1 ++ l2) = events_of a l1 ++ events_of a l2.
Proof. apply filter_app. Qed.

Lemma events_of_one a e :
  events_of a [e] = if decide (ev_fetch e = a) then [e] else [].
Proof. unfold events_of. rewrite filter_cons, filter_nil. by case_decide. Qed.

Lemma events_of_elem a e l : e ∈ events_of a l ↔ ev_fetch e = a ∧ e ∈ l.
Proof. unfold events_of. by rewrite list_elem_of_filter. Qed.

Lemma tr_ok_insert X s a x y :
  heap s !! a = Some x → curl_handle y = curl_handle x →
  (had_headers y = false → had_headers x = false) →
  tr_ok X s → tr_ok X (with_heap (<[a := y]> (heap s)) s).
Proof.
  intros Hx Hh Hhh Ht. split; simpl; try apply Ht.
  - intros b z Hz Hb. rewrite lookup_insert in Hz. case_decide; simplify_eq.
    + apply (t_headers _ _ Ht b x); auto.
    + by apply (t_headers _ _ Ht b z).
  - intros b e z He Hm Hz HX. rewrite lookup_insert in Hz. case_decide; simplify_eq.
    + rewrite Hh. by eapply (t_given_up _ _ Ht).
    + by eapply (t_given_up _ _ Ht).
Qed.

Lemma tr_ok_store X s a x g :
  heap s !! a = Some x → neutral g →
  tr_ok X s → tr_ok X (with_heap (<[a := g x]> (heap s)) s).
Proof. intros Hx Hg. apply (tr_ok_insert X s a x); [done|by destruct Hg..]. Qed.

Lemma tr_ok_engine X s c :
  write_failed (engine s) ⊆ write_failed c → tr_ok X s → tr_ok X (with_engine c s).
Proof.
  intros Hsub Ht. split; simpl; try apply Ht.
  intros b e z He Hm Hz HX.
  destruct (t_given_up _ _ Ht b e z) as (h & Hh & Hwfl); try done.
  exists h. split; [done|]. by apply Hsub.
Qed.

Lemma tr_ok_exempt X s : tr_ok None s → tr_ok X s.
Proof.
  intros Ht. split; try apply Ht.
  - intros a x Hx Hh _. by apply (t_headers _ _ Ht a x).
  - intros a e x He Hm Hx _. by apply (t_given_up _ _ Ht a e x).
Qed.

Lemma tr_ok_dead f s : heap s !! f = None → tr_ok (Some f) s → tr_ok None s.
Proof.
  intros Hf Ht. split; try apply Ht.
  - intros a x Hx Hh _. apply (t_headers _ _ Ht a x); [done..|]. congruence.
  - intros a e x He Hm Hx _. apply (t_given_up _ _ Ht a e x); [done..|]. congruence.
Qed.

(** A message that is no redirection, for a fetch that has none. *)
Lemma tr_ok_log X s e :
  tr_ok X s → ev_fetch e < next_addr s →
  (∀ x, heap s !! ev_fetch e = Some x → had_headers x = true ∨ X = Some (ev_fetch e)) →
  ev_msg e ≠ FETCH_REDIRECT →
  (∀ e', e' ∈ events_of (ev_fetch e) (trace s) → ev_msg e' ≠ FETCH_REDIRECT) →
  tr_ok X (with_trace (trace s ++ [e]) s).
Proof.
  intros Ht Hlt Hhh Hm Hno. split; simpl.
  - intros a Ha. rewrite events_of_app, events_of_one, decide_False by lia.
    rewrite app_nil_r. by apply Ht.
  - intros a x Hx Hh HX. rewrite events_of_app, events_of_one.
    case_decide as Ea; [|rewrite app_nil_r; by eapply (t_headers _ _ Ht)].
    subst a. destruct (Hhh x Hx); congruence.
  - intros a e' He' Hm'. rewrite events_of_app, events_of_one in He' |- *.
    case_decide as Ea.
    + subst a. apply elem_of_app in He' as [He'|He'%list_elem_of_singleton];
        [|by subst].
      by apply Hno in He'.
    + rewrite app_nil_r in He' |- *. by apply Ht.
  - intros a e' x He' Hm' Hx HX. rewrite events_of_app, events_of_one in He'.
    case_decide as Ea.
    + subst a. apply elem_of_app in He' as [He'|He'%list_elem_of_singleton];
        [|by subst].
      by apply Hno in He'.
    + rewrite app_nil_r in He'. by eapply (t_given_up _ _ Ht).
  - intros e' [He'|He'%list_elem_of_singleton]%elem_of_app Hm'; [|by subst].
    by apply Ht.
Qed.

(** The redirection of a fetch that was told nothing so far. *)
Lemma tr_ok_log_redirect s e loc :
  tr_ok None s → ev_fetch e < next_addr s →
  events_of (ev_fetch e) (trace s) = [] →
  ev_data e = PLocation (curl_unescape loc) →
  tr_ok (Some (ev_fetch e)) (with_trace (trace s ++ [e]) s).
Proof.
  intros Ht Hlt Hnil Hd. split; simpl.
  - intros a Ha. rewrite events_of_app, events_of_one, decide_False by lia.
    rewrite app_nil_r. by apply Ht.
  - intros a x Hx Hh HX. rewrite events_of_app, events_of_one.
    rewrite decide_False by congruence. rewrite app_nil_r.
    by eapply (t_headers _ _ Ht).
  - intros a e' He' Hm'. rewrite events_of_app, events_of_one in He' |- *.
    case_decide as Ea.
    + subst a. rewrite Hnil in He' |- *. simpl in *.
      by apply list_elem_of_singleton in He' as ->.
    + rewrite app_nil_r in He' |- *. by apply Ht.
  - intros a e' x He' Hm' Hx HX. rewrite events_of_app, events_of_one in He'.
    rewrite decide_False in He' by congruence. rewrite app_nil_r in He'.
    by eapply (t_given_up _ _ Ht).
  - intros e' [He'|He'%list_elem_of_singleton]%elem_of_app Hm';
      [by apply Ht|subst; eauto].
Qed.

(** *** The callbacks of the engine and the completion *)

Lemma resolved_fetch fr e :
  had_headers (resolved fr e).1 = true ∧ links_of (resolved fr e).1 = links_of fr.
Proof.
  unfold resolved. destruct (location fr); [destruct (_ && _)|]; done.
Qed.

Lemma resolved_redirect fr e :
  (resolved fr e).2.1.1 = FETCH_REDIRECT →
  ∃ loc, location fr = Some loc ∧
    (300 <=? info_http_code e)%Z && (info_http_code e <? 400)%Z = true ∧
    (resolved fr e).2 = (FETCH_REDIRECT, PLocation (curl_unescape loc), 0%N).
Proof.
  assert ((resolved_rest fr e).1.1 ≠ FETCH_REDIRECT) as Hrest.
  { unfold resolved_rest. by repeat destruct (_ && _). }
  unfold resolved. destruct (location fr) as [loc|]; [|done].
  destruct (_ && _) eqn:Hc; [|done]. intros _. by exists loc.
Qed.

Lemma wf_log s e : wf s → wf (with_trace (trace s ++ [e]) s).
Proof. apply wf_ext. by split. Qed.

Lemma process_headers_tr f s r s' :
  wf s → tr_ok None s → events_of f (trace s) = [] →
  fetch_process_headers f s = Ok (r, s') →
  wf s' ∧ (∀ y, heap s' !! f = Some y → had_headers y = true) ∧
  ((r = true ∧ tr_ok (Some f) s') ∨
   (tr_ok None s' ∧ ∀ e, e ∈ events_of f (trace s') → ev_msg e ≠ FETCH_REDIRECT)).
Proof.
  intros Hwf Ht Hnil Hs.
  split; [by eapply fetch_process_headers_wf_keep|].
  apply process_headers_inv in Hs as (fr & h & e & Hf & Hh & He & Hs).
  pose proof (resolved_fetch fr e) as [Hhh Hlinks].
  pose proof (resolved_redirect fr e) as Hred.
  destruct (resolved fr e) as [fr' [[m d] z]]. simpl in *.
  destruct Hs as [Hs Hr].
  apply call_own_inv in Hs as (fr0 & Hf0 & Hs). simpl in *.
  rewrite lookup_insert_eq in Hf0. injection Hf0 as <-.
  set (s0 := with_heap (<[f := fr']> (heap s)) s) in *.
  assert (wf s0) as Hwf0.
  { eapply wf_ext; [|exact Hwf]. by eapply same_links_insert. }
  assert (tr_ok None s0) as Ht0.
  { apply (tr_ok_insert None s f fr); [done| |congruence|done].
    by injection Hlinks. }
  assert (f < next_addr s0) as Hlt.
  { apply (wf_fresh _ Hwf). eauto. }
  set (ev := {| ev_fetch := f; ev_msg := m; ev_p := p fr'; ev_data := d;
                ev_size := z |}) in *.
  split.
  { intros y Hy. apply run_grows in Hs.
    destruct (grows_live _ _ f y Hs Hy) as (x & Hx & Hd); [done|].
    simpl in Hx. rewrite lookup_insert_eq in Hx. injection Hx as <-.
    by rewrite (had_headers_data _ _ Hd). }
  destruct (decide (m = FETCH_REDIRECT)) as [->|Hm].
  - left. destruct (Hred eq_refl) as (loc & _ & _ & [= -> ->]).
    split; [done|].
    eapply (run_tr_keep (Some f)); [exact Hs|]. split; [by apply (wf_log s0)|].
    by apply (tr_ok_log_redirect s0 ev loc).
  - right.
    assert (tr_ok None (with_trace (trace s0 ++ [ev]) s0)) as Ht1.
    { apply tr_ok_log; try done.
      - intros x Hx. simpl in Hx. rewrite lookup_insert_eq in Hx.
        injection Hx as <-. by left.
      - intros e'. simpl. rewrite Hnil. by intros ?%elem_of_nil. }
    split.
    + eapply (run_tr_keep None); [exact Hs|]. split; [by apply (wf_log s0)|done].
    + apply run_same_trace in Hs. unfold same_trace in Hs. rewrite Hs. simpl.
      intros e'. rewrite events_of_app, Hnil, events_of_one. simpl.
      rewrite decide_True by done. by intros ->%list_elem_of_singleton.
Qed.

(** *** A fetch keeps its handle *)

#[local] Instance stays_po f : PreOrder (stays f).
Proof.
  split.
  - intros s Hs. split; [done|]. intros y Hy. eauto.
  - intros s1 s2 s3 H12 H23 Hs1.
    destruct (H12 Hs1) as [Hs2 Hk12]. destruct (H23 Hs2) as [Hs3 Hk23].
    split; [done|]. intros z Hz.
    destruct (Hk23 z Hz) as (y & Hy & Hyz). destruct (Hk12 y Hy) as (x & Hx & Hxy).
    exists x. split; [done|]. intros Hsome.
    rewrite Hyz; [by apply Hxy|]. by rewrite Hxy.
Qed.

Lemma fetch_abort_stays f f' : steps (stays f) (fetch_abort f').
Proof.
  intros s u s' Hs [Hwf Hlt].
  pose proof (fetch_abort_grows f' s u s' Hs) as Hg.
  split.
  - split; [by eapply wf_fetch_abort|]. destruct Hg as [Hn _]. lia.
  - intros y Hy. destruct (grows_live s s' f y Hg Hy Hlt) as (x & Hx & _).
    exists x. split; [done|]. intros [h Hh].
    assert (fld curl_handle (heap s') f = Some h) as Hh'.
    { eapply fetch_abort_keeps_handle; eauto. by rewrite (fld_lookup _ _ _ _ Hx). }
    rewrite (fld_lookup _ _ _ _ Hy) in Hh'. congruence.
Qed.

Lemma fetch_start_stays f u r cb q o : steps (stays f) (fetch_start u r cb q o).
Proof.
  intros s n s' Hs [Hwf Hlt].
  pose proof (fetch_start_grows u r cb q o s n s' Hs) as Hg.
  split.
  - split; [by eapply wf_fetch_start|]. destruct Hg as [Hn _]. lia.
  - intros y Hy. destruct (grows_live s s' f y Hg Hy Hlt) as (x & Hx & _).
    exists x. split; [done|]. intros _.
    assert (fld curl_handle (heap s') f = fld curl_handle (heap s) f) as Hh'.
    { eapply fetch_start_keeps_handles; eauto. }
    by rewrite (fld_lookup _ _ _ _ Hy), (fld_lookup _ _ _ _ Hx) in Hh'.
Qed.

Lemma stays_insert f s a x y :
  heap s !! a = Some x → links_of y = links_of x →
  stays f s (with_heap (<[a := y]> (heap s)) s).
Proof.
  intros Hx Hl [Hwf Hlt]. split.
  - split; [|done]. eapply wf_ext; [|done]. by eapply same_links_insert.
  - intros z Hz. simpl in Hz. rewrite lookup_insert in Hz.
    case_decide; [|eauto]. subst a. injection Hz as <-.
    exists x. split; [done|]. intros _. by injection Hl.
Qed.

Lemma stays_silent f s s' :
  same_links s s' → heap s' = heap s → stays f s s'.
Proof.
  intros Hl Hh [Hwf Hlt]. split.
  - split; [by eapply wf_ext|]. by rewrite (sl_next _ _ Hl).
  - intros y Hy. rewrite Hh in Hy. eauto.
Qed.

Lemma stays_store f s a x g :
  heap s !! a = Some x → neutral g →
  stays f s (with_heap (<[a := g x]> (heap s)) s).
Proof. intros Hx Hg. apply (stays_insert f s a x); [done|by destruct Hg]. Qed.

Lemma stays_engine f s c :
  multi c = multi (engine s) → next_handle c = next_handle (engine s) →
  (∀ h, opts_of <$> (easies c !! h) = opts_of <$> (easies (engine s) !! h)) →
  write_failed (engine s) ⊆ write_failed c →
  stays f s (with_engine c s).
Proof. intros. apply stays_silent; [by split|done]. Qed.

Lemma fetch_curl_data_stays f d f' : steps (stays f) (fetch_curl_data d f').
Proof.
  apply (lift_curl_data (stays f) (λ _ _, True));
    first
      [ exact (fetch_abort_stays f)
      | exact (fetch_start_stays f)
      | exact (stays_store f)
      | by (intros; apply stays_silent; [split|])
      | by (intros; eapply stays_insert)
      | done ].
Qed.

(** *** The invariant through [fetch_poll] *)

Lemma tr_ok_heap X s m' :
  (∀ b y, m' !! b = Some y →
     ∃ x, heap s !! b = Some x ∧ curl_handle y = curl_handle x ∧
          (had_headers y = false → had_headers x = false)) →
  tr_ok X s → tr_ok X (with_heap m' s).
Proof.
  intros Hm Ht. split; simpl; try apply Ht.
  - intros b y Hy Hb HX. destruct (Hm b y Hy) as (x & Hx & _ & Hh).
    apply (t_headers _ _ Ht b x); auto.
  - intros b e y He Hmsg Hy HX. destruct (Hm b y Hy) as (x & Hx & Hh & _).
    rewrite Hh. by eapply (t_given_up _ _ Ht).
Qed.

Lemma tr_ok_alter X s a g :
  neutral g ∨ g = set_in_callback true →
  tr_ok X s → tr_ok X (with_heap (alter g a (heap s)) s).
Proof.
  intros Hg. apply tr_ok_heap. intros b y. rewrite lookup_alter.
  case_decide; [|eauto]. subst b.
  destruct (heap s !! a) as [x|]; [|done]. intros [= <-].
  exists x. split; [done|]. by destruct Hg as [[]| ->].
Qed.

Lemma wf_alter s a g :
  neutral g ∨ g = set_in_callback true →
  wf s → wf (with_heap (alter g a (heap s)) s).
Proof.
  intros Hg. apply wf_ext. split; try done. intros b. simpl.
  rewrite lookup_alter. case_decide; [|done]. subst b.
  destruct (heap s !! a) as [x|]; [|done]. simpl. f_equal.
  by destruct Hg as [[]| ->].
Qed.

Lemma tr_ok_given_up f h s :
  tr_ok (Some f) s →
  (∀ y, heap s !! f = Some y → had_headers y = true ∧ curl_handle y = Some h) →
  tr_ok None
    (with_engine (with_write_failed ({[h]} ∪ write_failed (engine s)) (engine s)) s).
Proof.
  intros Ht Hf. split; simpl; try apply Ht.
  - intros a x Hx Hh _. destruct (decide (a = f)) as [->|Hne].
    + destruct (Hf x Hx). congruence.
    + apply (t_headers _ _ Ht a x); [done..|congruence].
  - intros a e x He Hm Hx _. destruct (decide (a = f)) as [->|Hne].
    + destruct (Hf x Hx) as [_ Hh]. exists h. split; [done|set_solver].
    + destruct (t_given_up _ _ Ht a e x) as (h' & Hh' & Hwfl); [done..|congruence|].
      exists h'. split; [done|set_solver].
Qed.

Lemma fetch_curl_data_tr d f s n s' :
  wf s → tr_ok None s →
  (∀ e, e ∈ events_of f (trace s) → ev_msg e ≠ FETCH_REDIRECT) →
  fetch_curl_data d f s = Ok (n, s') →
  wf s' ∧
  (tr_ok None s' ∨
   (tr_ok (Some f) s' ∧ n = 0 ∧ ∀ y, heap s' !! f = Some y → had_headers y = true)).
Proof.
  intros Hwf Ht Hno Hs. split; [by eapply fetch_curl_data_wf_keep|].
  unfold fetch_curl_data in Hs.
  apply bind_ok in Hs as ([] & s1 & [[x Hx] ->]%store_ok & Hs).
  apply bind_ok in Hs as (fr & ? & [Hfr ->]%deref_ok & Hs).
  simpl in Hfr. rewrite lookup_alter, decide_True, Hx in Hfr by done.
  injection Hfr as <-. simpl in Hs.
  set (s1 := with_heap (alter (set_in_callback true) f (heap s)) s) in *.
  assert (wf s1) as Hwf1 by (apply wf_alter; auto).
  assert (tr_ok None s1) as Ht1 by (apply tr_ok_alter; auto).
  apply bind_ok in Hs as (rejected & s2 & Hs2 & Hs).
  assert (∀ X s3 s4 k, tr_ok X s3 →
            (store f (set_in_callback false);; mret k) s3 = Ok (n, s4) →
            tr_ok X s4 ∧ n = k ∧ ∀ y, heap s4 !! f = Some y →
              ∃ y', heap s3 !! f = Some y' ∧ had_headers y = had_headers y')
    as Hleave.
  { intros X s3 s4 k Ht3 Hs3.
    apply bind_ok in Hs3 as ([] & ? & [[y' Hy'] ->]%store_ok & [-> ->]%ret_ok).
    split; [apply tr_ok_alter; [left; constructor|done]|]. split; [done|].
    intros y. simpl. rewrite lookup_alter, decide_True, Hy' by done.
    intros [= <-]. eauto. }
  assert (∀ s3, wf s3 → tr_ok None s3 →
            (∀ y, heap s3 !! f = Some y → had_headers y = true) →
            (∀ e, e ∈ events_of f (trace s3) → ev_msg e ≠ FETCH_REDIRECT) →
            (call_own f FETCH_DATA (PChunk d) (N.of_nat (String.length d));;
             store f (set_in_callback false);; mret (String.length d)) s3
              = Ok (n, s') →
            tr_ok None s') as Hdata.
  { intros s3 Hwf3 Ht3 Hh3 Hno3 Hs3.
    apply bind_ok in Hs3 as ([] & s4 & (y & Hy & Hs4)%call_own_inv & Hs3).
    apply (Hleave None s4 s' (String.length d)); [|done].
    eapply (run_tr_keep None); [exact Hs4|]. split; [by apply wf_log|].
    apply tr_ok_log; try done.
    - simpl. apply (wf_fresh _ Hwf3). eauto.
    - intros y' Hy'. left. by apply Hh3. }
  destruct (had_headers x) eqn:Hhh.
  - apply ret_ok in Hs2 as [-> ->]. left. apply (Hdata s1); try done.
    intros y. unfold s1. simpl. rewrite lookup_alter, decide_True, Hx by done.
    by intros [= <-].
  - apply process_headers_tr in Hs2 as (Hwf2 & Hh2 & Hcase); try done.
    2:{ apply (t_headers _ _ Ht1 f (set_in_callback true x)); try done.
        unfold s1. simpl. by rewrite lookup_alter, decide_True, Hx. }
    destruct Hcase as [[-> Ht2]|[Ht2 Hno2]].
    + right. destruct (Hleave (Some f) s2 s' 0 Ht2 Hs) as (? & ? & Hk).
      split; [done|]. split; [done|].
      intros y Hy. destruct (Hk y Hy) as (y' & Hy' & ->). by apply Hh2.
    + left. destruct rejected.
      * by destruct (Hleave None s2 s' 0 Ht2 Hs).
      * by apply (Hdata s2).
Qed.

(** The engine does not call back for a transfer it has given up, and a
    redirected fetch is one. *)
Lemma no_redirect_while_live s h e f :
  wf s → tr_ok None s →
  h ∈ multi (engine s) → h ∉ write_failed (engine s) →
  easies (engine s) !! h = Some e →
  opt_writedata e = Some f ∨ opt_private e = Some f →
  fld curl_handle (heap s) f = Some h ∧
  ∀ e', e' ∈ events_of f (trace s) → ev_msg e' ≠ FETCH_REDIRECT.
Proof.
  intros Hwf Ht Hmu Hnf He Hopt.
  destruct (e_multi _ _ (wf_engine _ Hwf) _ Hmu) as (a & Hpr & Hh).
  destruct (e_owner _ _ (wf_engine _ Hwf) _ _ Hh) as (_ & _ & Hwd & _).
  unfold eopt in Hpr, Hwd. rewrite He in Hpr, Hwd. simpl in Hpr, Hwd.
  assert (a = f) as -> by (destruct Hopt; congruence).
  split; [done|]. intros e' He' Hm.
  apply fld_Some in Hh as (x & Hx & Hh).
  destruct (t_given_up _ _ Ht f e' x) as (h' & Hh' & Hwfl); try done.
  congruence.
Qed.

Lemma fetch_curl_header_tr_keep d f : steps (tr_keep None) (fetch_curl_header d f).
Proof.
  unfold fetch_curl_header.
  steps_go ltac:(intros [? ?]; split;
                 [ eapply wf_ext; [|eassumption]; by eapply same_links_insert
                 | by eapply tr_ok_insert ]).
Qed.

Lemma perform_tr t s u s' :
  wf s → tr_ok None s → (∀ h, t ≠ BodyChunk h "") →
  perform t s = Ok (u, s') → wf s' ∧ tr_ok None s'.
Proof.
  intros Hwf Ht Hne Hs. split; [by eapply perform_wf_keep|].
  unfold perform in Hs.
  apply bind_ok in Hs as (s0 & ? & [-> ->]%get_ok & Hs).
  destruct t as [h code ct|h line|h data];
    destruct (easies (engine s) !! h) as [e|] eqn:He;
    try (by apply ret_ok in Hs as [_ ->]).
  - destruct (_ && _).
    + apply modify_ok in Hs as ->. by apply tr_ok_engine.
    + by apply ret_ok in Hs as [_ ->].
  - destruct (opt_writeheader e); [destruct (_ && _)|];
      try (by apply ret_ok in Hs as [_ ->]).
    apply bind_ok in Hs as (k & s1 & Hs1 & [_ ->]%ret_ok).
    by eapply fetch_curl_header_tr_keep.
  - destruct (opt_writedata e) as [f|] eqn:Hwd;
      [destruct (_ && _) eqn:Hlive|]; try (by apply ret_ok in Hs as [_ ->]).
    apply andb_true_iff in Hlive as [Hmu%bool_decide_eq_true Hnf%negb_true_iff].
    apply bool_decide_eq_false in Hnf.
    destruct (no_redirect_while_live s h e f) as [Hh Hno]; auto.
    apply bind_ok in Hs as (k & s1 & Hs1 & Hs).
    assert (stays f s s1) as Hst by by eapply fetch_curl_data_stays.
    apply fetch_curl_data_tr in Hs1 as (Hwf1 & Hcase); try done.
    case_bool_decide as Hk.
    + apply ret_ok in Hs as [_ ->].
      destruct Hcase as [?|(_ & -> & _)]; [done|].
      destruct data; [by destruct (Hne h)|done].
    + apply modify_ok in Hs as ->.
      destruct Hcase as [Ht1|(Ht1 & _ & Hhh)].
      * apply tr_ok_engine; [simpl; set_solver|done].
      * apply (tr_ok_given_up f); [done|]. intros y Hy. split; [by apply Hhh|].
        destruct Hst as [_ Hst].
        { split; [done|]. apply (wf_fresh _ Hwf). by eapply fld_live. }
        destruct (Hst y Hy) as (x & Hx & Hxy).
        rewrite (fld_lookup _ _ _ _ Hx) in Hh. rewrite Hxy, Hh; eauto.
Qed.

Lemma resolve_done_stays f res cb f' : steps (stays f) (resolve_done res cb f').
Proof.
  apply (lift_resolve_done (stays f) (λ _ _, True));
    first
      [ exact (fetch_abort_stays f)
      | exact (fetch_start_stays f)
      | exact (stays_store f)
      | by (intros; apply stays_silent; [split|])
      | done ].
Qed.

Lemma finish_tr res f s u s' :
  wf s → quiet s → tr_ok None s →
  (res ≠ CURLE_WRITE_ERROR →
   ∀ e, e ∈ events_of f (trace s) → ev_msg e ≠ FETCH_REDIRECT) →
  finish res f s = Ok (u, s') → wf s' ∧ tr_ok None s'.
Proof.
  intros Hwf Hq Ht Hno Hs. split; [by eapply finish_wf_keep|].
  apply finish_inv in Hs as (fr & finished & s1 & s2 & Hf & Hs1 & Hs2 & Hs).
  assert (f < next_addr s) as Hlt by (apply (wf_fresh _ Hwf); eauto).
  assert (wf s1) as Hwf1 by by eapply resolve_done_wf_keep.
  assert (¬ busy s1 f) as Hb1.
  { intros Hb. eapply Hq, resolve_done_calm; done. }
  destruct (resolve_done_stays f res (callback fr) f s finished s1 Hs1)
    as [[_ Hlt1] _]; [done|].
  destruct (fetch_abort_stays f f s1 tt s2 Hs2) as [[Hwf2 Hlt2] _]; [done|].
  assert (tr_ok (Some f) s1 ∧
          (finished = true →
           ∀ e, e ∈ events_of f (trace s1) → ev_msg e ≠ FETCH_REDIRECT))
    as [Ht1 Hno1].
  { unfold resolve_done in Hs1.
    destruct (Z.eqb_spec res CURLE_OK) as [Hok|Hok].
    - apply bind_ok in Hs1 as (fr' & ? & [Hf' ->]%deref_ok & Hs1).
      rewrite Hf in Hf'. injection Hf' as <-.
      destruct (had_headers fr) eqn:Hhh.
      + apply ret_ok in Hs1 as [-> ->]. split; [by apply tr_ok_exempt|].
        intros _. apply Hno. by rewrite Hok.
      + apply bind_ok in Hs1 as (rej & s1' & Hs1 & [-> ->]%ret_ok).
        apply process_headers_tr in Hs1 as (_ & _ & Hcase); try done.
        2:{ by apply (t_headers _ _ Ht f fr). }
        destruct Hcase as [[-> Ht1]|[Ht1 Hno1]]; [by split|].
        split; [by apply tr_ok_exempt|done].
    - destruct (Z.eqb_spec res CURLE_WRITE_ERROR) as [Hw|Hw]; simpl in Hs1.
      + apply ret_ok in Hs1 as [-> ->]. split; [by apply tr_ok_exempt|done].
      + apply bind_ok in Hs1 as (fr' & ? & [Hf' ->]%deref_ok & Hs1).
        apply bind_ok in Hs1 as ([] & s1' & Hs1%call_inv & [-> ->]%ret_ok).
        split; [|done].
        eapply (run_tr_keep (Some f)); [exact Hs1|]. split; [by apply wf_log|].
        apply tr_ok_log; try done.
        * by apply tr_ok_exempt.
        * intros; by right.
        * by apply Hno. }
  assert (tr_ok None s2) as Ht2.
  { apply (tr_ok_dead f); [by eapply fetch_abort_frees|].
    eapply (fetch_abort_tr_keep (Some f)); [exact Hs2|done]. }
  destruct finished; [|by subst].
  apply call_inv in Hs.
  eapply (run_tr_keep None); [exact Hs|]. split; [by apply wf_log|].
  apply tr_ok_log; try done.
  - intros x Hx. simpl in Hx.
    assert (heap s2 !! f = None) as Hd by by eapply fetch_abort_frees.
    congruence.
  - simpl. rewrite (fetch_abort_same_trace f s1 tt s2 Hs2). by apply Hno1.
Qed.

Lemma process_msg_calm m : steps calm (process_msg m).
Proof. apply (lift_process_msg calm (λ _ _, True)); calm_side. Qed.

Lemma perform_calm t : steps calm (perform t).
Proof.
  apply (lift_perform calm (λ _ _, True));
    first [exact fetch_curl_data_calm | calm_side].
Qed.

Lemma process_msg_tr m s u s' :
  wf s → quiet s → tr_ok None s →
  process_msg m s = Ok (u, s') → wf s' ∧ tr_ok None s'.
Proof.
  intros Hwf Hq Ht Hs. split; [by eapply process_msg_wf_keep|].
  unfold process_msg in Hs.
  apply bind_ok in Hs as (s0 & ? & [-> ->]%get_ok & Hs).
  case_bool_decide as Hmu; simpl in Hs; [|by apply ret_ok in Hs as [_ ->]].
  destruct (msg m); [|done].
  apply bind_ok in Hs as (e & ? & (h & [= <-] & He & ->)%getinfo_ok & Hs).
  apply bind_ok in Hs as ([] & s1 & Hs1 & Hs).
  destruct (opt_private e) as [f|] eqn:Hpr; [|done].
  assert (wf s1 ∧ quiet s1 ∧ tr_ok None s1 ∧ trace s1 = trace s) as (Hwf1 & Hq1 & Ht1 & Htr).
  { destruct (opt_errorbuffer e) as [b|]; [destruct (_ =? _)%Z|];
      try (by apply ret_ok in Hs1 as [_ ->]).
    apply store_ok in Hs1 as [[x Hx] ->].
    split; [apply wf_alter; [left; constructor|done]|].
    split; [|split; [apply tr_ok_alter; [left; constructor|done]|done]].
    intros a (y & Hy & Hb). simpl in Hy. rewrite lookup_alter in Hy.
    case_decide; [subst; rewrite Hx in Hy; injection Hy as <-|];
      eapply Hq; eexists; eauto. }
  eapply finish_tr; [done..| |exact Hs].
  intros Hres. rewrite Htr.
  apply (no_redirect_while_live s (easy_handle m) e f); auto.
  unfold reported in Hres. case_bool_decide; [done|]. done.
Qed.

(** [fetch_poll] keeps the invariant if the engine passes no empty chunk. *)
Lemma fetch_poll_tr work msgs s u s' :
  no_empty_chunk work →
  wf s → quiet s → tr_ok None s →
  fetch_poll work msgs s = Ok (u, s') → wf s' ∧ quiet s' ∧ tr_ok None s'.
Proof.
  intros Hne Hwf Hq Ht Hs. unfold fetch_poll in Hs.
  apply bind_ok in Hs as ([] & s1 & Hs1 & Hs).
  apply bind_ok in Hs as ([] & s2 & Hs2 & Hs).
  apply bind_ok in Hs as (s3 & ? & [-> ->]%get_ok & Hs).
  assert (wf s1 ∧ quiet s1 ∧ tr_ok None s1) as (Hwf1 & Hq1 & Ht1).
  { clear Hs2 Hs. revert s Hwf Hq Ht Hs1.
    induction work as [|t work IH]; intros s Hwf Hq Ht Hs1; simpl in Hs1.
    - by apply ret_ok in Hs1 as [_ ->].
    - apply bind_ok in Hs1 as ([] & s0 & Hs0 & Hs1).
      destruct (perform_tr t s tt s0) as [Hwf0 Ht0]; try done.
      { intros h ->. apply (Hne h). left. }
      apply (IH (λ h Hh, Hne h (list_elem_of_further _ _ _ Hh)) s0); try done.
      eapply calm_quiet; [|done]. by eapply perform_calm. }
  assert (wf s2 ∧ quiet s2 ∧ tr_ok None s2) as (Hwf2 & Hq2 & Ht2).
  { clear Hs1 Hs. revert s1 Hwf1 Hq1 Ht1 Hs2.
    induction msgs as [|m msgs IH]; intros s1 Hwf1 Hq1 Ht1 Hs2; simpl in Hs2.
    - by apply ret_ok in Hs2 as [_ ->].
    - apply bind_ok in Hs2 as ([] & s0 & Hs0 & Hs2).
      destruct (process_msg_tr m s1 tt s0) as [Hwf0 Ht0]; try done.
      apply (IH s0); try done.
      eapply calm_quiet; [|done]. by eapply process_msg_calm. }
  destruct (fetch_list s2).
  - by apply ret_ok in Hs as [_ ->].
  - apply modify_ok in Hs as ->. split; [|split].
    + eapply wf_ext; [|done]. by split.
    + done.
    + by destruct Ht2.
Qed.

Lemma tr_ok_init c : tr_ok None (fetch_init c).
Proof. split; simpl; try done; intros; by apply elem_of_nil in H0. Qed.

Lemma reachable_tr_ok s :
  reachable_with no_empty_chunk s → wf s ∧ quiet s ∧ tr_ok None s.
Proof.
  induction 1 as [c|s u r cb q o a s' _ (Hwf & Hq & Ht) Hs
                 |s f s' _ (Hwf & Hq & Ht) Hs
                 |s w ms s' _ (Hwf & Hq & Ht) Hne Hs
                 |s c _ (Hwf & Hq & Ht)].
  - split; [apply wf_init|]. split; [|apply tr_ok_init].
    intros a (x & Hx & _). simpl in Hx. by rewrite lookup_empty in Hx.
  - destruct (fetch_start_tr_keep None u r cb q o s a s' Hs) as [? ?]; [done|].
    split; [done|]. split; [|done].
    eapply calm_quiet; [|done]. by eapply fetch_start_calm.
  - destruct (fetch_abort_tr_keep None f s tt s' Hs) as [? ?]; [done|].
    split; [done|]. split; [|done].
    eapply calm_quiet; [|done]. by eapply fetch_abort_calm.
  - by eapply fetch_poll_tr.
  - split; [|split].
    + eapply wf_ext; [|done]. by split.
    + done.
    + by destruct Ht.
Qed.

(** ** [fetch_abort] returns *)

Lemma safe_bind {A B} (m : M A) (k : A → M B) s a s1 :
  m s = Ok (a, s1) → safe (k a) s1 → safe (m ≫= k) s.
Proof. intros Hm (b & s' & Hk). exists b, s'. by rewrite (bind_run _ _ _ _ _ Hm). Qed.

Lemma safe_ret {A} (a : A) s : safe (mret a) s.
Proof. by exists a, s. Qed.

Lemma store_run a g s :
  is_Some (heap s !! a) → store a g s = Ok (tt, with_heap (alter g a (heap s)) s).
Proof. intros. by apply store_ok. Qed.

Lemma store_opt_run o g s :
  (∀ b, o = Some b → is_Some (heap s !! b)) →
  (match o with Some b => store b g | None => mret tt end) s
    = Ok (tt, with_heap (wr o g (heap s)) s).
Proof.
  intros Ho. destruct o as [b|]; simpl.
  - apply store_run. eauto.
  - by rewrite with_heap_id.
Qed.

Lemma unlink_run f fr s :
  heap s !! f = Some fr →
  (∀ b, prev fr = Some b → is_Some (heap s !! b)) →
  (∀ b, next fr = Some b → is_Some (heap s !! b)) →
  unlink f s = Ok (tt, with_heap (spliceL fr (heap s))
                         (with_fetch_list (unlink_list fr (fetch_list s)) s)).
Proof.
  intros Hf Hp Hn. unfold unlink.
  rewrite (bind_run _ _ s fr s) by by apply deref_ok.
  rewrite (bind_run _ _ s tt
             (with_heap (wr (prev fr) (set_next (next fr)) (heap s))
                (with_fetch_list (unlink_list fr (fetch_list s)) s))).
  2:{ unfold unlink_list. destruct (prev fr) as [b|] eqn:Ep; simpl.
      - rewrite with_fetch_list_id. apply store_run. eauto.
      - apply modify_ok. by destruct s. }
  erewrite bind_run; cycle 1.
  { apply deref_ok. split; [|done]. simpl.
    apply lookup_wr_noop; [done|apply set_next_eta]. }
  rewrite store_opt_run; [done|].
  intros b Hb. simpl. rewrite lookup_wr_is_Some. eauto.
Qed.

Lemma release_run f fr s :
  heap s !! f = Some fr →
  (∀ h, curl_handle fr = Some h → is_Some (easies (engine s) !! h)) →
  (∀ b, queue_prev fr = Some b → is_Some (heap s !! b)) →
  (∀ b, queue_next fr = Some b → is_Some (heap s !! b)) →
  release f s = Ok (tt, with_heap (spliceQ fr (heap s))
                          (with_engine (released (curl_handle fr) (engine s)) s)).
Proof.
  intros Hf Hh Hp Hn. unfold release.
  rewrite (bind_run _ _ s fr s) by by apply deref_ok.
  rewrite (bind_run _ _ s tt (with_engine (released (curl_handle fr) (engine s)) s)).
  2:{ destruct (curl_handle fr) as [h|]; simpl.
      - apply cleanup_ok. split; [eauto|done].
      - by destruct s as [? ? ? ? [] ? ?]. }
  erewrite bind_run; cycle 1.
  { apply deref_ok. split; [exact Hf|done]. }
  erewrite bind_run; cycle 1.
  { apply store_opt_run. exact Hp. }
  erewrite bind_run; cycle 1.
  { apply deref_ok. split; [|done]. simpl.
    apply lookup_wr_noop; [done|apply set_queue_next_eta]. }
  rewrite store_opt_run; [done|].
  intros b Hb. simpl. rewrite lookup_wr_is_Some. eauto.
Qed.

Lemma start_queued_safe h g s :
  is_Some (heap s !! g) → is_Some (easies (engine s) !! h) →
  h ∉ multi (engine s) →
  (∀ b, fetch_list s = Some b → is_Some (heap s !! b)) →
  safe (start_queued h g) s.
Proof.
  destruct s as [m na fl fa [es mu wfl nh] c tr]. simpl.
  intros Hg [e He] Hmu Hhead. unfold start_queued.
  eapply safe_bind; [by apply store_run|]. nrm.
  eapply safe_bind; [by apply get_ok|]. nrm.
  eapply safe_bind; [apply store_run; simpl; by rewrite lookup_alter_is_Some|]. nrm.
  eapply safe_bind.
  { apply store_opt_run. intros b Hb. simpl. rewrite !lookup_alter_is_Some. eauto. }
  nrm.
  eapply safe_bind; [by apply modify_ok|]. nrm.
  eapply safe_bind.
  { apply store_run. simpl.
    by rewrite lookup_wr_is_Some, !lookup_alter_is_Some. }
  nrm.
  eapply safe_bind.
  { apply store_run. simpl.
    by rewrite lookup_alter_is_Some, lookup_wr_is_Some, !lookup_alter_is_Some. }
  nrm.
  assert (is_Some (promoted g h fl m !! g)) as [gr Hgr].
  { by apply promoted_is_Some. }
  eapply safe_bind; [apply deref_ok; split; [exact Hgr|done]|]. nrm.
  eapply safe_bind; [apply setopt_ok; eexists; split; [exact He|done]|]. nrm.
  do 5 (eapply safe_bind;
        [apply setopt_ok; eexists; split; [apply lookup_insert_eq|done]|]; nrm).
  eexists tt, _. apply add_handle_ok. split; [|done]. simpl.
  split; [by rewrite lookup_insert_eq|done].
  Unshelve. all: exact tt.
Qed.

(** In a well-formed state [fetch_abort] of an allocated fetch returns. *)
Lemma fetch_abort_total f s :
  wf s → is_Some (heap s !! f) → ∃ s', fetch_abort f s = Ok (tt, s').
Proof.
  intros Hwf [fr Hf].
  assert (∀ b, prev fr = Some b → is_Some (heap s !! b)) as Hp.
  { intros b Hb. apply (fld_live next _ _ f).
    apply (l_links _ _ (wf_list _ Hwf)). by rewrite (fld_lookup _ _ _ _ Hf). }
  assert (∀ b, next fr = Some b → is_Some (heap s !! b)) as Hn.
  { intros b Hb. apply (fld_live prev _ _ f).
    apply (l_links _ _ (wf_list _ Hwf)). by rewrite (fld_lookup _ _ _ _ Hf). }
  assert (∀ b, queue_prev fr = Some b → is_Some (heap s !! b)) as Hqp.
  { intros b Hb. apply (fld_live queue_next _ _ f).
    apply (q_links _ (wf_queue _ Hwf)). by rewrite (fld_lookup _ _ _ _ Hf). }
  assert (∀ b, queue_next fr = Some b → is_Some (heap s !! b)) as Hqn.
  { intros b Hb. apply (fld_live queue_prev _ _ f).
    apply (q_links _ (wf_queue _ Hwf)). by rewrite (fld_lookup _ _ _ _ Hf). }
  assert (∀ h, curl_handle fr = Some h →
            h ∈ multi (engine s) ∧ is_Some (easies (engine s) !! h)) as Hh.
  { intros h Hh.
    destruct (e_owner _ _ (wf_engine _ Hwf) f h) as (Hmu & Hpr & _).
    { by rewrite (fld_lookup _ _ _ _ Hf). }
    split; [done|]. unfold eopt in Hpr. destruct (easies _ !! h); [eauto|done]. }
  assert (∀ b, unlink_list fr (fetch_list s) = Some b → is_Some (heap s !! b))
    as Hhead.
  { unfold unlink_list. intros b Hb. destruct (prev fr); [|by apply Hn].
    eapply fld_is_Some, (l_head _ _ (wf_list _ Hwf)), Hb. }
  cut (safe (fetch_abort f) s).
  { intros ([] & s' & Hs). eauto. }
  unfold fetch_abort.
  eapply safe_bind; [by apply deref_ok|].
  destruct (in_callback fr).
  { eexists tt, _. apply store_run. eauto. }
  eapply safe_bind; [by apply unlink_run|].
  eapply safe_bind.
  { apply deref_ok. split; [|done]. simpl. by apply lookup_spliceL. }
  destruct (curl_handle fr) as [h|] eqn:Eh.
  - destruct (Hh h eq_refl) as [Hmu He].
    eapply safe_bind; [by apply remove_handle_ok|].
    eapply safe_bind.
    { apply deref_ok. split; [|done]. simpl. by apply lookup_spliceL. }
    rewrite Eh. destruct (queue_next fr) as [g|] eqn:Eg.
    + destruct (start_queued_safe h g
                  (with_engine
                     (with_multi (multi (engine s) ∖ {[h]})
                        (write_failed (engine s) ∖ {[h]}) (engine s))
                     (with_heap (spliceL fr (heap s))
                        (with_fetch_list (unlink_list fr (fetch_list s)) s))))
        as ([] & s1 & Hs1); simpl.
      * apply spliceL_is_Some. eauto.
      * done.
      * set_solver.
      * intros b Hb. apply spliceL_is_Some. eauto.
      * eapply safe_bind; [exact Hs1|].
        apply start_queued_ok in Hs1 as (gr & e & _ & _ & _ & _ & ->).
        eexists tt, _. apply xfree_ok. split; [|done]. simpl.
        apply promoted_is_Some, spliceL_is_Some. eauto.
    + eapply safe_bind.
      { apply (release_run f fr); simpl.
        - by apply lookup_spliceL.
        - intros h' Hh'. rewrite Eh in Hh'. by injection Hh' as <-.
        - intros b Hb. apply spliceL_is_Some. eauto.
        - intros b Hb. by rewrite Eg in Hb. }
      eexists tt, _. apply xfree_ok. split; [|done]. simpl.
      apply spliceQ_is_Some, spliceL_is_Some. eauto.
  - eapply safe_bind; [by apply ret_ok|].
    eapply safe_bind.
    { apply deref_ok. split; [|done]. simpl. by apply lookup_spliceL. }
    rewrite Eh.
    eapply safe_bind.
    { apply (release_run f fr); simpl.
      - by apply lookup_spliceL.
      - by rewrite Eh.
      - intros b Hb. apply spliceL_is_Some. eauto.
      - intros b Hb. apply spliceL_is_Some. eauto. }
    eexists tt, _. apply xfree_ok. split; [|done]. simpl.
    apply spliceQ_is_Some, spliceL_is_Some. eauto.
  Unshelve. all: exact tt.
Qed.

(** * The statements of the specification *)

(** C10: [fetch_abort] never changes [fetch_active]; [fetch_start] never
    clears it; [fetch_poll] clears it only when it finds [fetch_list] empty
    at its end, and then always. So after the abort of the last fetch the
    flag is still true, and only a later [fetch_poll] makes it false. *)
Theorem fetch_active_cleared_by_poll_only :
  (∀ f s u s', fetch_abort f s = Ok (u, s') → fetch_active s' = fetch_active s) ∧
  (∀ u r cb q o s a s',
     fetch_start u r cb q o s = Ok (a, s') →
     fetch_active s = true → fetch_active s' = true) ∧
  (∀ work msgs s u s',
     fetch_poll work msgs s = Ok (u, s') →
     (fetch_list s' = None → fetch_active s' = false) ∧
     (fetch_active s = true → fetch_active s' = false → fetch_list s' = None)).
Proof.
  split; [|split].
  - intros f s u s' Hs. by eapply fetch_abort_same_active.
  - intros u r cb q o s a s' Hs. by eapply fetch_start_active_stays.
  - intros work msgs s u s' Hs. unfold fetch_poll in Hs.
    apply bind_ok in Hs as ([] & s1 & Hs1 & Hs).
    apply bind_ok in Hs as ([] & s2 & Hs2 & Hs).
    apply bind_ok in Hs as (s3 & ? & [-> ->]%get_ok & Hs).
    assert (active_stays s s2) as Hst.
    { etrans.
      - eapply (lift_work active_stays (λ _ _, True)); [..|exact Hs1];
          try done; try (intros; exact (λ Ht, Ht)).
        + apply fetch_abort_active_stays.
        + apply fetch_start_active_stays.
        + intros d f. apply (lift_curl_data active_stays (λ _ _, True));
            try done; try (intros; exact (λ Ht, Ht)).
          * apply fetch_abort_active_stays.
          * apply fetch_start_active_stays.
      - eapply (lift_msgs active_stays (λ _ _, True)); [..|exact Hs2];
          try done; try (intros; exact (λ Ht, Ht)).
        + apply fetch_abort_active_stays.
        + apply fetch_start_active_stays. }
    destruct (fetch_list s2) as [a|] eqn:Hl.
    + apply ret_ok in Hs as [_ ->]. split; [by rewrite Hl|].
      intros Ht Hf. apply Hst in Ht. congruence.
    + apply modify_ok in Hs as ->. simpl. by split.
Qed.

(** C8: a second [fetch_abort] on a fetch that the first one cleaned up is
    no no-op: the first call returns with the block freed, and the second
    reads the freed block. *)
Theorem second_abort_reads_freed_block f fr s :
  wf s → heap s !! f = Some fr → in_callback fr = false →
  ∃ s', fetch_abort f s = Ok (tt, s') ∧
    heap s' !! f = None ∧ fetch_abort f s' = Fault UseAfterFree.
Proof.
  intros Hwf Hf Hic.
  destruct (fetch_abort_total f s) as [s' Hs]; [done|by exists fr|].
  assert (heap s' !! f = None) as Hdead.
  { eapply fetch_abort_frees; [done|]. intros (x & Hx & Hb). congruence. }
  exists s'. split; [done|]. split; [done|]. by apply fetch_abort_dead.
Qed.

(** C5: [fetch_start] with a URL that has no host does not fail: it returns
    the new fetch, which is then at the head of [fetch_list], holds a new
    handle added to the multi handle, and [fetch_active] is set. *)
Theorem fetch_start_without_host_starts u r cb q o s :
  wf s → url_host u = None →
  ∃ s', fetch_start u r cb q o s = Ok (next_addr s, s') ∧
    is_Some (heap s' !! next_addr s) ∧
    fetch_list s' = Some (next_addr s) ∧
    fetch_active s' = true ∧
    fld curl_handle (heap s') (next_addr s) = Some (next_handle (engine s)) ∧
    next_handle (engine s) ∈ multi (engine s').
Proof.
  intros Hwf Hu. destruct (fetch_start_total u r cb q o s Hwf) as [s' Hs].
  exists s'. split; [done|].
  apply fetch_start_ok in Hs as [_ [(name & ? & ? & ? & _)|[_ Ha]]]; [congruence|].
  apply activate_ok in Ha as (_ & x & Hx & _ & _ & ->). simpl in *.
  assert (is_Some (activated (next_addr s) (next_handle (engine s)) (fetch_list s)
                     (<[next_addr s := new_fetch u r cb q o]> (heap s))
                   !! next_addr s)) as Hlive.
  { unfold activated.
    rewrite !lookup_alter_is_Some, lookup_wr_is_Some, lookup_alter_is_Some.
    rewrite lookup_insert_eq. eauto. }
  split; [done|]. split; [done|]. split; [done|]. split; [|set_solver].
  unfold activated in *. fld_norm. by rewrite !decide_True by done.
Qed.

(** C9: [fetch_abort] of a fetch that waits in a host queue frees it, but
    also empties [fetch_list]: the waiting fetch has no [prev], and the code
    takes that for being the head of the list. The fetches that were in the
    list stay allocated and keep their handles. *)
Theorem fetch_abort_queued_empties_fetch_list f fr s :
  wf s → heap s !! f = Some fr → in_callback fr = false →
  curl_handle fr = None →
  ∃ s', fetch_abort f s = Ok (tt, s') ∧
    fetch_list s' = None ∧ heap s' !! f = None ∧
    ∀ a, a ≠ f → fld curl_handle (heap s') a = fld curl_handle (heap s) a.
Proof.
  intros Hwf Hf Hic Hh.
  destruct (fetch_abort_total f s) as [s' Hs]; [done|by exists fr|].
  exists s'. split; [done|].
  pose proof (l_queued _ _ (wf_list _ Hwf) f) as Hq.
  rewrite !(fld_lookup _ _ _ _ Hf) in Hq. destruct (Hq Hh) as [Hp Hn].
  apply fetch_abort_ok in Hs as (fr' & Hf' & Hs).
  rewrite Hf in Hf'. injection Hf' as <-. rewrite Hic, Hh in Hs.
  destruct Hs as (_ & _ & _ & _ & _ & _ & ->). simpl.
  split; [|split].
  - unfold unlink_list. by rewrite Hp.
  - apply lookup_delete_eq.
  - intros a Ha. rewrite fld_delete, decide_False by done.
    unfold spliceQ, spliceL, splice. by fld_norm.
Qed.

(** C2: in every state between two calls, a fetch has no [queue_prev]
    exactly when it holds a handle; so the fetches behind the head of a host
    queue hold none. *)
Theorem queue_head_iff_handle s a x :
  reachable s → heap s !! a = Some x →
  (queue_prev x = None ↔ curl_handle x ≠ None).
Proof.
  intros Hwf%reachable_wf Hx.
  pose proof (q_I1 _ (wf_queue _ Hwf) a) as HI.
  rewrite !(fld_lookup _ _ _ _ Hx) in HI. rewrite HI by eauto.
  split; [by intros [h ->]|]. destruct (curl_handle x); [eauto|done].
Qed.

(** C3: when [fetch_poll] completes fetch [f], it first settles the outcome
    ([resolve_done], which sends no [FETCH_FINISHED]), then cleans [f] up
    with the full [fetch_abort]: [f] is freed, and a fetch [g] queued behind
    it is given [f]'s handle, which is added to the multi handle for [g],
    and heads [fetch_list]. Only in the state so reached is
    [FETCH_FINISHED] sent, if that was the outcome. *)
Theorem finished_sent_after_cleanup res f s u s' :
  wf s → quiet s → finish res f s = Ok (u, s') →
  ∃ fr finished s1 s2 l,
    heap s !! f = Some fr ∧
    resolve_done res (callback fr) f s = Ok (finished, s1) ∧
    fetch_abort f s1 = Ok (tt, s2) ∧
    trace s2 = trace s ++ l ∧ Forall (λ e, ev_msg e ≠ FETCH_FINISHED) l ∧
    heap s2 !! f = None ∧
    (∀ h g, fld curl_handle (heap s1) f = Some h →
            fld queue_next (heap s1) f = Some g →
       fld curl_handle (heap s2) g = Some h ∧ fld queue_prev (heap s2) g = None ∧
       h ∈ multi (engine s2) ∧ eopt opt_private (engine s2) h = Some g ∧
       fetch_list s2 = Some g) ∧
    if finished
    then call (callback fr) f FETCH_FINISHED (p fr) PNull 0 s2 = Ok (tt, s') ∧
         trace s' = trace s2 ++ [{| ev_fetch := f; ev_msg := FETCH_FINISHED;
                                     ev_p := p fr; ev_data := PNull; ev_size := 0 |}]
    else s' = s2.
Proof.
  intros Hwf Hq (fr & finished & s1 & s2 & Hf & Hs1 & Hs2 & Hs)%finish_inv.
  assert (wf s1) as Hwf1 by by eapply resolve_done_wf_keep.
  assert (¬ busy s1 f) as Hb1.
  { intros Hb. eapply Hq, resolve_done_calm; done. }
  assert (wf s2) as Hwf2 by by eapply wf_fetch_abort.
  destruct (resolve_done_emits (λ e, ev_msg e ≠ FETCH_FINISHED) res (callback fr) f)
    with (s := s) (a := finished) (s' := s1) as (l & Hl & HP); try done.
  { intros m d a q z Hm. by destruct Hm. }
  exists fr, finished, s1, s2, l.
  split; [done|]. split; [done|]. split; [done|].
  split; [by rewrite (fetch_abort_same_trace f s1 tt s2 Hs2)|].
  split; [done|]. split; [by eapply fetch_abort_frees|]. split.
  - intros h g Hh Hg.
    destruct (fetch_abort_promotes f s1 tt s2 h g) as [Hh2 Hl2]; try done.
    pose proof (e_owner _ _ (wf_engine _ Hwf2) _ _ Hh2) as (Hmu & Hpr & _).
    split; [done|]. split; [|done].
    apply (q_I1 _ (wf_queue _ Hwf2)); [by eapply fld_live|]. by rewrite Hh2.
  - destruct finished; [|done]. split; [done|]. by eapply call_trace.
Qed.

(** C6: when [fetch_poll] processes the completion of a transfer, it sends
    [FETCH_ERROR] with the text of the error buffer exactly when the result
    is neither [CURLE_OK] nor [CURLE_WRITE_ERROR]; the text is then the
    engine's. With [CURLE_WRITE_ERROR], the result of a transfer whose data
    callback returned 0, nothing at all is sent. *)
Theorem error_iff_engine_failure m s u s' :
  wf s → easy_handle m ∈ multi (engine s) →
  process_msg m s = Ok (u, s') →
  ∃ l, trace s' = trace s ++ l ∧
    (Exists engine_error l ↔
       reported (engine s) m ≠ CURLE_OK ∧
       reported (engine s) m ≠ CURLE_WRITE_ERROR) ∧
    (∀ e, e ∈ l → engine_error e → ev_data e = PErrorBuffer (diagnostic m)) ∧
    (reported (engine s) m = CURLE_WRITE_ERROR → l = []).
Proof.
  intros Hwf Hmu Hs. unfold process_msg in Hs.
  apply bind_ok in Hs as (s0 & ? & [-> ->]%get_ok & Hs).
  rewrite bool_decide_true in Hs by done. simpl in Hs.
  destruct (msg m); [|done].
  apply bind_ok in Hs as (e & ? & (h & [= <-] & He & ->)%getinfo_ok & Hs).
  destruct (e_multi _ _ (wf_engine _ Hwf) _ Hmu) as (a & Hpr & Hh).
  destruct (e_owner _ _ (wf_engine _ Hwf) _ _ Hh) as (_ & _ & _ & _ & Heb).
  unfold eopt in Hpr, Heb. rewrite He in Hpr, Heb. simpl in Hpr, Heb.
  rewrite Hpr, Heb in Hs. set (res := reported (engine s) m) in *.
  apply bind_ok in Hs as ([] & s1 & Hs1 & Hs).
  apply finish_inv in Hs as (fr & finished & s2 & s3 & Hf & Hs2 & Hs3 & Hs).
  apply fetch_abort_same_trace in Hs3 as Ht3. unfold same_trace in Ht3.
  unfold resolve_done in Hs2.
  destruct (Z.eqb_spec res CURLE_OK) as [Hok|Hok].
  - apply ret_ok in Hs1 as [_ ->].
    assert (emits (λ e, ¬ engine_error e) s s2) as (l1 & Hl1 & HP1).
    { apply bind_ok in Hs2 as (fr' & ? & [Hf' ->]%deref_ok & Hs2).
      destruct (had_headers fr').
      - apply ret_ok in Hs2 as [_ ->]. reflexivity.
      - apply bind_ok in Hs2 as (rej & s2' & Hs2 & [_ ->]%ret_ok).
        eapply (process_headers_emits _ a); [|exact Hs2].
        intros k d Hk b q z [Hm [t Ht]]. simpl in *. by destruct Hk. }
    assert (∃ l2, trace s' = trace s3 ++ l2 ∧ Forall (λ e, ¬ engine_error e) l2)
      as (l2 & Hl2 & HP2).
    { destruct finished.
      - apply call_trace in Hs. eexists. split; [done|].
        apply Forall_singleton. by intros [? _].
      - subst. exists []. by rewrite app_nil_r. }
    exists (l1 ++ l2). split; [by rewrite Hl2, Ht3, Hl1, (assoc _)|].
    assert (Forall (λ e, ¬ engine_error e) (l1 ++ l2)) as HP by by apply Forall_app.
    split; [|split].
    + split; [|by intros [? _]].
      intros (ev & He1 & He2)%Exists_exists.
      by eapply Forall_forall in HP.
    + intros ev He1 He2. by eapply Forall_forall in HP.
    + unfold CURLE_OK, CURLE_WRITE_ERROR in *. intros. lia.
  - apply store_ok in Hs1 as [[x Hx] ->].
    simpl in Hs2. destruct finished; cycle 1; subst.
    + destruct (Z.eqb_spec res CURLE_WRITE_ERROR) as [Hw|Hw]; simpl in Hs2.
      * apply ret_ok in Hs2 as [_ ->]. exists []. simpl in *.
        split; [by rewrite app_nil_r|]. split; [|split]; try done.
        -- split; [by intros ?%Exists_nil|]. by intros [_ ?].
        -- by intros ev ?%elem_of_nil.
      * apply bind_ok in Hs2 as (fr' & ? & [Hf' ->]%deref_ok & Hs2).
        apply bind_ok in Hs2 as ([] & s2' & Hs2 & [_ ->]%ret_ok).
        apply call_trace in Hs2. simpl in *.
        rewrite lookup_alter, decide_True, Hx in Hf' by done.
        injection Hf' as <-. simpl in *.
        eexists. split; [by rewrite Ht3, Hs2|]. split; [|split].
        -- split; [done|]. intros _. apply Exists_cons_hd. split; [done|]. eauto.
        -- by intros ev ->%list_elem_of_singleton _.
        -- done.
    + destruct (Z.eqb_spec res CURLE_WRITE_ERROR) as [Hw|Hw]; simpl in Hs2.
      * by apply ret_ok in Hs2 as [? _].
      * apply bind_ok in Hs2 as (fr' & ? & [Hf' ->]%deref_ok & Hs2).
        by apply bind_ok in Hs2 as ([] & s2' & Hs2 & [? _]%ret_ok).
Qed.


(** C7: [fetch_process_headers] sends [FETCH_REDIRECT] with the location
    decoded by [curl_unescape], and [fetch_curl_data] then returns 0 to have
    the engine give the transfer up. For an empty chunk 0 is the whole
    chunk: the engine is told that all of it was taken, and when the
    transfer then completes with [CURLE_OK], [fetch_poll] sends
    [FETCH_FINISHED] to the fetch that was told [FETCH_REDIRECT]. *)
Theorem redirect_at_empty_chunk_is_finished f fr h e loc s n s1 :
  wf s → heap s !! f = Some fr → had_headers fr = false →
  curl_handle fr = Some h → easies (engine s) !! h = Some e →
  location fr = Some loc → (300 ≤ info_http_code e < 400)%Z →
  fetch_curl_data EmptyString f s = Ok (n, s1) →
  n = String.length EmptyString ∧
  trace s1 = trace s ++ [{| ev_fetch := f; ev_msg := FETCH_REDIRECT;
                             ev_p := p fr;
                             ev_data := PLocation (curl_unescape loc);
                             ev_size := 0 |}] ∧
  ∀ u s2, finish CURLE_OK f s1 = Ok (u, s2) →
    trace s2 = trace s ++ [{| ev_fetch := f; ev_msg := FETCH_REDIRECT;
                               ev_p := p fr;
                               ev_data := PLocation (curl_unescape loc);
                               ev_size := 0 |};
                            {| ev_fetch := f; ev_msg := FETCH_FINISHED;
                               ev_p := p fr; ev_data := PNull; ev_size := 0 |}].
Proof.
  intros Hwf Hf Hh Hch He Hloc Hcode Hs.
  assert (f < next_addr s) as Hlt by (apply (wf_fresh _ Hwf); eauto).
  unfold fetch_curl_data in Hs.
  apply bind_ok in Hs as ([] & ? & [_ ->]%store_ok & Hs).
  apply bind_ok in Hs as (fr1 & ? & [Hf1 ->]%deref_ok & Hs).
  simpl in Hf1. rewrite lookup_alter, decide_True, Hf in Hf1 by done.
  injection Hf1 as <-. simpl in Hs. rewrite Hh in Hs.
  apply bind_ok in Hs as (rej & s2 & Hs2 & Hs).
  apply process_headers_inv in Hs2 as (fr0 & h0 & e0 & Hf0 & Hh0 & He0 & Hs2).
  simpl in Hf0, He0. rewrite lookup_alter, decide_True, Hf in Hf0 by done.
  injection Hf0 as <-. simpl in Hh0. rewrite Hch in Hh0. injection Hh0 as <-.
  rewrite He in He0. injection He0 as <-.
  unfold resolved in Hs2. simpl in Hs2. rewrite Hloc in Hs2.
  replace ((300 <=? info_http_code e)%Z && (info_http_code e <? 400)%Z)
    with true in Hs2 by (symmetry; apply andb_true_iff; lia).
  destruct Hs2 as [Hs2 Hr]. rewrite decide_False in Hr by done. subst rej.
  apply call_own_inv in Hs2 as (fr' & Hf' & Hs2). simpl in Hf'.
  rewrite lookup_insert_eq in Hf'. injection Hf' as <-.
  pose proof (run_same_trace _ _ _ _ Hs2) as Htr.
  unfold same_trace in Htr. simpl in Htr.
  pose proof (run_grows _ _ _ _ Hs2) as [_ Hg]. simpl in Hg.
  apply bind_ok in Hs as ([] & s3 & [[y Hy] ->]%store_ok & [-> ->]%ret_ok).
  split; [done|]. split; [done|].
  intros u s4 (fr4 & finished & s5 & s6 & Hf4 & Hs5 & Hs6 & Hs7)%finish_inv.
  simpl in Hf4. rewrite lookup_alter, decide_True, Hy in Hf4 by done.
  injection Hf4 as <-.
  assert (had_headers y = true ∧ p y = p fr) as [Hhy Hpy].
  { destruct (Hg f y Hy) as [(x & Hx & Hd)|[? _]]; [|lia].
    rewrite lookup_insert_eq in Hx. injection Hx as <-.
    by injection Hd as _ -> _ _ _ _ _ -> _ _ _ _. }
  unfold resolve_done in Hs5. change (CURLE_OK =? CURLE_OK)%Z with true in Hs5.
  apply bind_ok in Hs5 as (fr5 & ? & [Hf5 ->]%deref_ok & Hs5).
  simpl in Hf5. rewrite lookup_alter, decide_True, Hy in Hf5 by done.
  injection Hf5 as <-. simpl in Hs5. rewrite Hhy in Hs5.
  apply ret_ok in Hs5 as [-> ->].
  apply fetch_abort_same_trace in Hs6. unfold same_trace in Hs6. simpl in Hs6.
  apply call_trace in Hs7. simpl in Hs7.
  by rewrite Hs7, Hs6, Htr, Hpy, <-app_assoc.
Qed.

(** C1: [in_callback] is not set while [fetch_poll] itself calls the
    callback. If the callback of [f] answers [FETCH_ERROR] by [fetch_abort]
    of [f], then, when [fetch_poll] reports a failed transfer of [f], [f] is
    freed before that callback returns, and the [fetch_abort] that
    [fetch_poll] does next reads the freed block. *)
Theorem abort_in_error_callback_frees_at_once f fr res s :
  wf s → quiet s → heap s !! f = Some fr →
  res ≠ CURLE_OK → res ≠ CURLE_WRITE_ERROR →
  (∀ c q d z, callback fr c FETCH_ERROR q d z = Call_fetch_abort f (Return c)) →
  ∃ s1,
    call (callback fr) f FETCH_ERROR (p fr) (PErrorBuffer (error_buffer fr)) 0 s
      = Ok (tt, s1) ∧
    heap s1 !! f = None ∧
    finish res f s = Fault UseAfterFree.
Proof.
  intros Hwf Hq Hf Hok Hwe Hcb.
  set (ev := {| ev_fetch := f; ev_msg := FETCH_ERROR; ev_p := p fr;
                ev_data := PErrorBuffer (error_buffer fr); ev_size := 0 |}).
  set (s0 := with_trace (trace s ++ [ev]) s).
  destruct (fetch_abort_total f s0) as [s0' Hs0]; [by apply wf_log|by exists fr|].
  assert (heap s0' !! f = None) as Hdead.
  { eapply fetch_abort_frees; [done|]. intros Hb. by apply (Hq f). }
  assert (call (callback fr) f FETCH_ERROR (p fr) (PErrorBuffer (error_buffer fr)) 0 s
          = Ok (tt, with_cl (cl s) s0')) as Hcall.
  { unfold call. rewrite (bind_run _ _ s tt s0) by done.
    rewrite (bind_run _ _ s0 s0 s0) by done.
    rewrite Hcb. simpl. by rewrite (bind_run _ _ s0 tt s0') by done. }
  exists (with_cl (cl s) s0'). split; [done|]. split; [done|].
  assert (resolve_done res (callback fr) f s = Ok (false, with_cl (cl s) s0'))
    as Hres.
  { unfold resolve_done.
    destruct (Z.eqb_spec res CURLE_OK) as [?|_]; [done|].
    destruct (Z.eqb_spec res CURLE_WRITE_ERROR) as [?|_]; [done|]. simpl.
    rewrite (bind_run _ _ s fr s) by by apply deref_ok.
    by rewrite (bind_run _ _ _ _ _ Hcall). }
  unfold finish. rewrite (bind_run _ _ s fr s) by by apply deref_ok.
  rewrite (bind_run _ _ _ _ _ Hres).
  apply bind_fault. by apply fetch_abort_dead.
Qed.

(** * More of what fetch.c does *)

(** ** [fetch_start] *)

Lemma enqueued_data n t (m : gmap addr fetch) a :
  data_of <$> (enqueued n t m !! a) = data_of <$> (m !! a).
Proof. unfold enqueued. by rewrite !lookup_alter_proj by done. Qed.

Lemma activated_data n h fl (m : gmap addr fetch) a :
  data_of <$> (activated n h fl m !! a) = data_of <$> (m !! a).
Proof.
  unfold activated.
  by rewrite !lookup_alter_proj, lookup_wr_proj, lookup_alter_proj by done.
Qed.

(** X1: in a well-formed state [fetch_start] returns, and what it returns
    is a block that was not allocated before; the block holds the request as
    given, the other fetches keep their data, and the caller is not called. *)
Theorem fetch_start_returns_new_block u r cb q o s :
  wf s →
  ∃ s', fetch_start u r cb q o s = Ok (next_addr s, s') ∧
    heap s !! next_addr s = None ∧
    next_addr s' = S (next_addr s) ∧ trace s' = trace s ∧
    ∀ a, data_of <$> (heap s' !! a)
         = data_of <$> (<[next_addr s := new_fetch u r cb q o]> (heap s) !! a).
Proof.
  intros Hwf. destruct (fetch_start_total u r cb q o s Hwf) as [s' Hs].
  exists s'. split; [done|]. split; [by apply fresh_not_live|].
  pose proof (fetch_start_same_trace _ _ _ _ _ _ _ _ Hs) as Htr.
  apply fetch_start_ok in Hs as [_ Hs]. simpl in Hs.
  destruct Hs as [(name' & hf & t & _ & _ & _ & ->)|[_ Ha]].
  - split; [done|]. split; [done|]. intros a. simpl. apply enqueued_data.
  - apply activate_ok in Ha as (_ & x & Hx & _ & _ & ->).
    split; [done|]. split; [done|]. intros a. simpl. apply activated_data.
Qed.

Lemma same_host_alloc s name a x :
  heap s !! next_addr s = None →
  same_host (<[next_addr s := x]> (heap s)) name a → a ≠ next_addr s →
  same_host (heap s) name a.
Proof.
  intros Hn (other & Ho & He) Ha. exists other. split; [|done].
  by rewrite fld_insert, decide_False in Ho.
Qed.

(** X2: the new fetch starts to transfer at once exactly when no fetch in
    [fetch_list] is from its host. *)
Theorem fetch_start_transfers_iff_host_idle u r cb q o s n s' :
  wf s → fetch_start u r cb q o s = Ok (n, s') →
  (is_Some (fld curl_handle (heap s') n) ↔
   ∀ name a, url_host u = Some name → listed s a → ¬ same_host (heap s) name a).
Proof.
  intros Hwf Hs. pose proof (fresh_not_live s Hwf) as Hn.
  apply fetch_start_ok in Hs as [-> Hs]. simpl in Hs.
  remember (<[next_addr s := new_fetch u r cb q o]> (heap s)) as m0 eqn:Em0.
  assert (∀ b, b ≠ next_addr s → m0 !! b = heap s !! b) as Hm0.
  { intros b Hb. subst m0. by rewrite lookup_insert_ne. }
  destruct Hs as [(name & hf & t & Hu & Hfh & Hqt & ->)|[Hno Ha]].
  - apply find_host_spec in Hfh as (c & Hc & Hch & Hsame). simpl in Hch, Hsame.
    assert (c ≠ next_addr s) as Hcn.
    { intros ->. apply (l_head _ _ (wf_list _ Hwf)) in Hc as [Hc _].
      apply fld_is_Some in Hc as [x Hx]. congruence. }
    assert (chain next (heap s) c hf) as Hch'.
    { eapply (chain_back _ _ m0 (next_addr s)); try done.
      intros b. by apply wf_no_dangling_next. }
    assert (hf ≠ next_addr s) as Hhfn.
    { intros ->. apply chain_live in Hch' as [_ [x Hx]]. congruence. }
    split.
    + simpl. unfold enqueued. fld_norm. rewrite decide_True by done.
      rewrite fld_const_None. by intros [h Hh].
    + intros Hidle. exfalso. apply (Hidle name hf Hu); [by exists c|].
      subst m0. by eapply same_host_alloc.
  - apply activate_ok in Ha as (_ & x & Hx & _ & _ & ->). simpl in *.
    split.
    + intros _ name a Hu [head [Hhead Hch]] Hsame.
      destruct Hno as [Hno|(name' & Hu' & Hfh)]; [congruence|].
      rewrite Hu in Hu'. injection Hu' as <-.
      apply find_host_spec in Hfh. simpl in Hfh.
      apply (Hfh head a); [done| |].
      * eapply chain_mono; [|done]. intros b [y Hy]. apply Hm0. congruence.
      * destruct Hsame as (other & Ho & He). exists other. split; [|done].
        rewrite <-Ho. unfold fld. rewrite Hm0; [done|].
        apply fld_live in Ho as [y Hy]. congruence.
    + intros _. unfold activated. fld_norm. rewrite decide_True by done.
      rewrite fld_const_live; [eauto|].
      repeat first [rewrite lookup_wr_is_Some | rewrite lookup_alter_is_Some]. eauto.
Qed.

Lemma compare_upto_refl fold n a : compare_upto fold n a a = 0%Z.
Proof.
  revert a. induction n as [|n IH]; intros [|x a]; simpl; try done.
  by rewrite Z.eqb_refl.
Qed.

Lemma chain_ext N (m m' : gmap addr fetch) c a :
  (∀ b v, fld N m b = Some v → fld N m' b = Some v) →
  (∀ b, is_Some (m !! b) → is_Some (m' !! b)) →
  chain N m c a → chain N m' c a.
Proof.
  intros HN Hl. induction 1 as [a Ha|a b c Hab Hbc IH].
  - apply chain_here. auto.
  - eapply chain_step; [|done]. auto.
Qed.

(** After [fetch_start] for a URL with a host, a fetch from that host is in
    [fetch_list]. *)
Lemma fetch_start_leaves_host_listed u r cb q o s a s1 name :
  wf s → url_host u = Some name → fetch_start u r cb q o s = Ok (a, s1) →
  ∃ a', listed s1 a' ∧ same_host (heap s1) name a'.
Proof.
  intros Hwf Hu Hs. pose proof (fresh_not_live s Hwf) as Hn.
  apply fetch_start_ok in Hs as [-> Hs]. simpl in Hs.
  remember (<[next_addr s := new_fetch u r cb q o]> (heap s)) as m0 eqn:Em0.
  destruct Hs as [(name' & hf & t & Hu' & Hfh & Hqt & ->)|[_ Ha]].
  - rewrite Hu in Hu'. injection Hu' as <-.
    apply find_host_spec in Hfh as (c & Hc & Hch & Hsame). simpl in Hch, Hsame.
    exists hf. split.
    + exists c. split; [done|]. simpl.
      eapply chain_ext; [| |exact Hch].
      * intros b v. unfold enqueued. by fld_norm.
      * intros b. unfold enqueued. by rewrite !lookup_alter_is_Some.
    + destruct Hsame as (other & Ho & He). exists other. split; [|done].
      simpl. unfold enqueued. by rewrite !fld_alter_other.
  - apply activate_ok in Ha as (_ & x & Hx & _ & _ & ->). simpl in *.
    subst m0. rewrite lookup_insert_eq in Hx. injection Hx as <-.
    assert (is_Some (activated (next_addr s) (next_handle (engine s)) (fetch_list s)
                       (<[next_addr s := new_fetch u r cb q o]> (heap s))
                     !! next_addr s)) as Hlive.
    { unfold activated.
      repeat first [rewrite lookup_wr_is_Some | rewrite lookup_alter_is_Some].
      rewrite lookup_insert_eq. eauto. }
    exists (next_addr s). split.
    + exists (next_addr s). split; [done|]. by apply chain_here.
    + exists name. split; [|apply compare_upto_refl].
      unfold activated. rewrite !fld_alter_other, fld_wr_other, fld_alter_other by done.
      by rewrite fld_insert, decide_True.
Qed.

(** X3: two requests for the same URL are not transferred at the same
    time: after [fetch_start] for a URL with a host, a second [fetch_start]
    for it returns a fetch that waits, and leaves the engine alone. *)
Theorem same_url_twice_waits u r cb q o r' cb' q' o' s a s1 name :
  wf s → url_host u = Some name →
  fetch_start u r cb q o s = Ok (a, s1) →
  ∃ s2, fetch_start u r' cb' q' o' s1 = Ok (next_addr s1, s2) ∧
    fld curl_handle (heap s2) (next_addr s1) = None ∧
    is_Some (fld queue_prev (heap s2) (next_addr s1)) ∧
    engine s2 = engine s1 ∧ fetch_list s2 = fetch_list s1.
Proof.
  intros Hwf Hu Hs.
  assert (wf s1) as Hwf1 by by eapply wf_fetch_start.
  destruct (fetch_start_leaves_host_listed u r cb q o s a s1 name)
    as (a' & Hl & Hsame); try done.
  destruct (fetch_start_queues u r' cb' q' o' s1 name a')
    as (hf & t & s2 & Hs2 & _ & _ & _ & _ & ->); try done.
  eexists. split; [exact Hs2|]. simpl. unfold enqueued.
  split; [|split; [|done]]; fld_norm;
    repeat first [rewrite decide_True by done | rewrite decide_False by done];
    first [done | by eauto].
Qed.

(** ** The invariants between two calls *)

(** X4: between two calls, the handle of a fetch is in the multi handle,
    its options point back at the fetch, and no other fetch holds it; a
    handle in the multi handle is the handle of a fetch. *)
Theorem handles_and_fetches_agree s :
  reachable s →
  (∀ a h, fld curl_handle (heap s) a = Some h →
     h ∈ multi (engine s) ∧
     eopt opt_private (engine s) h = Some a ∧
     eopt opt_writedata (engine s) h = Some a ∧
     eopt opt_writeheader (engine s) h = Some a ∧
     eopt opt_errorbuffer (engine s) h = Some a ∧
     ∀ b, fld curl_handle (heap s) b = Some h → b = a) ∧
  (∀ h, h ∈ multi (engine s) → ∃ a, fld curl_handle (heap s) a = Some h).
Proof.
  intros Hwf%reachable_wf. split.
  - intros a h Hh.
    destruct (e_owner _ _ (wf_engine _ Hwf) a h Hh) as (? & ? & ? & ? & ?).
    repeat (split; [done|]). intros b Hb.
    by eapply engine_owner_inj; [apply Hwf|..].
  - intros h Hh. destruct (e_multi _ _ (wf_engine _ Hwf) h Hh) as (a & _ & Ha).
    eauto.
Qed.

Lemma chain_handles s c a :
  wf s → is_Some (fld curl_handle (heap s) c) → chain next (heap s) c a →
  is_Some (fld curl_handle (heap s) a).
Proof.
  intros Hwf Hc Hch. induction Hch as [a Ha|a b c Hab Hbc IH]; [done|].
  apply IH. apply (l_links _ _ (wf_list _ Hwf)) in Hab.
  destruct (fld curl_handle (heap s) b) as [h|] eqn:Hb; [eauto|].
  apply (l_queued _ _ (wf_list _ Hwf)) in Hb as [Hp _]. congruence.
Qed.

(** X5: between two calls, every fetch in [fetch_list] holds a handle and
    is the first of its queue. *)
Theorem fetch_list_holds_transfers s a :
  reachable s → listed s a →
  is_Some (fld curl_handle (heap s) a) ∧ fld queue_prev (heap s) a = None.
Proof.
  intros Hwf%reachable_wf (head & Hhead & Hch).
  assert (is_Some (fld curl_handle (heap s) a)) as Hh.
  { eapply chain_handles; [done| |done].
    by apply (l_head _ _ (wf_list _ Hwf)) in Hhead as [? _]. }
  split; [done|]. apply (q_I1 _ (wf_queue _ Hwf)); [|done].
  by eapply fld_is_Some.
Qed.

(** X6: between two calls no fetch has [in_callback] set. *)
Theorem no_callback_between_calls s a x :
  reachable s → heap s !! a = Some x → in_callback x = false.
Proof.
  intros Hq%reachable_quiet Hx.
  destruct (in_callback x) eqn:Hic; [|done].
  destruct (Hq a). by exists x.
Qed.

(** ** [fetch_abort] *)

(** X7: in a well-formed state [fetch_abort] of an allocated fetch returns;
    it does not call the caller and allocates nothing. *)
Theorem fetch_abort_returns f s :
  wf s → is_Some (heap s !! f) →
  ∃ s', fetch_abort f s = Ok (tt, s') ∧
    trace s' = trace s ∧ next_addr s' = next_addr s ∧
    ∀ a, is_Some (heap s' !! a) → is_Some (heap s !! a).
Proof.
  intros Hwf Hf. destruct (fetch_abort_total f s Hwf Hf) as [s' Hs].
  exists s'. split; [done|].
  split; [by eapply fetch_abort_same_trace|].
  pose proof (fetch_abort_grows f s tt s' Hs) as [Hle Hg].
  assert (next_addr s' = next_addr s) as Hna.
  { apply fetch_abort_ok in Hs as (fr & _ & Hs).
    destruct (in_callback fr); [by subst|]. destruct Hs as (_ & _ & _ & Hs).
    destruct (curl_handle fr), (queue_next fr);
      [destruct Hs as (? & ? & _ & _ & _ & ->)|destruct Hs as (_ & _ & _ & ->)..];
      done. }
  split; [done|]. intros a [y Hy].
  destruct (Hg a y Hy) as [(x & Hx & _)|[Ha _]]; [eauto|lia].
Qed.

(** X8: the cleanup frees the fetch it is called for and no other, and the
    fetches that stay keep their data. *)
Theorem fetch_abort_frees_only_its_fetch f s u s' :
  fetch_abort f s = Ok (u, s') → ¬ busy s f →
  (∀ a, is_Some (heap s' !! a) ↔ a ≠ f ∧ is_Some (heap s !! a)) ∧
  (∀ a, a ≠ f → data_of <$> (heap s' !! a) = data_of <$> (heap s !! a)).
Proof.
  intros (fr & Hf & Hs)%fetch_abort_ok Hb.
  destruct (in_callback fr) eqn:Hic; [destruct Hb; by exists fr|].
  destruct Hs as (_ & _ & _ & Hs).
  destruct (curl_handle fr) as [h|], (queue_next fr) as [g|];
    [destruct Hs as (gr & e & _ & _ & _ & ->)|destruct Hs as (_ & _ & _ & ->)..];
    simpl; split; intros a.
  1,3,5,7: rewrite delete_is_Some;
    rewrite ?promoted_is_Some, ?spliceQ_is_Some, ?spliceL_is_Some; done.
  all: intros Ha; rewrite lookup_delete_ne by done.
  - rewrite (promoted_proj data_of) by done. by apply spliceL_proj.
  - rewrite (spliceQ_proj data_of) by done. by apply spliceL_proj.
  - rewrite (spliceQ_proj data_of) by done. by apply spliceL_proj.
  - rewrite (spliceQ_proj data_of) by done. by apply spliceL_proj.
Qed.

(** ** The callbacks of the engine *)

(** X9: once the headers of a fetch have been processed, [fetch_curl_data]
    passes every chunk on as [FETCH_DATA] and returns its full length, also
    when the caller has asked for an abort: [aborting] is not looked at. *)
Theorem data_after_headers_is_passed_on d f fr s n s' :
  heap s !! f = Some fr → had_headers fr = true →
  fetch_curl_data d f s = Ok (n, s') →
  n = String.length d ∧
  trace s' = trace s ++ [{| ev_fetch := f; ev_msg := FETCH_DATA; ev_p := p fr;
                             ev_data := PChunk d;
                             ev_size := N.of_nat (String.length d) |}].
Proof.
  intros Hf Hh Hs. unfold fetch_curl_data in Hs.
  apply bind_ok in Hs as ([] & s1 & [_ ->]%store_ok & Hs).
  apply bind_ok in Hs as (fr1 & ? & [Hf1 ->]%deref_ok & Hs).
  simpl in Hf1. rewrite lookup_alter, decide_True, Hf in Hf1 by done.
  injection Hf1 as <-. simpl in Hs. rewrite Hh in Hs.
  apply bind_ok in Hs as (rej & ? & [-> ->]%ret_ok & Hs).
  apply bind_ok in Hs as ([] & s2 & (fr2 & Hf2 & Hs2)%call_own_inv & Hs).
  apply bind_ok in Hs as ([] & s3 & [_ ->]%store_ok & [-> ->]%ret_ok).
  simpl in Hf2. rewrite lookup_alter, decide_True, Hf in Hf2 by done.
  injection Hf2 as <-. split; [done|].
  apply run_same_trace in Hs2. simpl in *. by rewrite Hs2.
Qed.

(** The message [resolved] names is one of those of the headers, for the
    caller's [p]. *)
Lemma resolved_from_headers fr e :
  from_headers (resolved fr e).2.1.1 (resolved fr e).2.1.2 ∧
  p (resolved fr e).1 = p fr.
Proof.
  unfold resolved, resolved_rest.
  destruct (location fr); [destruct (_ && _)|];
    repeat (destruct (_ && _)); simpl; split; done || constructor.
Qed.

(** X10: [fetch_process_headers] tells the caller one thing, and reports
    that the transfer may go on only after [FETCH_TYPE]. *)
Theorem fetch_process_headers_tells_once f s r s' :
  fetch_process_headers f s = Ok (r, s') →
  ∃ fr e,
    heap s !! f = Some fr ∧ trace s' = trace s ++ [e] ∧
    ev_fetch e = f ∧ ev_p e = p fr ∧ from_headers (ev_msg e) (ev_data e) ∧
    (r = false → ev_msg e = FETCH_TYPE).
Proof.
  intros (fr & h & e & Hf & Hh & He & Hs)%process_headers_inv.
  destruct (resolved_from_headers fr e) as [Hfrom Hp].
  destruct (resolved fr e) as [fr' [[m d] z]]. simpl in *.
  destruct Hs as [(fr0 & Hf0 & Hs)%call_own_inv Hr].
  simpl in Hf0. rewrite lookup_insert_eq in Hf0. injection Hf0 as <-.
  apply run_same_trace in Hs. eexists fr, _.
  split; [done|]. split; [exact Hs|]. simpl.
  split; [done|]. split; [done|]. split; [done|].
  intros ->. by destruct (decide (m = FETCH_TYPE)).
Qed.

(** X11: a fetch that accepts only 2xx, for an [http] URL, whose status is
    outside 200-299 and is neither a redirection with a location nor (with
    [WITH_AUTH]) 401, is given up with [FETCH_ERROR] and the message
    [Not2xx]. *)
Theorem only_2xx_gives_up f fr h e s r s' :
  heap s !! f = Some fr → curl_handle fr = Some h →
  easies (engine s) !! h = Some e →
  only_2xx fr = true → strncmp (url fr) "http" 4 = 0%Z →
  (info_http_code e < 200 ∨ 299 < info_http_code e)%Z →
  (location fr = None ∨ info_http_code e < 300 ∨ 400 ≤ info_http_code e)%Z →
  (WITH_AUTH = false ∨ info_http_code e ≠ 401%Z) →
  fetch_process_headers f s = Ok (r, s') →
  r = true ∧
  trace s' = trace s ++ [{| ev_fetch := f; ev_msg := FETCH_ERROR; ev_p := p fr;
                             ev_data := PMessage (messages_get "Not2xx");
                             ev_size := 0 |}].
Proof.
  intros Hf Hh He Honly Hhttp Hcode Hnored Hnoauth Hs.
  apply process_headers_inv in Hs as (fr0 & h0 & e0 & Hf0 & Hh0 & He0 & Hs).
  rewrite Hf in Hf0. injection Hf0 as <-.
  rewrite Hh in Hh0. injection Hh0 as <-.
  rewrite He in He0. injection He0 as <-.
  assert (resolved fr e = (set_had_headers true fr,
            (FETCH_ERROR, PMessage (messages_get "Not2xx"), 0%N))) as Hres.
  { assert (resolved_rest fr e
            = (FETCH_ERROR, PMessage (messages_get "Not2xx"), 0%N)) as Hrest.
    { unfold resolved_rest.
      replace (WITH_AUTH && (info_http_code e =? 401)%Z) with false.
      2:{ symmetry. apply andb_false_iff.
          destruct Hnoauth as [?|?]; [by left|right]. by apply Z.eqb_neq. }
      rewrite Honly, Hhttp. simpl.
      replace ((info_http_code e <? 200)%Z || (299 <? info_http_code e)%Z)
        with true; [done|].
      symmetry. apply orb_true_iff. lia. }
    unfold resolved. rewrite Hrest.
    destruct (location fr) as [loc|]; [|done].
    replace ((300 <=? info_http_code e)%Z && (info_http_code e <? 400)%Z)
      with false; [done|].
    symmetry. apply andb_false_iff. destruct Hnored as [?|?]; [done|lia]. }
  rewrite Hres in Hs. destruct Hs as [(fr0 & Hf0 & Hs)%call_own_inv Hr].
  rewrite decide_False in Hr by done. split; [done|].
  simpl in Hf0. rewrite lookup_insert_eq in Hf0. injection Hf0 as <-.
  apply run_same_trace in Hs. by rewrite Hs.
Qed.

Lemma store_then_ret {A} f g (n k : A) s s' :
  (store f g;; mret n) s = Ok (k, s') →
  k = n ∧ ∃ x, heap s !! f = Some x ∧ s' = with_heap (<[f := g x]> (heap s)) s.
Proof.
  intros ([] & s1 & Hs1 & [-> ->]%ret_ok)%bind_ok. split; [done|].
  unfold store in Hs1. destruct (heap s !! f) as [x|] eqn:Hx; [|done].
  injection Hs1 as <-. eauto.
Qed.

(** X12: when [fetch_curl_header] returns, it returns the length of the
    line, and it has written at most the location, the content length or the
    realm of its fetch. *)
Theorem fetch_curl_header_takes_line d f s n s' :
  fetch_curl_header d f s = Ok (n, s') →
  n = String.length d ∧
  (s' = s ∨
   ∃ x y, heap s !! f = Some x ∧ header_fields_of x y = x ∧
          s' = with_heap (<[f := y]> (heap s)) s).
Proof.
  unfold fetch_curl_header. intros Hs.
  repeat case_match; try done.
  all: first
    [ apply ret_ok in Hs as [-> ->]; split; [done|by left]
    | apply store_then_ret in Hs as (-> & x & Hx & ->);
      split; [done|]; right; exists x; eexists;
      split; [done|]; split; [|done]; by destruct x ].
Qed.

Lemma compare_upto_app fold n a x b :
  String.length a = n → compare_upto fold n (a ++ x) b = compare_upto fold n a b.
Proof.
  revert a b. induction n as [|n IH]; intros [|c a] b Hlen; simpl in *; try done.
  destruct b as [|y b]; [done|]. destruct (_ =? _)%Z; [|done].
  apply IH. by injection Hlen.
Qed.

Lemma drop_string_app n a x : String.length a = n → drop_string n (a ++ x) = x.
Proof.
  revert a. induction n as [|n IH]; intros [|c a] Hlen; simpl in *; try done.
  apply IH. by injection Hlen.
Qed.

Lemma skip_blanks_app b v :
  all_chars is_blank b = true → skip_blanks (b ++ v) = skip_blanks v.
Proof.
  induction b as [|c b IH]; simpl; [done|].
  intros [Hc Hb]%andb_true_iff. rewrite Hc. auto.
Qed.

Lemma cut_trailing_spaces t : all_chars is_space t = true → cut_trailing t = None.
Proof.
  induction t as [|c t IH]; simpl; [done|].
  intros [Hc Ht]%andb_true_iff. by rewrite IH, Hc.
Qed.

Lemma cut_trailing_cons c s :
  cut_trailing (String c s)
  = match cut_trailing s with
    | Some t => Some (String c t)
    | None => if is_space c then None else Some (String c EmptyString)
    end.
Proof. done. Qed.

Lemma cut_trailing_app v t :
  ends_in_text v = true → all_chars is_space t = true →
  cut_trailing (v ++ t) = Some v.
Proof.
  intros Hv Ht. induction v as [|c v IH]; [done|].
  change (String.append (String c v) t) with (String c (String.append v t)).
  rewrite cut_trailing_cons.
  destruct v as [|c' v].
  - change (String.append EmptyString t) with t. rewrite (cut_trailing_spaces t Ht).
    simpl in Hv. by apply negb_true_iff in Hv as ->.
  - by rewrite IH.
Qed.

Lemma skip_blanks_spaces t :
  all_chars is_space t = true → all_chars is_space (skip_blanks t) = true.
Proof.
  induction t as [|c t IH]; simpl; [done|].
  intros [Hc Ht]%andb_true_iff. destruct (is_blank c); [auto|].
  simpl. by rewrite Hc, Ht.
Qed.

Lemma length_app_string a b :
  String.length (a ++ b) = String.length a + String.length b.
Proof. induction a as [|c a IH]; simpl; [done|]. by rewrite IH. Qed.

Lemma skip_blanks_text c v : is_blank c = false → skip_blanks (String c v) = String c v.
Proof. intros Hc. simpl. by rewrite Hc. Qed.

(** X13: a [Location] header - the name in any case, blanks, a value
    without a zero byte, white space to the end of the line - leaves the
    value, without the blanks before it and the white space after it, as the
    location. *)
Theorem location_header_is_trimmed name blanks c v trail f fr s :
  heap s !! f = Some fr →
  String.length name = 9 → strncasecmp name "Location:" 9 = 0%Z →
  all_chars is_blank blanks = true →
  is_blank c = false → ends_in_text (String c v) = true →
  all_chars (λ x, negb (Ascii.eqb x zero)) (String c v) = true →
  all_chars is_space trail = true →
  12 < String.length (name ++ blanks ++ String c v ++ trail) →
  fetch_curl_header (name ++ blanks ++ String c v ++ trail) f s
    = Ok (String.length (name ++ blanks ++ String c v ++ trail),
          with_heap (<[f := set_location (Some (String c v)) fr]> (heap s)) s).
Proof.
  intros Hf Hlen Hname Hblanks Hc Hv _ Htrail Hsize.
  unfold fetch_curl_header.
  replace (12 <? _) with true by (symmetry; by apply Nat.ltb_lt).
  unfold strncasecmp. rewrite compare_upto_app by done.
  unfold strncasecmp in Hname. rewrite Hname.
  change (0 =? 0)%Z with true. cbn [andb].
  rewrite drop_string_app by done. rewrite skip_blanks_app by done.
  change (String.append (String c v) trail) with (String c (String.append v trail)).
  rewrite skip_blanks_text by done.
  change (String c (String.append v trail)) with (String.append (String c v) trail).
  rewrite cut_trailing_app by done.
  unfold store, mbind, M_bind. by rewrite Hf.
Qed.

(** X14: a [Location] header of more than 12 characters whose value is all
    white space makes the loop that cuts the trailing white space step
    before the start of the copy. *)
Theorem location_header_of_spaces_overruns name spaces f s :
  String.length name = 9 → strncasecmp name "Location:" 9 = 0%Z →
  all_chars is_space spaces = true →
  12 < String.length (name ++ spaces) →
  fetch_curl_header (name ++ spaces) f s = Fault OutOfBounds.
Proof.
  intros Hlen Hname Hspaces Hsize. unfold fetch_curl_header.
  replace (12 <? _) with true by (symmetry; by apply Nat.ltb_lt).
  unfold strncasecmp. rewrite compare_upto_app by done.
  unfold strncasecmp in Hname. rewrite Hname.
  change (0 =? 0)%Z with true. cbn [andb].
  rewrite drop_string_app by done.
  by rewrite cut_trailing_spaces by by apply skip_blanks_spaces.
Qed.

(** ** The trace *)

(** X15: a fetch whose headers have not been processed has been told
    nothing, and nothing is told for a block that was never handed out. *)
Theorem nothing_told_before_headers s a :
  reachable_with no_empty_chunk s →
  (next_addr s ≤ a ∨ ∃ x, heap s !! a = Some x ∧ had_headers x = false) →
  events_of a (trace s) = [].
Proof.
  intros (_ & _ & Ht)%reachable_tr_ok [Ha|(x & Hx & Hh)].
  - by apply (t_fresh _ _ Ht).
  - by apply (t_headers _ _ Ht a x).
Qed.

(** X18: when the completion of a fetch in [fetch_poll] runs to its end,
    whatever the result of the transfer and whatever the caller does when
    told, the fetch is freed. *)
Theorem completion_frees_the_fetch res f s u s' :
  wf s → quiet s → finish res f s = Ok (u, s') → heap s' !! f = None.
Proof.
  intros Hwf Hq (fr & finished & s1 & s2 & Hf & Hs1 & Hs2 & Hs)%finish_inv.
  assert (f < next_addr s) as Hlt by (apply (wf_fresh _ Hwf); eauto).
  assert (¬ busy s1 f) as Hb1.
  { intros Hb. eapply Hq, resolve_done_calm; done. }
  destruct (resolve_done_stays f res (callback fr) f s finished s1 Hs1)
    as [[Hwf1 Hlt1] _]; [done|].
  destruct (fetch_abort_stays f f s1 tt s2 Hs2) as [[Hwf2 Hlt2] _]; [done|].
  assert (heap s2 !! f = None) as Hd by by eapply fetch_abort_frees.
  destruct finished; [|by subst].
  apply call_inv in Hs. apply run_grows in Hs as [Hle Hg]. simpl in *.
  destruct (heap s' !! f) as [y|] eqn:Hy; [|done].
  destruct (Hg f y Hy) as [(x & Hx & _)|[? _]]; [congruence|lia].
Qed.

(** ** The first chunk *)

(** X16: for a fetch whose headers were not processed yet,
    [fetch_curl_data] processes them first: the caller is told one thing
    from the headers, and the chunk follows, and is taken in full, only when
    that was [FETCH_TYPE]; otherwise nothing of the chunk is taken. *)
Theorem first_chunk_waits_for_type d f fr s n s' :
  heap s !! f = Some fr → had_headers fr = false →
  fetch_curl_data d f s = Ok (n, s') →
  ∃ e, ev_fetch e = f ∧ ev_p e = p fr ∧ from_headers (ev_msg e) (ev_data e) ∧
    ((n = 0 ∧ trace s' = trace s ++ [e]) ∨
     (n = String.length d ∧ ev_msg e = FETCH_TYPE ∧
      ∃ e', trace s' = trace s ++ [e; e'] ∧ ev_fetch e' = f ∧
            ev_msg e' = FETCH_DATA ∧ ev_data e' = PChunk d ∧
            ev_size e' = N.of_nat (String.length d))).
Proof.
  intros Hf Hh Hs. unfold fetch_curl_data in Hs.
  apply bind_ok in Hs as ([] & s1 & [_ ->]%store_ok & Hs).
  apply bind_ok in Hs as (fr1 & ? & [Hf1 ->]%deref_ok & Hs).
  simpl in Hf1. rewrite lookup_alter, decide_True, Hf in Hf1 by done.
  injection Hf1 as <-. simpl in Hs. rewrite Hh in Hs.
  apply bind_ok in Hs as (rej & s2 & Hs2 & Hs).
  apply process_headers_inv in Hs2 as (fr0 & h & e0 & Hf0 & _ & _ & Hs2).
  simpl in Hf0. rewrite lookup_alter, decide_True, Hf in Hf0 by done.
  injection Hf0 as <-.
  destruct (resolved_from_headers (set_in_callback true fr) e0) as [Hfrom Hp].
  destruct (resolved (set_in_callback true fr) e0) as [fr' [[m d0] z]].
  simpl in Hfrom, Hp, Hs2.
  destruct Hs2 as [(fr1 & Hf1 & Hs2)%call_own_inv Hr].
  simpl in Hf1. rewrite lookup_insert_eq in Hf1. injection Hf1 as <-.
  apply run_same_trace in Hs2. unfold same_trace in Hs2. simpl in Hs2.
  set (e := {| ev_fetch := f; ev_msg := m; ev_p := p fr'; ev_data := d0;
               ev_size := z |}) in *.
  assert (rej = false → m = FETCH_TYPE) as Hr'.
  { intros ->. by destruct (decide (m = FETCH_TYPE)). }
  clear Hr. rename Hs2 into Htr.
  exists e. split; [done|]. split; [done|]. split; [done|].
  destruct rej.
  - left. apply bind_ok in Hs as ([] & s3 & [_ ->]%store_ok & [-> ->]%ret_ok).
    done.
  - right. split.
    { apply bind_ok in Hs as ([] & s3 & _ & Hs).
      by apply bind_ok in Hs as ([] & s4 & _ & [-> ->]%ret_ok). }
    split; [by apply Hr'|].
    apply bind_ok in Hs as ([] & s3 & (fr2 & Hf2 & Hs3)%call_own_inv & Hs).
    apply bind_ok in Hs as ([] & s4 & [_ ->]%store_ok & [-> ->]%ret_ok).
    apply run_same_trace in Hs3. unfold same_trace in Hs3. simpl in Hs3.
    eexists. simpl. split; [by rewrite Hs3, Htr, <-app_assoc|]. done.
Qed.

Lemma file_url_prefix u :
  strncmp u "file:///" 8 = 0%Z → strncmp u "file:/" 6 = 0%Z.
Proof.
  unfold strncmp.
  do 6 (destruct u as [|? u]; simpl; [done|]; destruct (_ =? _)%Z; [|done]).
  done.
Qed.

(** X17: a fetch whose status is 2xx is told [FETCH_TYPE] with the content
    type the engine reports and the content length of its headers; when the
    engine reports none and the URL is no [file:/] URL, the type is
    [text/html]. *)
Theorem type_defaults_to_text_html f fr h e s r s' :
  heap s !! f = Some fr → curl_handle fr = Some h →
  easies (engine s) !! h = Some e →
  (200 ≤ info_http_code e ≤ 299)%Z →
  strncmp (url fr) "file:/" 6 ≠ 0%Z →
  fetch_process_headers f s = Ok (r, s') →
  trace s' = trace s ++ [{| ev_fetch := f; ev_msg := FETCH_TYPE; ev_p := p fr;
                             ev_data := PMime (default "text/html" (info_content_type e));
                             ev_size := content_length fr |}].
Proof.
  intros Hf Hh He Hcode Hfile Hs.
  apply process_headers_inv in Hs as (fr0 & h0 & e0 & Hf0 & Hh0 & He0 & Hs).
  rewrite Hf in Hf0. injection Hf0 as <-.
  rewrite Hh in Hh0. injection Hh0 as <-.
  rewrite He in He0. injection He0 as <-.
  assert (resolved fr e = (set_had_headers true fr,
            (FETCH_TYPE, PMime (default "text/html" (info_content_type e)),
             content_length fr))) as Hres.
  { assert (resolved_rest fr e
            = (FETCH_TYPE, PMime (default "text/html" (info_content_type e)),
               content_length fr)) as Hrest.
    { unfold resolved_rest.
      replace ((info_http_code e =? 401)%Z) with false by (symmetry; lia).
      replace ((info_http_code e <? 200)%Z) with false by (symmetry; lia).
      replace ((299 <? info_http_code e)%Z) with false by (symmetry; lia).
      rewrite !andb_false_r. simpl.
      destruct (info_content_type e); [done|]. simpl. unfold guess_type.
      destruct (strncmp (url fr) "file:///" 8 =? 0)%Z eqn:E8.
      { apply Z.eqb_eq, file_url_prefix in E8. done. }
      by apply Z.eqb_neq in Hfile as ->. }
    unfold resolved. rewrite Hrest.
    destruct (location fr) as [loc|]; [|done].
    by replace ((info_http_code e <? 400)%Z) with true by (symmetry; lia);
      replace ((300 <=? info_http_code e)%Z) with false by (symmetry; lia). }
  rewrite Hres in Hs. destruct Hs as [(fr0 & Hf0 & Hs)%call_own_inv _].
  simpl in Hf0. rewrite lookup_insert_eq in Hf0. injection Hf0 as <-.
  apply run_same_trace in Hs. by rewrite Hs.
Qed.

(** ** The redirection *)

(** X19: when [fetch_process_headers] finds a [Location] and a status from
    300 to 399, it sends [FETCH_REDIRECT] with the location decoded by
    [curl_unescape], once, and reports the fetch as given up. In every state
    between two calls, a [FETCH_REDIRECT] in the trace is all that its fetch
    was ever told - no [FETCH_TYPE], [FETCH_DATA] or [FETCH_FINISHED] - if
    the engine never passes an empty chunk to the data callback. *)
Theorem redirect_is_all_its_fetch_is_told :
  (∀ f s r s' fr h e loc,
     heap s !! f = Some fr → curl_handle fr = Some h →
     easies (engine s) !! h = Some e → location fr = Some loc →
     (300 ≤ info_http_code e < 400)%Z →
     fetch_process_headers f s = Ok (r, s') →
     r = true ∧
     trace s' = trace s ++ [{| ev_fetch := f; ev_msg := FETCH_REDIRECT;
                                ev_p := p fr;
                                ev_data := PLocation (curl_unescape loc);
                                ev_size := 0 |}]) ∧
  (∀ s e,
     reachable_with no_empty_chunk s → e ∈ trace s →
     ev_msg e = FETCH_REDIRECT →
     events_of (ev_fetch e) (trace s) = [e] ∧
     ∃ loc, ev_data e = PLocation (curl_unescape loc)).
Proof.
  split.
  - intros f s r s' fr h e loc Hf Hh He Hloc Hcode Hs.
    apply process_headers_inv in Hs as (fr0 & h0 & e0 & Hf0 & Hh0 & He0 & Hs).
    rewrite Hf in Hf0. injection Hf0 as <-.
    rewrite Hh in Hh0. injection Hh0 as <-.
    rewrite He in He0. injection He0 as <-.
    unfold resolved in Hs. rewrite Hloc in Hs.
    replace ((300 <=? info_http_code e)%Z && (info_http_code e <? 400)%Z)
      with true in Hs by (symmetry; apply andb_true_iff; lia).
    destruct Hs as [Hs Hr]. rewrite decide_False in Hr by done.
    split; [done|].
    apply call_own_inv in Hs as (fr' & Hf' & Hs). simpl in Hf'.
    rewrite lookup_insert_eq in Hf'. injection Hf' as <-.
    apply run_same_trace in Hs. by rewrite Hs.
  - intros s e (_ & _ & Ht)%reachable_tr_ok He Hm. split.
    + apply (t_redirect _ _ Ht); [|done]. by apply events_of_elem.
    + by apply (t_decoded _ _ Ht).
Qed.
End Proofs.

(** * The statements at work *)

Section Examples.
#[local] Existing Instance simple_world.

Lemma reachable_after_start fair u r cb q o s :
  reachable_with fair s → reachable_with fair (state_after (fetch_start u r cb q o) s).
Proof.
  intros Hs. unfold state_after.
  destruct (fetch_start u r cb q o s) as [[a s']|] eqn:E; [|done].
  by eapply reach_start.
Qed.

Lemma reachable_after_abort fair f s :
  reachable_with fair s → reachable_with fair (state_after (fetch_abort f) s).
Proof.
  intros Hs. unfold state_after.
  destruct (fetch_abort f s) as [[[] s']|] eqn:E; [|done].
  by eapply reach_abort.
Qed.

Lemma reachable_after_poll (fair : list transfer → Prop) work msgs s :
  fair work → reachable_with fair s →
  reachable_with fair (state_after (fetch_poll work msgs) s).
Proof.
  intros Hf Hs. unfold state_after.
  destruct (fetch_poll work msgs s) as [[[] s']|] eqn:E; [|done].
  by eapply reach_poll.
Qed.

Lemma reachable_one_fetch fair cb : reachable_with fair (one_fetch cb).
Proof. unfold one_fetch. apply reachable_after_start. apply reach_init. Qed.

Lemma reachable_two_fetches fair cb : reachable_with fair (two_fetches cb).
Proof. unfold two_fetches. apply reachable_after_start. apply reachable_one_fetch. Qed.

(** C1 at work: the one fetch aborts itself when told of the error. *)
Lemma abort_in_error_callback_frees_at_once_witness :
  ∃ s1,
    call (callback (the_fetch (cb_abort_on_error 1))) 1 FETCH_ERROR
      (p (the_fetch (cb_abort_on_error 1)))
      (PErrorBuffer (error_buffer (the_fetch (cb_abort_on_error 1)))) 0
      (one_fetch (cb_abort_on_error 1)) = Ok (tt, s1) ∧
    heap s1 !! 1 = None ∧
    finish 7 1 (one_fetch (cb_abort_on_error 1)) = Fault UseAfterFree.
Proof.
  apply (abort_in_error_callback_frees_at_once 1
           (the_fetch (cb_abort_on_error 1)) 7 (one_fetch (cb_abort_on_error 1))).
  - apply reachable_wf, reachable_one_fetch.
  - apply reachable_quiet, reachable_one_fetch.
  - vm_compute. reflexivity.
  - done.
  - done.
  - intros. reflexivity.
Defined.

(** The same through [fetch_poll]. *)
Example self_abort_in_fetch_poll :
  fetch_poll [] [refused] (one_fetch (cb_abort_on_error 1)) = Fault UseAfterFree.
Proof. vm_compute. reflexivity. Qed.

(** C2 at work: of two fetches from one host, the second waits without a
    handle. *)
Lemma queue_head_iff_handle_witness :
  heap (two_fetches cb_watch) !! 2 = Some the_waiting_fetch ∧
  queue_prev the_waiting_fetch = Some 1 ∧ curl_handle the_waiting_fetch = None ∧
  (queue_prev the_waiting_fetch = None ↔ curl_handle the_waiting_fetch ≠ None).
Proof.
  assert (heap (two_fetches cb_watch) !! 2 = Some the_waiting_fetch) as Hx.
  { vm_compute. reflexivity. }
  split; [done|]. split; [done|]. split; [done|].
  apply (queue_head_iff_handle (two_fetches cb_watch) 2); [|done].
  apply reachable_two_fetches.
Defined.

(** C3 at work: fetch 1 completes with fetch 2 waiting behind it. *)
Lemma finished_sent_after_cleanup_witness :
  ∃ s1 s2,
    fetch_abort 1 s1 = Ok (tt, s2) ∧ heap s2 !! 1 = None ∧
    finish 0 1 (two_fetches cb_watch)
      = Ok (tt, state_after (finish 0 1) (two_fetches cb_watch)).
Proof.
  assert (finish 0 1 (two_fetches cb_watch)
          = Ok (tt, state_after (finish 0 1) (two_fetches cb_watch))) as Hs.
  { vm_compute. reflexivity. }
  destruct (finished_sent_after_cleanup 0 1 (two_fetches cb_watch) tt
              (state_after (finish 0 1) (two_fetches cb_watch)))
    as (fr & finished & s1 & s2 & l & _ & _ & Ha & _ & _ & Hd & _).
  - apply reachable_wf, reachable_two_fetches.
  - apply reachable_quiet, reachable_two_fetches.
  - exact Hs.
  - exists s1, s2. split; [exact Ha|]. split; [exact Hd|exact Hs].
Defined.



(** C5 at work: a URL with no host. *)
Lemma fetch_start_without_host_starts_witness :
  ∃ s', fetch_start "about:blank" None cb_watch 0 false nothing_yet
          = Ok (next_addr nothing_yet, s') ∧
    is_Some (heap s' !! next_addr nothing_yet) ∧
    fetch_list s' = Some (next_addr nothing_yet) ∧
    fetch_active s' = true ∧
    fld curl_handle (heap s') (next_addr nothing_yet)
      = Some (next_handle (engine nothing_yet)) ∧
    next_handle (engine nothing_yet) ∈ multi (engine s').
Proof.
  apply (fetch_start_without_host_starts "about:blank" None cb_watch 0 false
           nothing_yet).
  - apply wf_init.
  - reflexivity.
Defined.

(** C6 at work: the engine could not connect. *)
Lemma error_iff_engine_failure_witness :
  ∃ l, trace (state_after (process_msg refused) (one_fetch cb_watch))
         = trace (one_fetch cb_watch) ++ l ∧
    Exists engine_error l ∧
    ∀ e, e ∈ l → engine_error e → ev_data e = PErrorBuffer (diagnostic refused).
Proof.
  destruct (error_iff_engine_failure refused (one_fetch cb_watch) tt
              (state_after (process_msg refused) (one_fetch cb_watch)))
    as (l & Hl & Hiff & Htext & _).
  - apply reachable_wf, reachable_one_fetch.
  - refine (bool_decide_eq_true_1
              (easy_handle refused ∈ multi (engine (one_fetch cb_watch))) _).
    vm_compute. reflexivity.
  - vm_compute. reflexivity.
  - exists l. split; [done|]. split; [|done].
    apply Hiff. split; vm_compute; discriminate.
Defined.

(** C7 at work: the redirected fetch is handed an empty chunk, and the
    transfer completes. *)
Lemma redirect_at_empty_chunk_is_finished_witness :
  0 = String.length EmptyString ∧
  trace (state_after (fetch_curl_data EmptyString 1) located)
  = trace located
    ++ [{| ev_fetch := 1; ev_msg := FETCH_REDIRECT;
           ev_p := p (set_location (Some "http://b/") (the_fetch cb_watch));
           ev_data := PLocation (curl_unescape "http://b/");
           ev_size := 0 |}] ∧
  ∀ u s2,
    finish CURLE_OK 1 (state_after (fetch_curl_data EmptyString 1) located)
      = Ok (u, s2) →
    trace s2
    = trace located
      ++ [{| ev_fetch := 1; ev_msg := FETCH_REDIRECT;
             ev_p := p (set_location (Some "http://b/") (the_fetch cb_watch));
             ev_data := PLocation (curl_unescape "http://b/");
             ev_size := 0 |};
          {| ev_fetch := 1; ev_msg := FETCH_FINISHED;
             ev_p := p (set_location (Some "http://b/") (the_fetch cb_watch));
             ev_data := PNull; ev_size := 0 |}].
Proof.
  apply (redirect_at_empty_chunk_is_finished 1
           (set_location (Some "http://b/") (the_fetch cb_watch)) 1
           (set_info 302 None the_handle) "http://b/" located 0
           (state_after (fetch_curl_data EmptyString 1) located)).
  - apply reachable_wf. unfold located.
    apply reachable_after_poll; [done|apply reachable_one_fetch].
  - vm_compute. reflexivity.
  - reflexivity.
  - reflexivity.
  - vm_compute. reflexivity.
  - reflexivity.
  - simpl. lia.
  - vm_compute. reflexivity.
Defined.

(** The same through [fetch_poll]: the engine reports [CURLE_OK], and the
    fetch is told [FETCH_REDIRECT] and then [FETCH_FINISHED]. *)
Example empty_chunk_redirect_in_fetch_poll :
  ∃ s, fetch_poll moved_empty [done_msg 1 CURLE_OK EmptyString] (one_fetch cb_watch)
         = Ok (tt, s) ∧
    trace s = [{| ev_fetch := 1; ev_msg := FETCH_REDIRECT; ev_p := 7;
                  ev_data := PLocation "http://b/"; ev_size := 0 |};
               {| ev_fetch := 1; ev_msg := FETCH_FINISHED; ev_p := 7;
                  ev_data := PNull; ev_size := 0 |}].
Proof. eexists. split; vm_compute; reflexivity. Qed.

(** C8 at work. *)
Lemma second_abort_reads_freed_block_witness :
  ∃ s', fetch_abort 1 (one_fetch cb_watch) = Ok (tt, s') ∧
    heap s' !! 1 = None ∧ fetch_abort 1 s' = Fault UseAfterFree.
Proof.
  apply (second_abort_reads_freed_block 1 (the_fetch cb_watch) (one_fetch cb_watch)).
  - apply reachable_wf, reachable_one_fetch.
  - vm_compute. reflexivity.
  - reflexivity.
Defined.

(** What C8 says is not so: the second call does not return. *)
Example second_abort_is_no_noop :
  fetch_abort 1 (state_after (fetch_abort 1) (one_fetch cb_watch))
    ≠ Ok (tt, state_after (fetch_abort 1) (one_fetch cb_watch)).
Proof. vm_compute. discriminate. Qed.

(** C9 at work: the waiting fetch is aborted, and [fetch_list], which held
    fetch 1, is empty. *)
Lemma fetch_abort_queued_empties_fetch_list_witness :
  fetch_list (two_fetches cb_watch) = Some 1 ∧
  ∃ s', fetch_abort 2 (two_fetches cb_watch) = Ok (tt, s') ∧
    fetch_list s' = None ∧ heap s' !! 2 = None ∧
    ∀ a, a ≠ 2 →
      fld curl_handle (heap s') a = fld curl_handle (heap (two_fetches cb_watch)) a.
Proof.
  split; [vm_compute; reflexivity|].
  apply (fetch_abort_queued_empties_fetch_list 2 the_waiting_fetch
           (two_fetches cb_watch)).
  - apply reachable_wf, reachable_two_fetches.
  - vm_compute. reflexivity.
  - reflexivity.
  - reflexivity.
Defined.

(** C10 at work: the flag after the last fetch is aborted, and after the
    next [fetch_poll]. *)
Lemma fetch_active_cleared_by_poll_only_witness :
  fetch_active (state_after (fetch_abort 1) (one_fetch cb_watch)) = true ∧
  fetch_active (state_after (fetch_poll [] [])
                  (state_after (fetch_abort 1) (one_fetch cb_watch))) = false.
Proof.
  destruct fetch_active_cleared_by_poll_only as (Habort & _ & Hpoll).
  split.
  - rewrite (Habort 1 (one_fetch cb_watch) tt
               (state_after (fetch_abort 1) (one_fetch cb_watch)));
      vm_compute; reflexivity.
  - apply (Hpoll [] [] (state_after (fetch_abort 1) (one_fetch cb_watch)) tt);
      vm_compute; reflexivity.
Defined.

End Examples.

(** * More of the code at work *)

Section More.
#[local] Existing Instance simple_world.

(** X1 at work: a request for another host, with one fetch there. *)
Lemma fetch_start_returns_new_block_witness :
  ∃ s', fetch_start "http://other.net/" None cb_watch 9 false (one_fetch cb_watch)
          = Ok (next_addr (one_fetch cb_watch), s') ∧
    heap (one_fetch cb_watch) !! next_addr (one_fetch cb_watch) = None ∧
    next_addr s' = S (next_addr (one_fetch cb_watch)) ∧
    trace s' = trace (one_fetch cb_watch) ∧
    ∀ a, data_of <$> (heap s' !! a)
         = data_of <$> (<[next_addr (one_fetch cb_watch)
                          := new_fetch "http://other.net/" None cb_watch 9 false]>
                          (heap (one_fetch cb_watch)) !! a).
Proof.
  apply (fetch_start_returns_new_block "http://other.net/" None cb_watch 9 false
           (one_fetch cb_watch)).
  apply reachable_wf, reachable_one_fetch.
Defined.

(** X2 at work: the second request for the host gets no handle. *)
Lemma fetch_start_transfers_iff_host_idle_witness :
  is_Some (fld curl_handle (heap (two_fetches cb_watch)) 2) ↔
  ∀ name a, url_host "http://EXAMPLE.org/b" = Some name →
    listed (one_fetch cb_watch) a → ¬ same_host (heap (one_fetch cb_watch)) name a.
Proof.
  apply (fetch_start_transfers_iff_host_idle "http://EXAMPLE.org/b" None cb_watch
           8 false (one_fetch cb_watch) 2 (two_fetches cb_watch)).
  - apply reachable_wf, reachable_one_fetch.
  - vm_compute. reflexivity.
Defined.

(** X3 at work: the same URL asked for twice. *)
Lemma same_url_twice_waits_witness :
  ∃ s2, fetch_start "http://example.org/a" None cb_watch 8 true (one_fetch cb_watch)
          = Ok (next_addr (one_fetch cb_watch), s2) ∧
    fld curl_handle (heap s2) (next_addr (one_fetch cb_watch)) = None ∧
    is_Some (fld queue_prev (heap s2) (next_addr (one_fetch cb_watch))) ∧
    engine s2 = engine (one_fetch cb_watch) ∧
    fetch_list s2 = fetch_list (one_fetch cb_watch).
Proof.
  apply (same_url_twice_waits "http://example.org/a" None cb_watch 7 false
           None cb_watch 8 true nothing_yet 1 (one_fetch cb_watch) "example.org").
  - apply wf_init.
  - reflexivity.
  - vm_compute. reflexivity.
Defined.

(** X4 at work: handle 1 and fetch 1, with fetch 2 waiting. *)
Lemma handles_and_fetches_agree_witness :
  1 ∈ multi (engine (two_fetches cb_watch)) ∧
  eopt opt_private (engine (two_fetches cb_watch)) 1 = Some 1 ∧
  ∃ a, fld curl_handle (heap (two_fetches cb_watch)) a = Some 1.
Proof.
  destruct (handles_and_fetches_agree (two_fetches cb_watch)) as [Ha Hh].
  - apply reachable_two_fetches.
  - destruct (Ha 1 1) as (Hm & Hp & _); [vm_compute; reflexivity|].
    split; [exact Hm|]. split; [exact Hp|]. exact (Hh 1 Hm).
Defined.

(** X5 at work. *)
Lemma fetch_list_holds_transfers_witness :
  is_Some (fld curl_handle (heap (two_fetches cb_watch)) 1) ∧
  fld queue_prev (heap (two_fetches cb_watch)) 1 = None.
Proof.
  apply (fetch_list_holds_transfers (two_fetches cb_watch) 1).
  - apply reachable_two_fetches.
  - exists 1. split; [vm_compute; reflexivity|]. apply chain_here.
    vm_compute. eauto.
Defined.

(** X6 at work. *)
Lemma no_callback_between_calls_witness : in_callback the_waiting_fetch = false.
Proof.
  apply (no_callback_between_calls (two_fetches cb_watch) 2 the_waiting_fetch).
  - apply reachable_two_fetches.
  - vm_compute. reflexivity.
Defined.

(** X7 at work: the transferring fetch is aborted. *)
Lemma fetch_abort_returns_witness :
  ∃ s', fetch_abort 1 (two_fetches cb_watch) = Ok (tt, s') ∧
    trace s' = trace (two_fetches cb_watch) ∧
    next_addr s' = next_addr (two_fetches cb_watch) ∧
    ∀ a, is_Some (heap s' !! a) → is_Some (heap (two_fetches cb_watch) !! a).
Proof.
  apply (fetch_abort_returns 1 (two_fetches cb_watch)).
  - apply reachable_wf, reachable_two_fetches.
  - vm_compute. eauto.
Defined.

(** X8 at work. *)
Lemma fetch_abort_frees_only_its_fetch_witness :
  (∀ a, is_Some (heap (state_after (fetch_abort 1) (two_fetches cb_watch)) !! a)
        ↔ a ≠ 1 ∧ is_Some (heap (two_fetches cb_watch) !! a)) ∧
  (∀ a, a ≠ 1 →
     data_of <$> (heap (state_after (fetch_abort 1) (two_fetches cb_watch)) !! a)
     = data_of <$> (heap (two_fetches cb_watch) !! a)).
Proof.
  apply (fetch_abort_frees_only_its_fetch 1 (two_fetches cb_watch) tt
           (state_after (fetch_abort 1) (two_fetches cb_watch))).
  - vm_compute. reflexivity.
  - apply reachable_quiet, reachable_two_fetches.
Defined.

(** X9 at work: a second chunk. *)
Lemma data_after_headers_is_passed_on_witness :
  5 = String.length "world" ∧
  trace (state_after (fetch_curl_data "world" 1) receiving)
  = trace receiving
    ++ [{| ev_fetch := 1; ev_msg := FETCH_DATA;
           ev_p := p (set_had_headers true (the_fetch cb_watch));
           ev_data := PChunk "world";
           ev_size := N.of_nat (String.length "world") |}].
Proof.
  apply (data_after_headers_is_passed_on "world" 1
           (set_had_headers true (the_fetch cb_watch)) receiving 5
           (state_after (fetch_curl_data "world" 1) receiving)).
  - vm_compute. reflexivity.
  - reflexivity.
  - vm_compute. reflexivity.
Defined.

(** X10 at work: no status yet, no content type. *)
Lemma fetch_process_headers_tells_once_witness :
  ∃ fr e,
    heap (one_fetch cb_watch) !! 1 = Some fr ∧
    trace (state_after (fetch_process_headers 1) (one_fetch cb_watch))
      = trace (one_fetch cb_watch) ++ [e] ∧
    ev_fetch e = 1 ∧ ev_p e = p fr ∧ from_headers (ev_msg e) (ev_data e) ∧
    (false = false → ev_msg e = FETCH_TYPE).
Proof.
  apply (fetch_process_headers_tells_once 1 (one_fetch cb_watch) false
           (state_after (fetch_process_headers 1) (one_fetch cb_watch))).
  vm_compute. reflexivity.
Defined.

(** X11 at work: 404 for a fetch that takes 2xx only. *)
Lemma only_2xx_gives_up_witness :
  true = true ∧
  trace (state_after (fetch_process_headers 1) not_found)
  = trace not_found
    ++ [{| ev_fetch := 1; ev_msg := FETCH_ERROR; ev_p := p the_strict_fetch;
           ev_data := PMessage (messages_get "Not2xx"); ev_size := 0 |}].
Proof.
  apply (only_2xx_gives_up 1 the_strict_fetch 1 (set_info 404 None the_handle)
           not_found true (state_after (fetch_process_headers 1) not_found)).
  - vm_compute. reflexivity.
  - reflexivity.
  - vm_compute. reflexivity.
  - reflexivity.
  - vm_compute. reflexivity.
  - right. simpl. lia.
  - left. reflexivity.
  - right. simpl. lia.
  - vm_compute. reflexivity.
Defined.

(** X12 at work: a content length. *)
Lemma fetch_curl_header_takes_line_witness :
  20 = String.length ("Content-Length: 42" ++ crlf) ∧
  (state_after (fetch_curl_header ("Content-Length: 42" ++ crlf) 1) (one_fetch cb_watch)
     = one_fetch cb_watch ∨
   ∃ x y, heap (one_fetch cb_watch) !! 1 = Some x ∧ header_fields_of x y = x ∧
     state_after (fetch_curl_header ("Content-Length: 42" ++ crlf) 1) (one_fetch cb_watch)
       = with_heap (<[1 := y]> (heap (one_fetch cb_watch))) (one_fetch cb_watch)).
Proof.
  apply (fetch_curl_header_takes_line ("Content-Length: 42" ++ crlf) 1
           (one_fetch cb_watch) 20
           (state_after (fetch_curl_header ("Content-Length: 42" ++ crlf) 1)
              (one_fetch cb_watch))).
  vm_compute. reflexivity.
Defined.

(** X13 at work. *)
Lemma location_header_is_trimmed_witness :
  fetch_curl_header
    ("LOCATION:" ++ "  " ++ String "h" "ttp://example.org/x" ++ crlf) 1
    (one_fetch cb_watch)
  = Ok (String.length
          ("LOCATION:" ++ "  " ++ String "h" "ttp://example.org/x" ++ crlf),
        with_heap
          (<[1 := set_location (Some (String "h" "ttp://example.org/x"))
                    (the_fetch cb_watch)]> (heap (one_fetch cb_watch)))
          (one_fetch cb_watch)).
Proof.
  apply (location_header_is_trimmed "LOCATION:" "  " "h" "ttp://example.org/x"
           crlf 1 (the_fetch cb_watch) (one_fetch cb_watch)).
  - vm_compute. reflexivity.
  - reflexivity.
  - vm_compute. reflexivity.
  - vm_compute. reflexivity.
  - vm_compute. reflexivity.
  - vm_compute. reflexivity.
  - vm_compute. reflexivity.
  - vm_compute. reflexivity.
  - simpl. lia.
Defined.

(** X14 at work: a [Location] header with no value. *)
Lemma location_header_of_spaces_overruns_witness :
  fetch_curl_header ("Location:" ++ ("   " ++ crlf)) 1 (one_fetch cb_watch)
  = Fault OutOfBounds.
Proof.
  apply (location_header_of_spaces_overruns "Location:" ("   " ++ crlf) 1
           (one_fetch cb_watch)).
  - reflexivity.
  - vm_compute. reflexivity.
  - vm_compute. reflexivity.
  - simpl. lia.
Defined.

(** X15 at work: the waiting fetch has been told nothing. *)
Lemma nothing_told_before_headers_witness :
  events_of 2 (trace (two_fetches cb_watch)) = [].
Proof.
  apply (nothing_told_before_headers (two_fetches cb_watch) 2).
  - apply reachable_two_fetches.
  - right. exists the_waiting_fetch. split; [vm_compute; reflexivity|reflexivity].
Defined.

(** X16 at work: the first chunk of the one fetch. *)
Lemma first_chunk_waits_for_type_witness :
  ∃ e, ev_fetch e = 1 ∧ ev_p e = p (the_fetch cb_watch) ∧
    from_headers (ev_msg e) (ev_data e) ∧
    ((5 = 0 ∧ trace (state_after (fetch_curl_data "hello" 1) (one_fetch cb_watch))
              = trace (one_fetch cb_watch) ++ [e]) ∨
     (5 = String.length "hello" ∧ ev_msg e = FETCH_TYPE ∧
      ∃ e', trace (state_after (fetch_curl_data "hello" 1) (one_fetch cb_watch))
              = trace (one_fetch cb_watch) ++ [e; e'] ∧ ev_fetch e' = 1 ∧
            ev_msg e' = FETCH_DATA ∧ ev_data e' = PChunk "hello" ∧
            ev_size e' = N.of_nat (String.length "hello"))).
Proof.
  apply (first_chunk_waits_for_type "hello" 1 (the_fetch cb_watch)
           (one_fetch cb_watch) 5
           (state_after (fetch_curl_data "hello" 1) (one_fetch cb_watch))).
  - vm_compute. reflexivity.
  - reflexivity.
  - vm_compute. reflexivity.
Defined.

(** X17 at work: status 200 and no content type. *)
Lemma type_defaults_to_text_html_witness :
  trace (state_after (fetch_process_headers 1) answered)
  = trace answered
    ++ [{| ev_fetch := 1; ev_msg := FETCH_TYPE; ev_p := p (the_fetch cb_watch);
           ev_data := PMime (default "text/html"
                               (info_content_type (set_info 200 None the_handle)));
           ev_size := content_length (the_fetch cb_watch) |}].
Proof.
  apply (type_defaults_to_text_html 1 (the_fetch cb_watch) 1
           (set_info 200 None the_handle) answered false
           (state_after (fetch_process_headers 1) answered)).
  - vm_compute. reflexivity.
  - reflexivity.
  - vm_compute. reflexivity.
  - simpl. lia.
  - vm_compute. discriminate.
  - vm_compute. reflexivity.
Defined.

(** X18 at work: fetch 1 completes with fetch 2 behind it. *)
Lemma completion_frees_the_fetch_witness :
  heap (state_after (finish 0 1) (two_fetches cb_watch)) !! 1 = None.
Proof.
  apply (completion_frees_the_fetch 0 1 (two_fetches cb_watch) tt
           (state_after (finish 0 1) (two_fetches cb_watch))).
  - apply reachable_wf, reachable_two_fetches.
  - apply reachable_quiet, reachable_two_fetches.
  - vm_compute. reflexivity.
Defined.

(** X19 at work: a redirection, with data sent after the headers. *)
Lemma redirect_is_all_its_fetch_is_told_witness :
  events_of 1 (trace redirected) = [the_redirection] ∧
  ∃ loc, ev_data the_redirection = PLocation (curl_unescape loc).
Proof.
  apply (proj2 redirect_is_all_its_fetch_is_told redirected the_redirection).
  - unfold redirected. apply reachable_after_poll; [|apply reachable_one_fetch].
    intros h Hin. vm_compute in Hin.
    repeat (apply elem_of_cons in Hin as [Hin|Hin]; [discriminate|]).
    by apply elem_of_nil in Hin.
  - replace (trace redirected) with [the_redirection] by (vm_compute; reflexivity).
    apply list_elem_of_singleton. reflexivity.
  - reflexivity.
Defined.

End More.
